(** * futbin_alerts: the concurrent fetch-parse pipeline of [futbin.py]

    A shallow embedding of [src/futbin_alerts/futbin.py] and the properties
    of it that the specification states.

    Conventions of the embedding.
    - Python [str] is [string]; a character is its code point (below 256).
    - Python [int] is [Z].
    - Objects that are shared and mutated (the wrappers of class
      [FutBinFuture] and the futures of the transport) live in a [Heap];
      a reference is the index at which the object was allocated.
    - A Python function that can raise returns in the monad [M], which
      threads the heap and carries the exception.
    - The order in which the transport completes the requests of a wave
      is not decided by the program: it is a [Schedule], an argument of
      everything that waits for completions. *)

From Stdlib Require Import ZArith Ascii String.
From stdpp Require Import gmap strings list fin_maps.

Local Open Scope string_scope.
Local Open Scope list_scope.
Local Set Warnings "-register-all".

(** ** Strings: the [str] methods the module calls *)

Module Str.

Definition code (c : ascii) : nat := nat_of_ascii c.

(** [str.isspace] on one character: TAB..CR, FS..US, space, NEL, NBSP. *)
Definition is_space (c : ascii) : bool :=
  let n := code c in
  (((9 <=? n) && (n <=? 13)) || ((28 <=? n) && (n <=? 32))
   || (n =? 133) || (n =? 160))%nat.

(** The class [\d] of [re] on one character. *)
Definition is_digit (c : ascii) : bool :=
  let n := code c in ((48 <=? n) && (n <=? 57))%nat.

Fixpoint lstrip (s : string) : string :=
  match s with
  | EmptyString => EmptyString
  | String c r => if is_space c then lstrip r else s
  end.

Fixpoint rstrip (s : string) : string :=
  match s with
  | EmptyString => EmptyString
  | String c r =>
      match rstrip r with
      | EmptyString => if is_space c then EmptyString else String c EmptyString
      | r' => String c r'
      end
  end.

(** [s.strip()] *)
Definition strip (s : string) : string := rstrip (lstrip s).

(** [s.split('/')]: the pieces between the separators, never empty as a
    list. *)
Fixpoint split (sep : ascii) (s : string) : list string :=
  match s with
  | EmptyString => [EmptyString]
  | String c r =>
      if Ascii.eqb c sep then EmptyString :: split sep r
      else match split sep r with
           | h :: t => String c h :: t
           | [] => [String c EmptyString]
           end
  end.

(** [sep.join(l)] *)
Fixpoint join (sep : string) (l : list string) : string :=
  match l with
  | [] => EmptyString
  | [x] => x
  | x :: l' => x +:+ sep +:+ join sep l'
  end.

(** [l[-2:]] *)
Definition last_two {A} (l : list A) : list A := drop (length l - 2) l.

(** [s.startswith(p)] *)
Fixpoint startswith (p s : string) : bool :=
  match p, s with
  | EmptyString, _ => true
  | String a p', String b s' => Ascii.eqb a b && startswith p' s'
  | String _ _, EmptyString => false
  end.

(** What is left of [s] after the prefix [p]. *)
Fixpoint after_prefix (p s : string) : option string :=
  match p, s with
  | EmptyString, _ => Some s
  | String a p', String b s' =>
      if Ascii.eqb a b then after_prefix p' s' else None
  | String _ _, EmptyString => None
  end.

(** [pattern.search(s)] for a pattern given by its matcher at a position:
    the pattern matches at some position of [s]. *)
Fixpoint search (here : string -> bool) (s : string) : bool :=
  here s ||
  match s with
  | EmptyString => false
  | String _ r => search here r
  end.

(** [c.lower()] on one character: A..Z and the upper case letters of
    Latin-1. *)
Definition lower_char (c : ascii) : ascii :=
  let n := code c in
  if (((65 <=? n) && (n <=? 90))
      || ((192 <=? n) && (n <=? 222) && negb (n =? 215)))%nat
  then ascii_of_nat (n + 32) else c.

Fixpoint lower (s : string) : string :=
  match s with
  | EmptyString => EmptyString
  | String c r => String (lower_char c) (lower r)
  end.

(** [s.count(c)] for a one-character [c]. *)
Fixpoint count (c : ascii) (s : string) : nat :=
  match s with
  | EmptyString => 0
  | String a r => (if Ascii.eqb a c then 1 else 0) + count c r
  end.

End Str.

(** ** Regular expressions of the module *)

(** [re.compile(r'player_tr_\d+')], matched at the start of [s]. *)
Definition player_tr_here (s : string) : bool :=
  match Str.after_prefix "player_tr_" s with
  | Some (String c _) => Str.is_digit c
  | _ => false
  end.

(** [re.compile('player/')], matched at the start of [s]. *)
Definition player_slash_here (s : string) : bool := Str.startswith "player/" s.

(** ** The document tree of BeautifulSoup *)

(** The value of an attribute: a string, or for the multi-valued
    attributes ([class], [rel], ...) the list of its tokens. *)
Inductive AttrValue :=
| AStr (s : string)
| AList (l : list string).

(** A [Tag] with its name, its [attrs] dict and its [contents]; or a
    [NavigableString]. The [BeautifulSoup] object itself is a [Tag]. *)
Inductive Node :=
| Tag (name : string) (attrs : gmap string AttrValue) (contents : list Node)
| NavigableString (s : string).

Definition Soup := Node.

Module Bs4.

(** [tag.descendants]: every node below [n], in document order. *)
Fixpoint descendants (n : Node) : list Node :=
  match n with
  | Tag _ _ cs =>
      (fix go (l : list Node) : list Node :=
         match l with
         | [] => []
         | c :: l' => c :: descendants c ++ go l'
         end) cs
  | NavigableString _ => []
  end.

Definition is_tag (n : Node) : bool :=
  match n with Tag _ _ _ => true | NavigableString _ => false end.

Definition tag_name (n : Node) : option string :=
  match n with Tag nm _ _ => Some nm | NavigableString _ => None end.

(** [tag.attrs.get(key)] *)
Definition attr (key : string) (n : Node) : option AttrValue :=
  match n with Tag _ a _ => a !! key | NavigableString _ => None end.

(** How a search criterion is matched against an attribute value
    ([SoupStrainer._matches]): a list matches when one of its items
    does, or the items joined by one space; an absent attribute never
    matches a pattern or a non-empty string. *)
Definition matches (crit : string -> bool) (v : option AttrValue) : bool :=
  match v with
  | None => false
  | Some (AStr s) => crit s
  | Some (AList l) => existsb crit l || crit (Str.join " " l)
  end.

Definition name_is (nm : string) (n : Node) : bool :=
  match tag_name n with Some x => String.eqb x nm | None => false end.

(** [tag.find_all(...)] with the criterion [p] on tags. *)
Definition find_all (p : Node -> bool) (n : Node) : list Node :=
  List.filter (fun d => is_tag d && p d) (descendants n).

(** [tag.find(...)]: the first result of [find_all], or [None]. *)
Definition find (p : Node -> bool) (n : Node) : option Node :=
  head (find_all p n).

(** [tag.text]: the strings below the tag, concatenated. *)
Definition text (n : Node) : string :=
  String.concat ""
    (omap (fun d => match d with NavigableString s => Some s | _ => None end)
          (descendants n)).

End Bs4.

(** ** Requests, responses, exceptions *)

(** A value of the [params] dict of a request. *)
Inductive Param :=
| PInt (z : Z)
| PVal (v : AttrValue).

Definition PStr (s : string) : Param := PVal (AStr s).

(** What [session.get(url, params=params)] is called with; [params=None]
    is [None], a dict is the list of its items in insertion order. *)
Record Request := mkRequest {
  req_url : string;
  req_params : option (list (string * Param))
}.

(** The part of a [requests.Response] the module reads; [content] is the
    byte payload. *)
Record Response := mkResponse {
  status_code : Z;
  content : string
}.

(** How the transport completes a request: with a response (of any
    status), or with an exception of its own. *)
Inductive Outcome :=
| Completed (r : Response)
| TransportFailed (msg : string).

(** What [BeautifulSoup(html, 'html.parser')] does with a payload: it
    returns the document, or the parser rejects the markup (a malformed
    declaration such as [<![1>], for one) and the exception leaves the
    constructor, with the message of the parser. *)
Inductive Markup :=
| Accepted (soup : Soup)
| Rejected (msg : string).

Inductive Exn :=
| FailedRequestException (url : string)   (* class FailedRequestException *)
| RequestException (msg : string)         (* raised by the transport *)
| AttributeError (attribute : string)
| KeyError (key : string)
| TypeError
| ValueError
| ParserRejectedMarkup (msg : string).    (* raised by BeautifulSoup *)

(** ** Player *)

Record Player := mkPlayer {
  id : string;
  name : string;
  url : string;
  data : option Node   (* what [soup.find] returned: a Tag, or None *)
}.

Module PlayerM.

(** [Player.price_id]: [self.data['data-player-resource']]. Indexing a
    Tag indexes its [attrs]; [None] and strings cannot be indexed by a
    string. *)
Definition price_id (self : Player) : Exn + AttrValue :=
  match data self with
  | Some (Tag _ a _) =>
      match a !! "data-player-resource" with
      | Some v => inr v
      | None => inl (KeyError "data-player-resource")
      end
  | Some (NavigableString _) => inl TypeError
  | None => inl TypeError
  end.

(** [Player.from_url(url, data)]: [id, name = url.split('/')[-2:]];
    unpacking anything but two values raises ValueError. *)
Definition from_url (url : string) (data : option Node) : Exn + Player :=
  match Str.last_two (Str.split "/" url) with
  | [id; name] => inr (mkPlayer id name url data)
  | _ => inl ValueError
  end.

End PlayerM.

(** ** FutBinSession *)

Definition DEFAULT_WORKERS : Z := 4.

(** [a or b] on an optional int: [None] and [0] are falsy. *)
Definition py_or (a : option Z) (b : Z) : Z :=
  match a with
  | None => b
  | Some w => if (w =? 0)%Z then b else w
  end.

(** A session, with the width of its pool. *)
Record Session := mkSession { max_workers : Z }.

(** [ThreadPoolExecutor(max_workers=w)], the pool [FuturesSession.__init__]
    builds for the width it is given: a width of 0 or less raises
    ValueError. *)
Definition ThreadPoolExecutor (w : Z) : Exn + Z :=
  if (w <=? 0)%Z then inl ValueError else inr w.

(** [FutBinSession.__init__(self, max_workers=None)] hands
    [max_workers or self.DEFAULT_WORKERS] to [FuturesSession], which
    builds the pool. *)
Definition FutBinSession (max_workers : option Z) : Exn + Session :=
  match ThreadPoolExecutor (py_or max_workers DEFAULT_WORKERS) with
  | inl e => inl e
  | inr w => inr (mkSession w)
  end.

(** ** The store of wrappers and futures *)

Abbreviation fref := nat (only parsing).
Abbreviation wref := nat (only parsing).

(** A future of the transport: the request it was submitted for, and the
    [wrapper] attribute the module sets on it. *)
Record FutureObj := mkFuture {
  f_request : Request;
  f_wrapper : option wref
}.

(** An object of class [FutBinFuture] or of a subclass: [url], [future],
    and the attributes some subclasses and callers set ([club], [page],
    [player]). *)
Record WrapperObj := mkWrapper {
  w_url : string;
  w_future : fref;
  w_club : option string;
  w_page : option Z;
  w_player : option Player
}.

Record Heap := mkHeap {
  futures : list FutureObj;
  wrappers : list WrapperObj
}.

Definition empty_heap : Heap := mkHeap [] [].

(** ** The monad of the module: state and exceptions *)

Definition M (A : Type) : Type := Heap -> (Exn + A) * Heap.

Definition ret {A} (x : A) : M A := fun h => (inr x, h).
Definition raise {A} (e : Exn) : M A := fun h => (inl e, h).
Definition bind {A B} (m : M A) (k : A -> M B) : M B :=
  fun h => match m h with
           | (inr x, h') => k x h'
           | (inl e, h') => (inl e, h')
           end.
Definition lift {A} (r : Exn + A) : M A :=
  match r with inr x => ret x | inl e => raise e end.

Notation "'do' x <- m ; k" := (bind m (fun x => k))
  (at level 10, x name, m at level 100, k at level 200,
   format "'[v' 'do'  x  <-  m ; '/' k ']'").

(** [for x in xs: body], where the body updates the local variable [acc]. *)
Fixpoint for_ {A S} (xs : list A) (body : A -> S -> M S) (acc : S) : M S :=
  match xs with
  | [] => ret acc
  | x :: xs' => do acc' <- body x acc; for_ xs' body acc'
  end.

(** The value the caller of a top-level function sees, run in a fresh
    session. *)
Definition run {A} (m : M A) : Exn + A := fst (m empty_heap).

(** Reading an object through a reference. Every reference the module
    holds is allocated; the error branch is there to make the function
    total. *)
Definition get_wrapper (w : wref) : M WrapperObj :=
  fun h => match wrappers h !! w with
           | Some o => (inr o, h)
           | None => (inl (AttributeError "wrapper"), h)
           end.

Definition get_future (f : fref) : M FutureObj :=
  fun h => match futures h !! f with
           | Some o => (inr o, h)
           | None => (inl (AttributeError "future"), h)
           end.

(** [self.club], which raises when the attribute was never set. *)
Definition get_club (w : wref) : M string :=
  do o <- get_wrapper w;
  match w_club o with
  | Some c => ret c
  | None => raise (AttributeError "club")
  end.

(** [w.club = c] *)
Definition set_club (w : wref) (c : string) : M unit :=
  fun h =>
    (inr tt,
     mkHeap (futures h)
       (alter (fun o => mkWrapper (w_url o) (w_future o) (Some c)
                          (w_page o) (w_player o)) w (wrappers h))).

(** [self.page = page] *)
Definition set_page (w : wref) (p : Z) : M unit :=
  fun h =>
    (inr tt,
     mkHeap (futures h)
       (alter (fun o => mkWrapper (w_url o) (w_future o) (w_club o)
                          (Some p) (w_player o)) w (wrappers h))).

(** [self.player = player] *)
Definition set_player (w : wref) (p : Player) : M unit :=
  fun h =>
    (inr tt,
     mkHeap (futures h)
       (alter (fun o => mkWrapper (w_url o) (w_future o) (w_club o)
                          (w_page o) (Some p)) w (wrappers h))).

(** [f.wrapper = w] *)
Definition set_wrapper (f : fref) (w : wref) : M unit :=
  fun h =>
    (inr tt,
     mkHeap (alter (fun o => mkFuture (f_request o) (Some w)) f (futures h))
            (wrappers h)).

(** [session.get(url, params=params)]: submits the request and returns
    its new future at once; nothing is raised here. *)
Definition session_get (url : string) (params : option (list (string * Param)))
  : M fref :=
  fun h =>
    (inr (length (futures h)),
     mkHeap (futures h ++ [mkFuture (mkRequest url params) None]) (wrappers h)).

(** The allocation of [self], with the attributes [__init__] sets first. *)
Definition new_wrapper (url : string) (f : fref) : M wref :=
  fun h =>
    (inr (length (wrappers h)),
     mkHeap (futures h) (wrappers h ++ [mkWrapper url f None None None])).

(** ** Completion order *)

(** The transport decides which pending future completes next. A schedule
    lists its choices, each an index into the futures still pending (taken
    modulo their number); when the list ends, the rest completes in the
    order it stands. *)
Definition Schedule := list nat.

Fixpoint complete {A} (sched : Schedule) (pending : list A) : list A :=
  match sched with
  | [] => pending
  | i :: sched' =>
      let k := i mod length pending in
      match pending !! k with
      | Some x => x :: complete sched' (delete k pending)
      | None => []
      end
  end.

(** [concurrent.futures.as_completed(fs)]: [fs = set(fs)], then every
    future once, in the order of completion. *)
Definition as_completed (sched : Schedule) (fs : list fref) : list fref :=
  complete sched (remove_dups fs).

(** ** The module *)

Definition FUTBIN_URL : string := "https://www.futbin.com".
Definition FIFA18_URL : string := FUTBIN_URL +:+ "/18".

(** The transport strips the white space in front of a URL and serves it
    only through a mounted adapter; a session mounts [https://] and
    [http://], compared in lower case. For any other URL the future
    completes with an exception. *)
Definition mounted (url : string) : bool :=
  let u := Str.lower (Str.lstrip url) in
  Str.startswith "https://" u || Str.startswith "http://" u.

Section Futbin.

(** The remote service behind the transport: how the request, once
    sent, completes. *)
Variable remote : Request -> Outcome.

(** [BeautifulSoup(html, 'html.parser')] *)
Variable BeautifulSoup : string -> Markup.

Definition transport (req : Request) : Outcome :=
  if mounted (req_url req) then remote req
  else TransportFailed "No connection adapters were found".

(** [future.result()]: the response, or the exception of the transport. *)
Definition Future_result (f : fref) : M Response :=
  do o <- get_future f;
  match transport (f_request o) with
  | Completed r => ret r
  | TransportFailed msg => raise (RequestException msg)
  end.

(** *** class FutBinFuture *)

(** [FutBinFuture.__init__(self, session, url, params=None)] *)
Definition FutBinFuture_init (url : string)
    (params : option (list (string * Param))) : M wref :=
  do f <- session_get url params;
  do self <- new_wrapper url f;
  do _ <- set_wrapper f self;
  ret self.

(** [FutBinFuture.result(self)] *)
Definition FutBinFuture_result (self : wref) : M Response :=
  do o <- get_wrapper self;
  do response <- Future_result (w_future o);
  if negb (status_code response =? 200)%Z
  then raise (FailedRequestException (w_url o))
  else ret response.

(** *** class ParsedFuture *)

(** [BeautifulSoup(html, 'html.parser')] as the module calls it: the
    exception of the parser is not caught. *)
Definition parse (html : string) : Exn + Soup :=
  match BeautifulSoup html with
  | Accepted soup => inr soup
  | Rejected msg => inl (ParserRejectedMarkup msg)
  end.

Definition ParsedFuture_result (self : wref) : M Soup :=
  do response <- FutBinFuture_result self;
  lift (parse (content response)).

(** *** class ClubsPageFuture *)

(** [find_all(class_=self.filter)] with
    [filter = re.compile(r'player_tr_\d+')] *)
Definition clubs_filter (n : Node) : bool :=
  Bs4.matches (Str.search player_tr_here) (Bs4.attr "class" n).

Definition ClubsPageFuture_init (page : Z) : M wref :=
  do self <- FutBinFuture_init (FIFA18_URL +:+ "/clubs")
               (Some [("page", PInt page)]);
  do _ <- set_page self page;
  ret self.

(** The loop of [ClubsPageFuture.result] over the rows, [result] being
    the list built so far. [row.find('td')] is [None] for a row without
    a cell, and [None.text] raises. *)
Fixpoint clubs_rows (rows : list Node) (result : list string)
  : Exn + list string :=
  match rows with
  | [] => inr result
  | row :: rows' =>
      match Bs4.find (Bs4.name_is "td") row with
      | None => inl (AttributeError "text")
      | Some td =>
          let club := Str.strip (Bs4.text td) in
          if String.eqb club "No Results" then inr result
          else clubs_rows rows' (result ++ [club])
      end
  end.

(** What [ClubsPageFuture.result] does with the parsed page. *)
Definition clubs_of_page (soup : Soup) : Exn + list string :=
  clubs_rows (Bs4.find_all clubs_filter soup) [].

Definition ClubsPageFuture_result (self : wref) : M (list string) :=
  do soup <- ParsedFuture_result self;
  lift (clubs_of_page soup).

(** *** class ClubPlayersFuture *)

(** [find_all('a', href=self.href_filter)] with
    [href_filter = re.compile('player/')] *)
Definition href_filter (n : Node) : bool :=
  Bs4.name_is "a" n
  && Bs4.matches (Str.search player_slash_here) (Bs4.attr "href" n).

Definition ClubPlayersFuture_init (club : string) : M wref :=
  do self <- FutBinFuture_init (FIFA18_URL +:+ "/clubs/" +:+ club) None;
  do _ <- set_club self club;
  ret self.

(** [FUTBIN_URL + l.attrs['href']] *)
Definition player_url (l : Node) : Exn + string :=
  match Bs4.attr "href" l with
  | Some (AStr href) => inr (FUTBIN_URL +:+ href)
  | Some (AList _) => inl TypeError
  | None => inl (KeyError "href")
  end.

(** [for url in self.result(): body], [result] being the generator of
    [ClubPlayersFuture]: its code up to the first [yield] runs when the
    loop asks for the first URL, and the code between two [yield]s
    between two runs of the body. *)
Definition ClubPlayersFuture_result {S} (self : wref)
    (body : string -> S -> M S) (acc : S) : M S :=
  do soup <- ParsedFuture_result self;
  for_ (Bs4.find_all href_filter soup)
       (fun l acc => do url <- lift (player_url l); body url acc) acc.

(** *** class PlayerDataFuture *)

Definition PlayerDataFuture_init (url : string) : M wref :=
  FutBinFuture_init url None.

(** [soup.find('div', id='page-info')] *)
Definition page_info (soup : Soup) : option Node :=
  Bs4.find (fun n => Bs4.name_is "div" n
                     && Bs4.matches (String.eqb "page-info") (Bs4.attr "id" n))
           soup.

Definition PlayerDataFuture_result (self : wref) : M Player :=
  do soup <- ParsedFuture_result self;
  do o <- get_wrapper self;
  lift (PlayerM.from_url (w_url o) (page_info soup)).

(** *** class PlayerPriceFuture *)

(** [PlayerPriceFuture.__init__(self, session, player, type='today',
    year='18')]; an omitted keyword is [None]; [clock] is what
    [int(time.time())] returns at the call. *)
Definition PlayerPriceFuture_init (player : Player)
    (type year : option string) (clock : Z) : M wref :=
  let type := default "today" type in
  let year := default "18" year in
  do price_id <- lift (PlayerM.price_id player);
  do self <- FutBinFuture_init (FUTBIN_URL +:+ "/" +:+ year +:+ "/playerGraph")
               (Some [("type", PStr type); ("year", PStr year);
                      ("player", PVal price_id); ("_", PInt clock)]);
  do _ <- set_player self player;
  ret self.

(** *** _as_completed *)

(** [for w in _as_completed(futures): body]. The generator first builds
    [[f.future for f in futures]], then reads [f.wrapper] of each
    completed future when the loop asks for it. *)
Definition _as_completed {S} (sched : Schedule) (futures : list wref)
    (body : wref -> S -> M S) (acc : S) : M S :=
  do fs <- for_ futures
             (fun f fs => do o <- get_wrapper f; ret (fs ++ [w_future o])) [];
  for_ (as_completed sched fs)
       (fun f acc =>
          do o <- get_future f;
          match f_wrapper o with
          | Some w => body w acc
          | None => raise (AttributeError "wrapper")
          end) acc.

(** [list(_as_completed(futures))] *)
Definition _as_completed_list (sched : Schedule) (futures : list wref)
  : M (list wref) :=
  _as_completed sched futures (fun w ys => ret (ys ++ [w])) [].

(** *** get_players_for_clubs *)

(** [result[club].append(p)] on a [defaultdict(list)] *)
Definition append_to (club : string) (p : Player)
    (result : gmap string (list Player)) : gmap string (list Player) :=
  <[club := default [] (result !! club) ++ [p]]> result.

Definition get_players_for_clubs_body (sched1 sched2 : Schedule)
    (clubs : list string) : M (gmap string (list Player)) :=
  do futures <- for_ clubs
                  (fun club futures =>
                     do f <- ClubPlayersFuture_init club;
                     ret (futures ++ [f])) [];
  do futures2 <- _as_completed sched1 futures
                   (fun f futures2 =>
                      ClubPlayersFuture_result f
                        (fun url futures2 =>
                           do r <- PlayerDataFuture_init url;
                           do club <- get_club f;
                           do _ <- set_club r club;
                           ret (futures2 ++ [r])) futures2) [];
  _as_completed sched2 futures2
    (fun f result =>
       do p <- PlayerDataFuture_result f;
       do club <- get_club f;
       ret (append_to club p result)) ∅.

(** [get_players_for_clubs(clubs)]: the dict it returns or the exception
    that leaves it, the two waves completing in the orders [sched1] and
    [sched2]. The session is new, and so are all objects of the call. *)
Definition get_players_for_clubs (sched1 sched2 : Schedule)
    (clubs : list string) : Exn + gmap string (list Player) :=
  run (get_players_for_clubs_body sched1 sched2 clubs).

(** ** Notions the statements below are written with *)

(** The trimmed text of the first cell of a row, when it has a cell. *)
Definition first_cell (row : Node) : option string :=
  (fun td => Str.strip (Bs4.text td)) <$> Bs4.find (Bs4.name_is "td") row.

(** [f] on every element, up to the first exception. *)
Fixpoint traverse {A B} (f : A -> Exn + B) (l : list A) : Exn + list B :=
  match l with
  | [] => inr []
  | x :: l' =>
      match f x with
      | inl e => inl e
      | inr y => match traverse f l' with
                 | inl e => inl e
                 | inr ys => inr (y :: ys)
                 end
      end
  end.

(** What resolving a wrapper submitted for [url] gives: the response
    with status 200, or the exception. *)
Definition resolve (url : string) : Exn + Response :=
  match transport (mkRequest url None) with
  | TransportFailed msg => inl (RequestException msg)
  | Completed r =>
      if negb (status_code r =? 200)%Z
      then inl (FailedRequestException url) else inr r
  end.

Definition roster_url (club : string) : string :=
  FIFA18_URL +:+ "/clubs/" +:+ club.

(** The player-detail URLs on the roster page of [club], in document
    order, or the exception its resolution raises. *)
Definition roster (club : string) : Exn + list string :=
  match resolve (roster_url club) with
  | inl e => inl e
  | inr r =>
      match parse (content r) with
      | inl e => inl e
      | inr soup => traverse player_url (Bs4.find_all href_filter soup)
      end
  end.

(** The same URLs, each with the club it is requested for. *)
Definition roster_tagged (club : string) : Exn + list (string * string) :=
  match roster club with
  | inl e => inl e
  | inr urls => inr (List.map (pair club) urls)
  end.

(** The Player a player-detail URL resolves to, or the exception. *)
Definition player_of (url : string) : Exn + Player :=
  match resolve url with
  | inl e => inl e
  | inr r =>
      match parse (content r) with
      | inl e => inl e
      | inr soup => PlayerM.from_url url (page_info soup)
      end
  end.

(** The dict built from the (club, URL) pairs in the order they are
    resolved. *)
Fixpoint accumulate (tagged : list (string * string))
    (result : gmap string (list Player))
  : Exn + gmap string (list Player) :=
  match tagged with
  | [] => inr result
  | (club, url) :: tagged' =>
      match player_of url with
      | inl e => inl e
      | inr p => accumulate tagged' (append_to club p result)
      end
  end.

End Futbin.

(** A wrapper of the store is well formed when its future is allocated,
    points back at it and was submitted for the wrapper's URL: what
    [FutBinFuture.__init__] establishes. *)
Definition wf_wrapper (h : Heap) (w : wref) (o : WrapperObj) : bool :=
  match futures h !! w_future o with
  | Some fo =>
      bool_decide (f_wrapper fo = Some w)
      && String.eqb (req_url (f_request fo)) (w_url o)
  | None => false
  end.

Definition wf (h : Heap) : bool :=
  forallb (fun b : bool => b) (imap (wf_wrapper h) (wrappers h)).

(** The store of a session in which [ds] were submitted one after the
    other, each by [FutBinFuture.__init__]: the wrapper and the future of
    a submission have the same index. *)
Definition heap_of (ds : list (Request * option string)) : Heap :=
  mkHeap (imap (fun i d => mkFuture (fst d) (Some i)) ds)
         (imap (fun i d => mkWrapper (req_url (fst d)) i (snd d) None None) ds).

(** What a roster request and a player-detail request leave in the store:
    the request, and the [club] attribute of its wrapper. *)
Definition club_entry (club : string) : Request * option string :=
  (mkRequest (FIFA18_URL +:+ "/clubs/" +:+ club) None, Some club).

Definition player_entry (t : string * string) : Request * option string :=
  (mkRequest (snd t) None, Some (fst t)).

(** The club and the URL of the wrapper at [w]. *)
Definition tag_of (ds : list (Request * option string)) (w : wref)
  : string * string :=
  match ds !! w with
  | Some (req, Some club) => (club, req_url req)
  | _ => ("", "")
  end.

(** The future of a wrapper and the wrapper of a future, read from the
    store. *)
Definition future_of (h : Heap) (w : wref) : fref :=
  from_option w_future 0 (wrappers h !! w).

Definition wrapper_of (h : Heap) (f : fref) : wref :=
  default 0 (futures h !! f ≫= f_wrapper).

(** ** The rest of the module: listings, all players, prices *)

(** [range(a, b)] *)
Definition range (a b : Z) : list Z := seqZ a (b - a).

(** [self.player], which raises when the attribute was never set. *)
Definition get_player (w : wref) : M Player :=
  do o <- get_wrapper w;
  match w_player o with
  | Some p => ret p
  | None => raise (AttributeError "player")
  end.

(** What a consumer has of a generator that it iterates to the end: the
    values yielded, and the exception that ended the iteration if one
    did. [step] computes the next value from the next element. *)
Fixpoint drain {A B} (xs : list A) (step : A -> M B) (h : Heap)
  : list B * option Exn :=
  match xs with
  | [] => ([], None)
  | x :: xs' =>
      match step x h with
      | (inr y, h') => let '(ys, e) := drain xs' step h' in (y :: ys, e)
      | (inl e, _) => ([], Some e)
      end
  end.

Section FutbinRest.

Variable remote : Request -> Outcome.
Variable BeautifulSoup : string -> Markup.

(** The values of JSON, and [response.json()]: [None] when the payload
    does not decode, which raises (a subclass of) ValueError. *)
Variable Json : Type.
Variable json : string -> option Json.

(** *** get_clubs *)

Definition get_clubs_body (sched : Schedule) (start_page end_page : Z)
  : M (list string) :=
  do futures <- for_ (range start_page (end_page + 1))
                  (fun i futures =>
                     do f <- ClubsPageFuture_init i;
                     ret (futures ++ [f])) [];
  _as_completed sched futures
    (fun f result =>
       do clubs <- ClubsPageFuture_result remote BeautifulSoup f;
       ret (result ++ clubs)) [].

(** [get_clubs(start_page=1, end_page=25)]; an omitted argument is
    [None]. *)
Definition get_clubs (sched : Schedule) (start_page end_page : option Z)
  : Exn + list string :=
  run (get_clubs_body sched (default 1%Z start_page) (default 25%Z end_page)).

(** *** get_all_players *)

(** [get_all_players()]; [sched0] is the completion order of the listing
    pages, [sched1] and [sched2] those of the two waves of
    [get_players_for_clubs]. *)
Definition get_all_players (sched0 sched1 sched2 : Schedule)
  : Exn + gmap string (list Player) :=
  match get_clubs sched0 None None with
  | inl e => inl e
  | inr clubs => get_players_for_clubs remote BeautifulSoup sched1 sched2 clubs
  end.

(** *** PlayerPriceFuture.result *)

Definition PlayerPriceFuture_result (self : wref) : M Json :=
  do response <- FutBinFuture_result remote self;
  match json (content response) with
  | Some v => ret v
  | None => raise ValueError
  end.

(** *** get_player_prices *)

(** [_as_completed(futures)] for a consumer that keeps what it was given:
    [use] is what the consumer computes from each wrapper before it asks
    for the next. *)
Definition _as_completed_drain {B} (sched : Schedule) (futures : list wref)
    (use : wref -> M B) (h : Heap) : list B * option Exn :=
  match for_ futures
          (fun f fs => do o <- get_wrapper f; ret (fs ++ [w_future o])) [] h with
  | (inl e, _) => ([], Some e)
  | (inr fs, h') =>
      drain (as_completed sched fs)
        (fun f =>
           do o <- get_future f;
           match f_wrapper o with
           | Some w => use w
           | None => raise (AttributeError "wrapper")
           end) h'
  end.

(** [get_player_prices(players, type=..., year=...)], iterated to the
    end: the pairs it yields and the exception that ends it, if any. The
    body of the generator runs from the first [next]; all requests are
    submitted before the first pair is yielded. [clock i] is what
    [int(time.time())] returns when the request of the [i]-th player is
    built. *)
Definition get_player_prices (sched : Schedule) (players : list Player)
    (type year : option string) (clock : nat -> Z)
  : list (Player * Json) * option Exn :=
  match for_ (imap pair players)
          (fun ip futures =>
             do f <- PlayerPriceFuture_init (snd ip) type year (clock (fst ip));
             ret (futures ++ [f])) [] empty_heap with
  | (inl e, _) => ([], Some e)
  | (inr futures, h) =>
      _as_completed_drain sched futures
        (fun f =>
           do player <- get_player f;
           do prices <- PlayerPriceFuture_result f;
           ret (player, prices)) h
  end.

(** *** Player.__str__ *)

(** [f'{self.name}({self.id})'] *)
Definition Player_str (self : Player) : string :=
  name self +:+ "(" +:+ id self +:+ ")".

(** ** Notions the further statements are written with *)

(** What resolving a wrapper submitted for [req] gives. *)
Definition fetch (req : Request) : Exn + Response :=
  match transport remote req with
  | TransportFailed msg => inl (RequestException msg)
  | Completed r =>
      if negb (status_code r =? 200)%Z
      then inl (FailedRequestException (req_url req)) else inr r
  end.

Definition clubs_url : string := FIFA18_URL +:+ "/clubs".

Definition page_request (page : Z) : Request :=
  mkRequest clubs_url (Some [("page", PInt page)]).

(** The clubs on the listing page [page], or the exception its
    resolution raises. *)
Definition page_clubs (page : Z) : Exn + list string :=
  match fetch (page_request page) with
  | inl e => inl e
  | inr r =>
      match parse BeautifulSoup (content r) with
      | inl e => inl e
      | inr soup => clubs_of_page soup
      end
  end.

Definition price_request (type year : option string) (pid : AttrValue)
    (now : Z) : Request :=
  mkRequest (FUTBIN_URL +:+ "/" +:+ default "18" year +:+ "/playerGraph")
    (Some [("type", PStr (default "today" type));
           ("year", PStr (default "18" year));
           ("player", PVal pid); ("_", PInt now)]).

(** The decoded prices a price-graph request resolves to. *)
Definition price_of (req : Request) : Exn + Json :=
  match fetch req with
  | inl e => inl e
  | inr r => match json (content r) with
             | Some v => inr v
             | None => inl ValueError
             end
  end.

(** The pairs yielded for the players and requests [es], resolved in
    this order. *)
Fixpoint price_stream (es : list (Player * Request))
  : list (Player * Json) * option Exn :=
  match es with
  | [] => ([], None)
  | (p, req) :: es' =>
      match price_of req with
      | inl e => ([], Some e)
      | inr v => let '(ys, e) := price_stream es' in ((p, v) :: ys, e)
      end
  end.

(** The Player of a URL when the URL resolves, and the Player a
    (club, URL) pair adds to the list of [club]. *)
Definition resolved_player (url : string) : option Player :=
  match player_of remote BeautifulSoup url with
  | inr p => Some p
  | inl _ => None
  end.

Definition player_for (club : string) (t : string * string) : option Player :=
  if decide (fst t = club) then resolved_player (snd t) else None.

(** The requests of [get_player_prices], one per player, in the order
    of the players; the first player without a [price_id] raises. *)
Fixpoint price_entries (i : nat) (players : list Player)
    (type year : option string) (clock : nat -> Z)
  : Exn + list (Player * Request) :=
  match players with
  | [] => inr []
  | p :: players' =>
      match PlayerM.price_id p with
      | inl e => inl e
      | inr pid =>
          match price_entries (S i) players' type year clock with
          | inl e => inl e
          | inr es => inr ((p, price_request type year pid (clock i)) :: es)
          end
      end
  end.

End FutbinRest.

Global Instance Player_inhabited : Inhabited Player :=
  populate (mkPlayer "" "" "" None).

Global Instance Request_inhabited : Inhabited Request :=
  populate (mkRequest "" None).

(** The store of a session in which the requests of [ds] were submitted
    one after the other, with the attributes set on each wrapper ([club],
    [page], [player]). *)
Definition store_of
    (ds : list (Request * (option string * option Z * option Player))) : Heap :=
  mkHeap (imap (fun i d => mkFuture (fst d) (Some i)) ds)
         (imap (fun i d => mkWrapper (req_url (fst d)) i
                             (fst (fst (snd d))) (snd (fst (snd d)))
                             (snd (snd d))) ds).

(** The entry a price-graph request leaves in the store. *)
Definition price_entry (e : Player * Request)
  : Request * (option string * option Z * option Player) :=
  (snd e, (None, None, Some (fst e))).

(** ** The shapes of the requests *)

(** The three endpoint shapes the specification lists: the clubs
    listing, a club roster and the price graph. *)
Definition listing_request (req : Request) : Prop :=
  exists page : Z,
    req = mkRequest "https://www.futbin.com/18/clubs"
            (Some [("page", PInt page)]).

Definition roster_request (req : Request) : Prop :=
  exists club : string,
    req = mkRequest ("https://www.futbin.com/18/clubs/" +:+ club) None.

Definition price_graph_request (req : Request) : Prop :=
  exists (type year : string) (pid : AttrValue) (now : Z),
    req = mkRequest ("https://www.futbin.com/" +:+ year +:+ "/playerGraph")
            (Some [("type", PStr type); ("year", PStr year);
                   ("player", PVal pid); ("_", PInt now)]).

Definition fixed_endpoint (req : Request) : Prop :=
  listing_request req \/ roster_request req \/ price_graph_request req.

(** The fourth shape, which the module builds from what it scraped:
    [FUTBIN_URL] followed by the [href] of a link that [href_filter]
    found, without parameters. *)
Definition player_detail_request (req : Request) : Prop :=
  exists href : string,
    req = mkRequest ("https://www.futbin.com" +:+ href) None
    /\ Str.search player_slash_here href = true.

(** Every request of the store is as [P] says. *)
Definition requests_all (P : Request -> Prop) (h : Heap) : Prop :=
  forall fo : FutureObj, fo ∈ futures h -> P (f_request fo).

(** ** Pages and services used as examples *)

Module Example.

Definition document (contents : list Node) : Soup := Tag "[document]" ∅ contents.

(** [<tr class="player_tr_<n>"><td>text</td><td>...</td></tr>] *)
Definition club_row (n : string) (text : string) : Node :=
  Tag "tr" {[ "class" := AList ["player_tr_" +:+ n] ]}
    [Tag "td" ∅ [Tag "a" ∅ [NavigableString text]];
     Tag "td" ∅ [NavigableString "England"]].

(** A listing page whose third row is the sentinel. *)
Definition clubs_page : Soup :=
  document
    [Tag "table" ∅
       [Tag "tr" {[ "class" := AList ["header"] ]}
          [Tag "td" ∅ [NavigableString "Name"]];
        club_row "1" " Arsenal ";
        club_row "2" "Chelsea";
        club_row "3" "No Results";
        club_row "4" "Everton"]].

(** A listing page with no row of the class. *)
Definition empty_page : Soup :=
  document [Tag "p" ∅ [NavigableString "nothing here"]].

(** A listing page with a row of the class that has no cell. *)
Definition cell_less_page : Soup :=
  document [Tag "tr" {[ "class" := AList ["player_tr_1"] ]} []].

Definition link (href : string) : Node :=
  Tag "a" {[ "href" := AStr href ]} [NavigableString "player"].

(** The roster page of Chelsea: two player links and another link. *)
Definition chelsea_page : Soup :=
  document [link "/18/player/1/hazard"; link "/18/clubs";
            link "/18/player/2/kante"].

(** A roster page without player links. *)
Definition no_links_page : Soup := document [link "/18/clubs"].

(** A player page with the [page-info] element. *)
Definition player_page : Soup :=
  document [Tag "div" {[ "id" := AStr "page-info";
                         "data-player-resource" := AStr "158023" ]} []].

(** A player page without it. *)
Definition bare_player_page : Soup := document [Tag "div" ∅ []].

(** The payloads are named after the page they parse to; the marked
    section [<![1>] is markup that [html.parser] rejects. *)
Definition parser (payload : string) : Markup :=
  if String.eqb payload "<![1>"
  then Rejected "expected name token"
  else if String.eqb payload "chelsea" then Accepted chelsea_page
  else if String.eqb payload "no links" then Accepted no_links_page
  else if String.eqb payload "player" then Accepted player_page
  else Accepted bare_player_page.

Definition arsenal_url : string := "https://www.futbin.com/18/clubs/Arsenal".
Definition chelsea_url : string := "https://www.futbin.com/18/clubs/Chelsea".
Definition hazard_url : string := "https://www.futbin.com/18/player/1/hazard".
Definition kante_url : string := "https://www.futbin.com/18/player/2/kante".

(** A service on which the roster of Arsenal is not found. *)
Definition arsenal_missing (req : Request) : Outcome :=
  if String.eqb (req_url req) arsenal_url then Completed (mkResponse 404 "")
  else if String.eqb (req_url req) chelsea_url
       then Completed (mkResponse 200 "chelsea")
       else Completed (mkResponse 200 "player").

(** A service on which the roster of Arsenal is found and lists nobody. *)
Definition arsenal_empty (req : Request) : Outcome :=
  if String.eqb (req_url req) arsenal_url
  then Completed (mkResponse 200 "no links")
  else if String.eqb (req_url req) chelsea_url
       then Completed (mkResponse 200 "chelsea")
       else Completed (mkResponse 200 "player").

(** A service whose player pages lack [page-info]. *)
Definition bare_players (req : Request) : Outcome :=
  Completed (mkResponse 200 "bare").

(** A service whose pages are markup that the parser rejects. *)
Definition rejected_players (req : Request) : Outcome :=
  Completed (mkResponse 200 "<![1>").

Definition hazard : Player :=
  mkPlayer "1" "hazard" hazard_url
    (Some (Tag "div" {[ "id" := AStr "page-info";
                        "data-player-resource" := AStr "158023" ]} [])).

Definition kante : Player :=
  mkPlayer "2" "kante" kante_url
    (Some (Tag "div" {[ "id" := AStr "page-info";
                        "data-player-resource" := AStr "158023" ]} [])).

(** The store after two submissions, one for each roster. *)
Definition two_rosters : Heap :=
  heap_of [(mkRequest arsenal_url None, Some "Arsenal");
           (mkRequest chelsea_url None, Some "Chelsea")].

(** The store after one submission for a player page. *)
Definition one_player : Heap :=
  heap_of [(mkRequest hazard_url None, Some "Chelsea")].

End Example.

(** ** More pages and services used as examples *)

Module MoreExamples.

(** The payloads of listing pages, besides those of [Example.parser]. *)
Definition parser (payload : string) : Markup :=
  if String.eqb payload "listing" then Accepted Example.clubs_page
  else if String.eqb payload "empty listing" then Accepted Example.empty_page
  else Example.parser payload.

(** The [page] a listing request asks for. *)
Definition page_of (req : Request) : option Z :=
  match req_params req with
  | Some [(_, PInt p)] => Some p
  | _ => None
  end.

(** A listing whose first page has clubs and whose other pages have
    none. *)
Definition listing (req : Request) : Outcome :=
  match page_of req with
  | Some 1%Z => Completed (mkResponse 200 "listing")
  | _ => Completed (mkResponse 200 "empty listing")
  end.

(** The same listing, with the second page not found. *)
Definition broken_listing (req : Request) : Outcome :=
  match page_of req with
  | Some 2%Z => Completed (mkResponse 404 "")
  | _ => listing req
  end.

(** The listing together with the rosters and players of
    [Example.arsenal_empty]. *)
Definition site (req : Request) : Outcome :=
  if String.eqb (req_url req) "https://www.futbin.com/18/clubs"
  then listing req else Example.arsenal_empty req.

Definition salah : Player :=
  mkPlayer "3" "salah" "https://www.futbin.com/18/player/3/salah"
    (Some (Tag "div" {[ "id" := AStr "page-info";
                        "data-player-resource" := AStr "209331" ]} [])).

(** A Player built from a page without [page-info]. *)
Definition nobody : Player :=
  mkPlayer "4" "nobody" "https://www.futbin.com/18/player/4/nobody" None.

(** JSON values stand for themselves; the payload [not json] does not
    decode. *)
Definition decode (payload : string) : option string :=
  if String.eqb payload "not json" then None else Some payload.

(** The [player] a price-graph request asks for. *)
Definition player_of_request (req : Request) : option AttrValue :=
  match req_params req with
  | Some [_; _; (_, PVal pid); _] => Some pid
  | _ => None
  end.

(** A roster page whose player link leaves the site. *)
Definition foreign_link_page : Soup :=
  Example.document [Example.link "https://other.example/player/5/z"].

(** A parser and a service for which every page is that roster page. *)
Definition foreign_parser (payload : string) : Markup :=
  Accepted foreign_link_page.

Definition foreign_links (req : Request) : Outcome :=
  Completed (mkResponse 200 "roster").

(** A service that has prices for every player. *)
Definition prices (req : Request) : Outcome :=
  Completed (mkResponse 200 "[[1514764800000, 950000]]").

(** A service that has no prices for the player 209331. *)
Definition broken_prices (req : Request) : Outcome :=
  match player_of_request req with
  | Some (AStr "209331") => Completed (mkResponse 404 "")
  | _ => prices req
  end.

Definition clock (i : nat) : Z := 1514764800 + Z.of_nat i.

End MoreExamples.

(** * Properties *)

(** ** Strings *)

Lemma split_nonempty sep s : Str.split sep s <> [].
Proof.
  destruct s as [|c r]; simpl; [done|].
  destruct (Ascii.eqb c sep); [done|].
  by destruct (Str.split sep r).
Qed.

(** [s.split(sep)] has one piece more than [s] has separators. *)
Lemma split_length sep s : length (Str.split sep s) = S (Str.count sep s).
Proof.
  induction s as [|c r IH]; simpl; [done|].
  destruct (Ascii.eqb c sep); simpl; [by rewrite IH|].
  destruct (Str.split sep r) eqn:E; simpl in *; lia.
Qed.

(** Joining the pieces with the separator gives the string back. *)
Lemma join_split sep s : Str.join (String sep EmptyString) (Str.split sep s) = s.
Proof.
  induction s as [|c r IH]; simpl; [done|].
  destruct (Ascii.eqb_spec c sep) as [->|Hne].
  - pose proof (split_nonempty sep r) as Hn.
    destruct (Str.split sep r) as [|h t] eqn:E; [done|].
    change (Str.join (String sep "") (EmptyString :: h :: t))
      with (String sep (Str.join (String sep "") (h :: t))).
    by rewrite IH.
  - pose proof (split_nonempty sep r) as Hn.
    destruct (Str.split sep r) as [|h t] eqn:E; [done|].
    destruct t as [|h' t']; simpl in *; by rewrite <- IH.
Qed.

(** No piece contains the separator. *)
Lemma split_pieces sep s :
  Forall (fun piece => Str.count sep piece = 0) (Str.split sep s).
Proof.
  induction s as [|c r IH]; simpl; [by repeat constructor|].
  destruct (Ascii.eqb c sep) eqn:Ec; [by constructor|].
  destruct (Str.split sep r) as [|h t]; [by constructor; simpl; rewrite ?Ec|].
  inversion IH; subst. constructor; [|done]. simpl. by rewrite Ec.
Qed.

Lemma last_two_lookup {A} `{Inhabited A} (l : list A) :
  2 <= length l ->
  Str.last_two l = [l !!! (length l - 2); l !!! (length l - 1)].
Proof.
  intros Hl. unfold Str.last_two.
  assert (Hlen : length (drop (length l - 2) l) = 2) by (rewrite length_drop; lia).
  pose proof (lookup_drop l (length l - 2) 0) as H0.
  pose proof (lookup_drop l (length l - 2) 1) as H1.
  destruct (drop (length l - 2) l) as [|x [|y [|z t]]]; simplify_eq/=.
  replace (length l - 2 + 0) with (length l - 2) in H0 by lia.
  replace (length l - 2 + 1) with (length l - 1) in H1 by lia.
  symmetry in H0, H1.
  by rewrite (list_lookup_total_correct _ _ _ H0),
             (list_lookup_total_correct _ _ _ H1).
Qed.

Lemma lower_char_slash c : Str.lower_char c = "/"%char -> c = "/"%char.
Proof.
  destruct c as [[] [] [] [] [] [] [] []]; vm_compute; congruence.
Qed.

(** A prefix that survives lower-casing puts its ['/'] into the string. *)
Lemma startswith_lower_count p u :
  Str.startswith p (Str.lower u) = true ->
  Str.count "/" p <= Str.count "/" u.
Proof.
  revert u; induction p as [|a p IH]; intros u; simpl; [lia|].
  destruct u as [|b u]; simpl; [done|].
  intros [Hab Hp]%andb_prop. apply IH in Hp.
  destruct (Ascii.eqb_spec a "/") as [->|Ha]; [|lia].
  apply Ascii.eqb_eq in Hab. symmetry in Hab. apply lower_char_slash in Hab.
  subst b. simpl. lia.
Qed.

Lemma count_lstrip c s : Str.count c (Str.lstrip s) <= Str.count c s.
Proof.
  induction s as [|a s IH]; simpl; [done|].
  destruct (Str.is_space a); simpl; lia.
Qed.

(** Every URL the transport serves splits into three pieces or more. *)
Lemma mounted_split u : mounted u = true -> 3 <= length (Str.split "/" u).
Proof.
  unfold mounted. rewrite split_length.
  pose proof (count_lstrip "/" u) as Hc.
  intros [H|H]%orb_prop; apply startswith_lower_count in H; simpl in H; lia.
Qed.

Lemma count_app c s t : Str.count c (s +:+ t) = Str.count c s + Str.count c t.
Proof. induction s as [|a s IH]; simpl; [done|]. rewrite IH. lia. Qed.

(** ** Player *)

Lemma from_url_unpacks (u : string) (d : option Node) :
  2 <= length (Str.split "/" u) ->
  PlayerM.from_url u d =
    inr {| id := Str.split "/" u !!! (length (Str.split "/" u) - 2);
           name := Str.split "/" u !!! (length (Str.split "/" u) - 1);
           url := u;
           data := d |}.
Proof.
  intros Hl. unfold PlayerM.from_url. by rewrite (last_two_lookup _ Hl).
Qed.

(** C5. For every URL that splits at ['/'] into two segments or more,
    [Player.from_url] returns a Player whose id is the second-to-last
    segment, whose name is the last one and whose url is the URL itself;
    the segments are the pieces of the URL between its ['/']. *)
Theorem from_url_last_two_segments (u : string) (d : option Node) :
  2 <= length (Str.split "/" u) ->
  PlayerM.from_url u d =
    inr {| id := Str.split "/" u !!! (length (Str.split "/" u) - 2);
           name := Str.split "/" u !!! (length (Str.split "/" u) - 1);
           url := u;
           data := d |}
  /\ Str.join "/" (Str.split "/" u) = u
  /\ Forall (fun piece => Str.count "/" piece = 0) (Str.split "/" u).
Proof.
  intros Hl. split; [by apply from_url_unpacks|].
  split; [apply join_split | apply split_pieces].
Qed.

Lemma from_url_last_two_segments_messi :
  2 <= length (Str.split "/" "https://host/18/players/158023/l-messi")
  /\ PlayerM.from_url "https://host/18/players/158023/l-messi" None =
       inr (mkPlayer "158023" "l-messi"
              "https://host/18/players/158023/l-messi" None).
Proof.
  split; [vm_compute; lia|].
  rewrite (proj1 (from_url_last_two_segments
                    "https://host/18/players/158023/l-messi" None
                    ltac:(vm_compute; lia))).
  reflexivity.
Defined.

(** Without a ['/'] there is nothing to unpack into [id, name]. *)
Lemma from_url_one_segment u d :
  Str.count "/" u = 0 -> PlayerM.from_url u d = inl ValueError.
Proof.
  intros Hc. unfold PlayerM.from_url, Str.last_two.
  pose proof (split_length "/" u) as Hl. rewrite Hc in Hl.
  destruct (Str.split "/" u) as [|x [|y t]]; simplify_eq/=. done.
Qed.

(** C7. [price_id] returns the value stored under [data-player-resource]
    unchanged when the key is there, raises KeyError when the attributes
    lack it, and has no other way to return a value. *)
Theorem price_id_reads_the_key (p : Player) :
  (forall nm attrs cs v,
      data p = Some (Tag nm attrs cs) ->
      attrs !! "data-player-resource" = Some v ->
      PlayerM.price_id p = inr v)
  /\ (forall nm attrs cs,
      data p = Some (Tag nm attrs cs) ->
      attrs !! "data-player-resource" = None ->
      PlayerM.price_id p = inl (KeyError "data-player-resource"))
  /\ (forall v,
      PlayerM.price_id p = inr v ->
      exists nm attrs cs,
        data p = Some (Tag nm attrs cs)
        /\ attrs !! "data-player-resource" = Some v).
Proof.
  unfold PlayerM.price_id. repeat split.
  - intros nm attrs cs v -> Hv. by rewrite Hv.
  - intros nm attrs cs -> Hv. by rewrite Hv.
  - intros v. destruct (data p) as [[nm attrs cs|s]|]; try done.
    destruct (attrs !! "data-player-resource") as [v'|] eqn:E; [|done].
    intros [= ->]. by exists nm, attrs, cs.
Qed.

Lemma price_id_reads_the_key_158023 :
  PlayerM.price_id
    (mkPlayer "158023" "l-messi" "u"
       (Some (Tag "div" {[ "data-player-resource" := AStr "158023" ]} [])))
  = inr (AStr "158023")
  /\ PlayerM.price_id (mkPlayer "158023" "l-messi" "u" (Some (Tag "div" ∅ [])))
     = inl (KeyError "data-player-resource").
Proof.
  split.
  - apply (proj1 (price_id_reads_the_key _) "div"
             {[ "data-player-resource" := AStr "158023" ]} []);
      reflexivity.
  - apply (proj1 (proj2 (price_id_reads_the_key _)) "div" ∅ []); reflexivity.
Defined.

(** ** FutBinSession *)

(** C10. A session built without [max_workers] has a pool of width
    [DEFAULT_WORKERS], which is 4, and a session built with a width [w],
    a positive number, has a pool of width [w]. *)
Theorem max_workers_default_and_override :
  FutBinSession None = inr (mkSession 4)
  /\ DEFAULT_WORKERS = 4%Z
  /\ forall w : Z, (1 <= w)%Z -> FutBinSession (Some w) = inr (mkSession w).
Proof.
  split; [reflexivity|]. split; [reflexivity|]. intros w Hw.
  unfold FutBinSession, py_or, ThreadPoolExecutor.
  destruct (Z.eqb_spec w 0) as [->|_]; [lia|].
  destruct (Z.leb_spec w 0); [lia|reflexivity].
Qed.

Lemma max_workers_default_and_override_8 :
  (1 <= 8)%Z /\ FutBinSession (Some 8%Z) = inr (mkSession 8).
Proof.
  split; [lia|].
  apply (proj2 (proj2 max_workers_default_and_override) 8%Z). lia.
Defined.

(** ** Clubs-page extraction *)

Lemma clubs_rows_prefix (pre rest : list Node) (names acc : list string) :
  first_cell <$> pre = Some <$> names ->
  "No Results" ∉ names ->
  clubs_rows (pre ++ rest) acc = clubs_rows rest (acc ++ names).
Proof.
  revert names acc. induction pre as [|row pre IH]; intros names acc Hc Hn.
  - destruct names; [|done]. by rewrite app_nil_r.
  - destruct names as [|nm names]; [done|]. simpl in Hc.
    injection Hc as Hrow Hpre. unfold first_cell in Hrow. simpl.
    destruct (Bs4.find (Bs4.name_is "td") row) as [td|]; [|done].
    simpl in Hrow. injection Hrow as Hrow. rewrite Hrow.
    apply not_elem_of_cons in Hn as [Hne Hn].
    destruct (String.eqb_spec nm "No Results") as [->|_]; [done|].
    rewrite (IH names (acc ++ [nm]) Hpre Hn). by rewrite <- app_assoc.
Qed.

Lemma clubs_rows_sentinel (row : Node) (rest : list Node) (acc : list string) :
  first_cell row = Some "No Results" ->
  clubs_rows (row :: rest) acc = inr acc.
Proof.
  unfold first_cell. simpl.
  destruct (Bs4.find (Bs4.name_is "td") row) as [td|]; [|done].
  simpl. by intros [= ->].
Qed.

(** A row without a cell, met before any sentinel, makes the loop raise. *)
Lemma clubs_rows_cell_less (row : Node) (rest : list Node) (acc : list string) :
  first_cell row = None ->
  clubs_rows (row :: rest) acc = inl (AttributeError "text").
Proof.
  unfold first_cell. simpl.
  by destruct (Bs4.find (Bs4.name_is "td") row).
Qed.

(** C4, as the specification states it, fails: on a page with a row of
    the class that has no cell the extraction does not return. *)
Lemma clubs_page_row_without_cell :
  ~ (exists names, clubs_of_page Example.cell_less_page = inr names).
Proof. intros [names H]. vm_compute in H. discriminate. Qed.

(** C4, amended. Let the rows of the class [player_tr_<digits>] be, in
    document order, [pre] followed by [rest], where every row of [pre] has
    a cell and none of their trimmed first-cell texts is ["No Results"].
    If [rest] is empty or starts with a row whose trimmed first-cell text
    is ["No Results"], the extraction returns the trimmed first-cell
    texts of the rows of [pre], in that order. If [rest] starts with a
    row without a cell, the extraction raises. *)
Theorem clubs_of_page_until_sentinel
    (soup : Soup) (pre rest : list Node) (names : list string) :
  Bs4.find_all clubs_filter soup = pre ++ rest ->
  first_cell <$> pre = Some <$> names ->
  "No Results" ∉ names ->
  (rest = [] \/ head rest ≫= first_cell = Some "No Results" ->
   clubs_of_page soup = inr names)
  /\ (first_cell <$> head rest = Some None ->
      clubs_of_page soup = inl (AttributeError "text")).
Proof.
  intros Hrows Hpre Hn. unfold clubs_of_page.
  rewrite Hrows, (clubs_rows_prefix pre rest names [] Hpre Hn). simpl.
  split.
  - intros [->|Hs]; [done|].
    destruct rest as [|row rest']; [done|]. simpl in Hs.
    by apply clubs_rows_sentinel.
  - destruct rest as [|row rest']; [done|]. simpl. intros [= Hrow].
    by apply clubs_rows_cell_less.
Qed.

Lemma clubs_of_page_until_sentinel_examples :
  clubs_of_page Example.clubs_page = inr ["Arsenal"; "Chelsea"]
  /\ clubs_of_page Example.empty_page = inr []
  /\ clubs_of_page Example.cell_less_page = inl (AttributeError "text").
Proof.
  split; [|split].
  - apply (proj1 (clubs_of_page_until_sentinel Example.clubs_page
             [Example.club_row "1" " Arsenal "; Example.club_row "2" "Chelsea"]
             [Example.club_row "3" "No Results"; Example.club_row "4" "Everton"]
             ["Arsenal"; "Chelsea"] eq_refl eq_refl
             ltac:(intros H;
                   repeat (apply elem_of_cons in H as [H|H]; [discriminate|]);
                   by apply elem_of_nil in H))).
    right. reflexivity.
  - apply (proj1 (clubs_of_page_until_sentinel Example.empty_page [] [] []
                    eq_refl eq_refl ltac:(apply not_elem_of_nil))).
    by left.
  - apply (proj2 (clubs_of_page_until_sentinel Example.cell_less_page []
                    [Tag "tr" {[ "class" := AList ["player_tr_1"] ]} []] []
                    eq_refl eq_refl ltac:(apply not_elem_of_nil))).
    reflexivity.
Defined.

(** ** The store *)

Lemma alter_snoc {A} (f : A -> A) (l : list A) (x : A) :
  alter f (length l) (l ++ [x]) = l ++ [f x].
Proof.
  replace (length l) with (length l + 0) by lia. by rewrite alter_app_r.
Qed.

Section Properties.

Variable remote : Request -> Outcome.
Variable BeautifulSoup : string -> Markup.

(** What [FutBinFuture.__init__] leaves in the store: one new future,
    submitted for [url] and [params] and pointing back at the new
    wrapper, and the new wrapper, holding [url] and the future. *)
Lemma FutBinFuture_init_eq url params h :
  FutBinFuture_init url params h =
    (inr (length (wrappers h)),
     mkHeap (futures h ++ [mkFuture (mkRequest url params)
                                    (Some (length (wrappers h)))])
            (wrappers h ++ [mkWrapper url (length (futures h)) None None None])).
Proof.
  unfold FutBinFuture_init, bind, session_get, new_wrapper, set_wrapper, ret.
  simpl. by rewrite alter_snoc.
Qed.

Lemma ClubsPageFuture_init_eq page h :
  ClubsPageFuture_init page h =
    (inr (length (wrappers h)),
     mkHeap (futures h ++ [mkFuture (mkRequest (FIFA18_URL +:+ "/clubs")
                                       (Some [("page", PInt page)]))
                                    (Some (length (wrappers h)))])
            (wrappers h ++ [mkWrapper (FIFA18_URL +:+ "/clubs")
                              (length (futures h)) None (Some page) None])).
Proof.
  unfold ClubsPageFuture_init, bind. rewrite FutBinFuture_init_eq.
  unfold set_page, ret. simpl. by rewrite alter_snoc.
Qed.

Lemma ClubPlayersFuture_init_eq club h :
  ClubPlayersFuture_init club h =
    (inr (length (wrappers h)),
     mkHeap (futures h ++ [mkFuture (mkRequest (roster_url club) None)
                                    (Some (length (wrappers h)))])
            (wrappers h ++ [mkWrapper (roster_url club)
                              (length (futures h)) (Some club) None None])).
Proof.
  unfold ClubPlayersFuture_init, bind. rewrite FutBinFuture_init_eq.
  unfold set_club, ret. simpl. by rewrite alter_snoc.
Qed.

(** Each of the three constructors submits exactly one request, with
    the URL and the parameters of its endpoint. *)
Lemma constructors_submit_one_request (h : Heap) :
  (forall page : Z,
      futures (snd (ClubsPageFuture_init page h)) =
        futures h ++
        [mkFuture (mkRequest "https://www.futbin.com/18/clubs"
                     (Some [("page", PInt page)]))
                  (Some (length (wrappers h)))])
  /\ (forall club : string,
      futures (snd (ClubPlayersFuture_init club h)) =
        futures h ++
        [mkFuture (mkRequest ("https://www.futbin.com/18/clubs/" +:+ club) None)
                  (Some (length (wrappers h)))])
  /\ (forall (player : Player) (type year : option string) (clock : Z)
             (pid : AttrValue),
      PlayerM.price_id player = inr pid ->
      futures (snd (PlayerPriceFuture_init player type year clock h)) =
        futures h ++
        [mkFuture
           (mkRequest
              ("https://www.futbin.com/" +:+ default "18" year +:+ "/playerGraph")
              (Some [("type", PStr (default "today" type));
                     ("year", PStr (default "18" year));
                     ("player", PVal pid);
                     ("_", PInt clock)]))
           (Some (length (wrappers h)))]).
Proof.
  repeat split.
  - intros page. by rewrite ClubsPageFuture_init_eq.
  - intros club. by rewrite ClubPlayersFuture_init_eq.
  - intros player type year clock pid Hpid.
    unfold PlayerPriceFuture_init, bind, lift. rewrite Hpid.
    unfold ret at 1. cbv beta iota.
    by rewrite FutBinFuture_init_eq.
Qed.

(** Without a [price_id] no price-graph request is submitted. *)
Lemma PlayerPriceFuture_init_raises player type year clock e h :
  PlayerM.price_id player = inl e ->
  PlayerPriceFuture_init player type year clock h = (inl e, h).
Proof.
  intros He. unfold PlayerPriceFuture_init, bind. by rewrite He.
Qed.

(** *** Resolving one wrapper *)

Lemma FutBinFuture_result_eq self o fo h :
  wrappers h !! self = Some o ->
  futures h !! w_future o = Some fo ->
  FutBinFuture_result remote self h =
    (match transport remote (f_request fo) with
     | Completed r =>
         if negb (status_code r =? 200)%Z
         then inl (FailedRequestException (w_url o)) else inr r
     | TransportFailed msg => inl (RequestException msg)
     end, h).
Proof.
  intros Hw Hf.
  unfold FutBinFuture_result, Future_result, bind, get_wrapper, get_future.
  rewrite Hw, Hf.
  destruct (transport remote (f_request fo)) as [r|msg]; simpl; [|done].
  by destruct (negb (status_code r =? 200)%Z).
Qed.

(** C3. Let the future of a wrapper have completed with a response.
    [result()] raises [FailedRequestException] with the URL of the
    wrapper exactly when the status is not 200, and returns the response
    when it is 200. Whatever it did, a sibling whose response has status
    200 resolves to that response afterwards. *)
Theorem FutBinFuture_result_checks_the_status
    (h : Heap) (self : wref) (o : WrapperObj) (fo : FutureObj) (r : Response) :
  wrappers h !! self = Some o ->
  futures h !! w_future o = Some fo ->
  transport remote (f_request fo) = Completed r ->
  (fst (FutBinFuture_result remote self h)
     = inl (FailedRequestException (w_url o))
   <-> status_code r <> 200%Z)
  /\ (status_code r = 200%Z ->
      FutBinFuture_result remote self h = (inr r, h))
  /\ (forall (sibling : wref) (o' : WrapperObj) (fo' : FutureObj)
             (r' : Response),
      wrappers h !! sibling = Some o' ->
      futures h !! w_future o' = Some fo' ->
      transport remote (f_request fo') = Completed r' ->
      status_code r' = 200%Z ->
      let h' := snd (FutBinFuture_result remote self h) in
      FutBinFuture_result remote sibling h' = (inr r', h')).
Proof.
  intros Hw Hf Hr.
  rewrite (FutBinFuture_result_eq self o fo h Hw Hf), Hr. simpl.
  repeat split.
  - destruct (Z.eqb_spec (status_code r) 200); simpl; [done|by intros _].
  - destruct (Z.eqb_spec (status_code r) 200); simpl; [done|by intros _].
  - by intros ->.
  - intros sibling o' fo' r' Hw' Hf' Hr' Hs.
    rewrite (FutBinFuture_result_eq sibling o' fo' h Hw' Hf'), Hr', Hs. done.
Qed.

(** *** Resolving a player page *)

Lemma transport_completed_mounted req r :
  transport remote req = Completed r -> mounted (req_url req) = true.
Proof. unfold transport. by destruct (mounted (req_url req)). Qed.

Lemma PlayerDataFuture_result_eq self o fo h :
  wrappers h !! self = Some o ->
  futures h !! w_future o = Some fo ->
  PlayerDataFuture_result remote BeautifulSoup self h =
    (match transport remote (f_request fo) with
     | Completed r =>
         if negb (status_code r =? 200)%Z
         then inl (FailedRequestException (w_url o))
         else match parse BeautifulSoup (content r) with
              | inl e => inl e
              | inr soup => PlayerM.from_url (w_url o) (page_info soup)
              end
     | TransportFailed msg => inl (RequestException msg)
     end, h).
Proof.
  intros Hw Hf. unfold PlayerDataFuture_result, ParsedFuture_result, bind.
  rewrite (FutBinFuture_result_eq self o fo h Hw Hf).
  destruct (transport remote (f_request fo)) as [r|msg]; [|done].
  destruct (negb (status_code r =? 200)%Z); [done|].
  destruct (parse BeautifulSoup (content r)) as [e|soup]; [done|].
  unfold lift, ret, get_wrapper. rewrite Hw.
  by destruct (PlayerM.from_url _ _).
Qed.

(** C6, amended. Let a player-detail wrapper hold the URL its future was
    submitted for, and let the fetch have completed with status 200. If
    the parser accepts the payload, [result()] returns a Player, built
    from that URL and from what [find('div', id='page-info')] found; when
    it found nothing, the Player is returned all the same and its
    [price_id] raises. If the parser rejects the payload, its exception
    leaves [result()]. And [result()] raises [FailedRequestException]
    only when the fetch completed with another status than 200. *)
Theorem PlayerDataFuture_result_defers_missing_page_info
    (h : Heap) (self : wref) (o : WrapperObj) (fo : FutureObj) :
  wrappers h !! self = Some o ->
  futures h !! w_future o = Some fo ->
  req_url (f_request fo) = w_url o ->
  (forall (r : Response) (soup : Soup),
      transport remote (f_request fo) = Completed r ->
      status_code r = 200%Z ->
      BeautifulSoup (content r) = Accepted soup ->
      exists p : Player,
        PlayerDataFuture_result remote BeautifulSoup self h = (inr p, h)
        /\ url p = w_url o
        /\ data p = page_info soup
        /\ (page_info soup = None -> PlayerM.price_id p = inl TypeError))
  /\ (forall (r : Response) (msg : string),
      transport remote (f_request fo) = Completed r ->
      status_code r = 200%Z ->
      BeautifulSoup (content r) = Rejected msg ->
      PlayerDataFuture_result remote BeautifulSoup self h
        = (inl (ParserRejectedMarkup msg), h))
  /\ (forall u : string,
      fst (PlayerDataFuture_result remote BeautifulSoup self h)
        = inl (FailedRequestException u) ->
      u = w_url o
      /\ exists r : Response,
          transport remote (f_request fo) = Completed r
          /\ status_code r <> 200%Z).
Proof.
  intros Hw Hf Hu.
  rewrite (PlayerDataFuture_result_eq self o fo h Hw Hf). split; [|split].
  - intros r soup Hr Hs Hsoup. rewrite Hr, Hs. unfold parse. rewrite Hsoup.
    simpl.
    apply transport_completed_mounted in Hr. rewrite Hu in Hr.
    apply mounted_split in Hr.
    rewrite from_url_unpacks by lia.
    eexists. split; [reflexivity|]. repeat split.
    intros Hnone. unfold PlayerM.price_id. simpl. by rewrite Hnone.
  - intros r msg Hr Hs Hmsg. rewrite Hr, Hs. unfold parse. by rewrite Hmsg.
  - intros u. simpl.
    destruct (transport remote (f_request fo)) as [r|msg] eqn:Hr; [|done].
    destruct (Z.eqb_spec (status_code r) 200) as [Hs|Hs]; simpl.
    + unfold parse. destruct (BeautifulSoup (content r)) as [soup|msg]; [|done].
      unfold PlayerM.from_url.
      by destruct (Str.last_two _) as [|? [|? [|]]].
    + intros [= <-]. split; [done|]. by exists r.
Qed.

End Properties.

(** ** Completion order *)

(** Whatever the transport chooses, the futures complete in an order that
    is a permutation of the pending ones. *)
Lemma complete_Permutation {A} (sched : Schedule) (pending : list A) :
  complete sched pending ≡ₚ pending.
Proof.
  revert pending. induction sched as [|i sched IH]; intros pending; simpl.
  - done.
  - destruct (pending !! (i mod length pending)) as [x|] eqn:E.
    + rewrite IH. symmetry. by apply delete_Permutation.
    + destruct pending as [|y pending]; [done|].
      apply lookup_ge_None in E. simpl in E.
      pose proof (Nat.mod_upper_bound i (S (length pending))). lia.
Qed.

(** And every permutation of the pending futures is the order of some
    schedule: no completion order is left out. *)
Lemma complete_any_order {A} (order pending : list A) :
  order ≡ₚ pending -> exists sched, complete sched pending = order.
Proof.
  revert pending. induction order as [|x order IH]; intros pending Hp.
  - apply Permutation_nil_l in Hp as <-. by exists [].
  - assert (x ∈ pending) as Hin by (rewrite <- Hp; left).
    apply list_elem_of_lookup_1 in Hin as [i Hi].
    assert (order ≡ₚ delete i pending) as Hd.
    { apply (Permutation_cons_inv (a := x)).
      by rewrite Hp, <- (delete_Permutation pending i x). }
    destruct (IH _ Hd) as [sched Hs].
    exists (i :: sched). simpl.
    rewrite Nat.mod_small by (by eapply lookup_lt_Some).
    by rewrite Hi, Hs.
Qed.

Lemma remove_dups_NoDup {A} `{EqDecision A} (l : list A) :
  NoDup l -> remove_dups l = l.
Proof.
  induction 1 as [|x l Hx Hl IH]; simpl; [done|].
  destruct (decide_rel elem_of x l); [done|]. by rewrite IH.
Qed.

Lemma as_completed_Permutation (sched : Schedule) (fs : list fref) :
  NoDup fs -> as_completed sched fs ≡ₚ fs.
Proof.
  intros Hn. unfold as_completed.
  by rewrite complete_Permutation, remove_dups_NoDup.
Qed.

(** ** Loops *)

Lemma for__app {A S} (xs ys : list A) (body : A -> S -> M S) (acc : S) h :
  for_ (xs ++ ys) body acc h =
    match for_ xs body acc h with
    | (inr acc', h') => for_ ys body acc' h'
    | (inl e, h') => (inl e, h')
    end.
Proof.
  revert acc h. induction xs as [|x xs IH]; intros acc h; simpl; [done|].
  unfold bind. destruct (body x acc h) as [[e|acc'] h']; [done|]. apply IH.
Qed.

Lemma for__cons {A S} (x : A) (xs : list A) (body : A -> S -> M S) (acc : S) h :
  for_ (x :: xs) body acc h =
    match body x acc h with
    | (inr acc', h') => for_ xs body acc' h'
    | (inl e, h') => (inl e, h')
    end.
Proof. reflexivity. Qed.

Lemma bind_ret {A B} (x : A) (k : A -> M B) h : bind (ret x) k h = k x h.
Proof. reflexivity. Qed.

Lemma bind_raise {A B} (e : Exn) (k : A -> M B) h :
  bind (raise e) k h = (inl e, h).
Proof. reflexivity. Qed.

(** A loop whose body only reads the store and appends [g x] to the
    accumulator. *)
Lemma for__collect {A B} (xs : list A) (body : A -> list B -> M (list B))
    (g : A -> B) (acc : list B) (h : Heap) :
  (forall x acc, x ∈ xs -> body x acc h = (inr (acc ++ [g x]), h)) ->
  for_ xs body acc h = (inr (acc ++ (g <$> xs)), h).
Proof.
  revert acc. induction xs as [|x xs IH]; intros acc Hb; simpl.
  - by rewrite app_nil_r.
  - unfold bind. rewrite Hb by left.
    rewrite IH by (intros; apply Hb; by right).
    by rewrite <- app_assoc.
Qed.

(** ** The back reference *)

Lemma wf_lookup (h : Heap) (w : wref) (o : WrapperObj) :
  wf h = true ->
  wrappers h !! w = Some o ->
  exists fo, futures h !! w_future o = Some fo
             /\ f_wrapper fo = Some w
             /\ req_url (f_request fo) = w_url o.
Proof.
  unfold wf. rewrite forallb_forall. intros Hwf Hw.
  specialize (Hwf (wf_wrapper h w o)).
  assert (wf_wrapper h w o = true) as Hb.
  { apply Hwf. apply list_elem_of_In, list_elem_of_lookup. exists w.
    by rewrite list_lookup_imap, Hw. }
  unfold wf_wrapper in Hb.
  destruct (futures h !! w_future o) as [fo|]; [|done].
  apply andb_prop in Hb as [Hb1 Hb2]. exists fo.
  apply bool_decide_eq_true in Hb1. apply String.eqb_eq in Hb2. done.
Qed.

Lemma wrapper_of_future_of (h : Heap) (w : wref) :
  wf h = true -> w < length (wrappers h) ->
  wrapper_of h (future_of h w) = w.
Proof.
  intros Hwf [o Hw]%lookup_lt_is_Some_2.
  destruct (wf_lookup h w o Hwf Hw) as (fo & Hf & Hb & _).
  unfold wrapper_of, future_of. rewrite Hw. simpl. rewrite Hf. simpl.
  by rewrite Hb.
Qed.

(** What [list(_as_completed(ws))] evaluates to in a well-formed store. *)
Lemma as_completed_list_eq (h : Heap) (ws : list wref) (sched : Schedule) :
  wf h = true ->
  (forall w, w ∈ ws -> w < length (wrappers h)) ->
  _as_completed_list sched ws h =
    (inr (wrapper_of h <$> as_completed sched (future_of h <$> ws)), h).
Proof.
  intros Hwf Hws. unfold _as_completed_list, _as_completed, bind.
  rewrite (for__collect ws _ (future_of h) [] h).
  2:{ intros w acc Hin. destruct (lookup_lt_is_Some_2 _ _ (Hws w Hin)) as [o Hw].
      unfold bind, get_wrapper, future_of. by rewrite Hw. }
  simpl. rewrite (for__collect _ _ (wrapper_of h) [] h); [done|].
  intros f acc Hin. unfold as_completed in Hin.
  rewrite complete_Permutation, elem_of_remove_dups in Hin.
  apply list_elem_of_fmap in Hin as (w & -> & Hin).
  destruct (lookup_lt_is_Some_2 _ _ (Hws w Hin)) as [o Hw].
  destruct (wf_lookup h w o Hwf Hw) as (fo & Hf & Hb & _).
  unfold bind, get_future, wrapper_of, future_of. rewrite Hw. simpl.
  rewrite Hf. simpl. by rewrite Hb.
Qed.

Lemma future_of_NoDup (h : Heap) (ws : list wref) :
  wf h = true ->
  (forall w, w ∈ ws -> w < length (wrappers h)) ->
  NoDup ws -> NoDup (future_of h <$> ws).
Proof.
  intros Hwf Hws Hn. apply NoDup_fmap_2_strong; [|done].
  intros w1 w2 H1 H2 Heq.
  assert (wrapper_of h (future_of h w1) = wrapper_of h (future_of h w2))
    as Hw by (by rewrite Heq).
  by rewrite !wrapper_of_future_of in Hw by auto.
Qed.

Lemma wrapper_of_future_of_list (h : Heap) (ws : list wref) :
  wf h = true ->
  (forall w, w ∈ ws -> w < length (wrappers h)) ->
  wrapper_of h <$> (future_of h <$> ws) = ws.
Proof.
  intros Hwf Hws. rewrite <- list_fmap_compose.
  rewrite <- (list_fmap_id ws) at 2. apply list_fmap_ext.
  intros i w Hi. simpl. apply wrapper_of_future_of; [done|].
  apply Hws. by eapply list_elem_of_lookup_2.
Qed.

(** C2. In a well-formed store, for wrappers that are pairwise distinct,
    [_as_completed] yields, whatever the completion order, a permutation
    of the wrappers: as many as were given, none twice, none left out.
    And every order of the wrappers is the one some completion order
    yields. *)
Theorem as_completed_yields_each_wrapper_once (h : Heap) (ws : list wref) :
  wf h = true ->
  (forall w, w ∈ ws -> w < length (wrappers h)) ->
  NoDup ws ->
  (forall sched : Schedule,
      exists ys : list wref,
        _as_completed_list sched ws h = (inr ys, h)
        /\ ys ≡ₚ ws /\ NoDup ys /\ length ys = length ws)
  /\ (forall order : list wref,
      order ≡ₚ ws ->
      exists sched : Schedule, _as_completed_list sched ws h = (inr order, h)).
Proof.
  intros Hwf Hws Hn.
  pose proof (future_of_NoDup h ws Hwf Hws Hn) as Hnf.
  split.
  - intros sched. eexists. split; [by apply as_completed_list_eq|].
    assert (wrapper_of h <$> as_completed sched (future_of h <$> ws) ≡ₚ ws)
      as Hp.
    { rewrite (as_completed_Permutation sched _ Hnf).
      by rewrite wrapper_of_future_of_list. }
    split; [done|]. split; [by rewrite Hp|by rewrite Hp].
  - intros order Hp.
    assert (forall w, w ∈ order -> w < length (wrappers h)) as Hord.
    { intros w Hw. apply Hws. by rewrite <- Hp. }
    destruct (complete_any_order (future_of h <$> order) (future_of h <$> ws))
      as [sched Hs]; [by rewrite Hp|].
    exists sched. rewrite as_completed_list_eq by done.
    unfold as_completed. rewrite remove_dups_NoDup by done.
    by rewrite Hs, wrapper_of_future_of_list.
Qed.

(** ** The store of a fresh session *)

Lemma heap_of_snoc ds d :
  heap_of (ds ++ [d]) =
    mkHeap (futures (heap_of ds) ++ [mkFuture (fst d) (Some (length ds))])
           (wrappers (heap_of ds)
              ++ [mkWrapper (req_url (fst d)) (length ds) (snd d) None None]).
Proof.
  unfold heap_of. rewrite !imap_app. simpl.
  by replace (length ds + 0) with (length ds) by lia.
Qed.

Lemma heap_of_futures_length ds : length (futures (heap_of ds)) = length ds.
Proof. apply length_imap. Qed.

Lemma heap_of_wrappers_length ds : length (wrappers (heap_of ds)) = length ds.
Proof. apply length_imap. Qed.

Lemma heap_of_wrapper ds w d :
  ds !! w = Some d ->
  wrappers (heap_of ds) !! w
    = Some (mkWrapper (req_url (fst d)) w (snd d) None None).
Proof. intros Hd. unfold heap_of. simpl. by rewrite list_lookup_imap, Hd. Qed.

Lemma heap_of_future ds f d :
  ds !! f = Some d ->
  futures (heap_of ds) !! f = Some (mkFuture (fst d) (Some f)).
Proof. intros Hd. unfold heap_of. simpl. by rewrite list_lookup_imap, Hd. Qed.

(** Such a store is well formed. *)
Lemma heap_of_wf ds : wf (heap_of ds) = true.
Proof.
  unfold wf. apply forallb_forall. intros b Hb.
  apply list_elem_of_In, list_elem_of_lookup in Hb as [w Hb].
  rewrite list_lookup_imap in Hb.
  destruct (wrappers (heap_of ds) !! w) as [o|] eqn:Hw; [|done].
  simpl in Hb. injection Hb as <-.
  assert (is_Some (ds !! w)) as [d Hd].
  { apply lookup_lt_is_Some. rewrite <- (heap_of_wrappers_length ds).
    by eapply lookup_lt_Some. }
  rewrite (heap_of_wrapper ds w d Hd) in Hw. injection Hw as <-.
  unfold wf_wrapper. cbn [w_future w_url].
  rewrite (heap_of_future ds w d Hd). cbn [f_wrapper f_request].
  rewrite bool_decide_eq_true_2 by done. simpl. apply String.eqb_refl.
Qed.

Lemma ClubPlayersFuture_init_heap_of club ds :
  ClubPlayersFuture_init club (heap_of ds) =
    (inr (length ds), heap_of (ds ++ [club_entry club])).
Proof.
  rewrite ClubPlayersFuture_init_eq, heap_of_snoc.
  by rewrite heap_of_futures_length, heap_of_wrappers_length.
Qed.

Lemma wf_spec (h : Heap) :
  wf h = true <->
  forall w o, wrappers h !! w = Some o -> wf_wrapper h w o = true.
Proof.
  unfold wf. rewrite forallb_forall. split.
  - intros Hwf w o Hw. apply Hwf, list_elem_of_In, list_elem_of_lookup.
    exists w. by rewrite list_lookup_imap, Hw.
  - intros Hwf b Hb.
    apply list_elem_of_In, list_elem_of_lookup in Hb as [w Hb].
    rewrite list_lookup_imap in Hb.
    destruct (wrappers h !! w) as [o|] eqn:Hw; [|done].
    simpl in Hb. injection Hb as <-. by apply Hwf.
Qed.

(** [FutBinFuture.__init__] keeps the store well formed. *)
Lemma wf_FutBinFuture_init url params h :
  wf h = true -> wf (snd (FutBinFuture_init url params h)) = true.
Proof.
  rewrite FutBinFuture_init_eq. cbn [snd]. rewrite !wf_spec.
  intros Hwf w o. cbn [wrappers]. intros Hw.
  apply lookup_app_Some in Hw as [Hw|[Hlen Hw]].
  - specialize (Hwf w o Hw). unfold wf_wrapper in *. cbn [futures].
    destruct (futures h !! w_future o) as [fo|] eqn:Hf; [|done].
    by rewrite (lookup_app_l_Some _ _ _ _ Hf).
  - destruct (w - length (wrappers h)) as [|k] eqn:Hk; [|done].
    injection Hw as <-. unfold wf_wrapper. cbn [futures w_future w_url].
    rewrite list_lookup_middle by done. cbn [f_wrapper f_request req_url].
    replace w with (length (wrappers h)) by lia.
    rewrite bool_decide_eq_true_2 by done. simpl. apply String.eqb_refl.
Qed.

(** So does setting [club] on a wrapper. *)
Lemma wf_set_club w c h : wf h = true -> wf (snd (set_club w c h)) = true.
Proof.
  rewrite !wf_spec. intros Hwf w' o'. unfold set_club. cbn [snd wrappers].
  intros Hw'. rewrite list_lookup_alter in Hw'.
  destruct (decide (w = w')) as [->|Hne].
  - destruct (wrappers h !! w') as [o|] eqn:Ho; [|done].
    simpl in Hw'. injection Hw' as <-. by apply (Hwf w' o).
  - by apply Hwf.
Qed.

Lemma wf_empty_heap : wf empty_heap = true.
Proof. reflexivity. Qed.

(** Setting [page] or [player] on a wrapper touches neither its [url] nor
    its [future]. *)
Lemma wf_set_page w p h : wf h = true -> wf (snd (set_page w p h)) = true.
Proof.
  rewrite !wf_spec. intros Hwf w' o'. unfold set_page. cbn [snd wrappers].
  intros Hw'. rewrite list_lookup_alter in Hw'.
  destruct (decide (w = w')) as [->|Hne].
  - destruct (wrappers h !! w') as [o|] eqn:Ho; [|done].
    simpl in Hw'. injection Hw' as <-. by apply (Hwf w' o).
  - by apply Hwf.
Qed.

Lemma wf_set_player w p h : wf h = true -> wf (snd (set_player w p h)) = true.
Proof.
  rewrite !wf_spec. intros Hwf w' o'. unfold set_player. cbn [snd wrappers].
  intros Hw'. rewrite list_lookup_alter in Hw'.
  destruct (decide (w = w')) as [->|Hne].
  - destruct (wrappers h !! w') as [o|] eqn:Ho; [|done].
    simpl in Hw'. injection Hw' as <-. by apply (Hwf w' o).
  - by apply Hwf.
Qed.

(** The first loop of [get_players_for_clubs]: one submission per club. *)
Lemma submit_clubs (clubs : list string) ds (acc : list nat) :
  for_ clubs
    (fun club futures =>
       do f <- ClubPlayersFuture_init club; ret (futures ++ [f]))
    acc (heap_of ds) =
  (inr (acc ++ seq (length ds) (length clubs)),
   heap_of (ds ++ (club_entry <$> clubs))).
Proof.
  revert ds acc. induction clubs as [|club clubs IH]; intros ds acc; simpl.
  - by rewrite !app_nil_r.
  - unfold bind at 1. unfold bind at 1.
    rewrite ClubPlayersFuture_init_heap_of. unfold ret at 1.
    rewrite IH. rewrite length_app. simpl.
    rewrite <- !app_assoc. simpl.
    by replace (length ds + 1) with (S (length ds)) by lia.
Qed.

(** The body of the second loop for one URL: a submission for the URL,
    tagged with the club of the roster wrapper [f]. *)
Lemma submit_player (f : nat) (club url : string) req ds (acc : list nat) :
  ds !! f = Some (req, Some club) ->
  (do r <- PlayerDataFuture_init url;
   do c <- get_club f;
   do _ <- set_club r c;
   ret (acc ++ [r])) (heap_of ds) =
  (inr (acc ++ [length ds]), heap_of (ds ++ [player_entry (club, url)])).
Proof.
  intros Hf. unfold PlayerDataFuture_init. unfold bind at 1.
  rewrite FutBinFuture_init_eq.
  unfold bind at 1. unfold get_club, bind at 1, get_wrapper.
  cbn [wrappers futures].
  rewrite lookup_app_l
    by (rewrite heap_of_wrappers_length; by eapply lookup_lt_Some).
  rewrite (heap_of_wrapper ds f _ Hf). cbn [w_club snd].
  unfold ret at 1, bind, set_club, ret. cbn [wrappers futures].
  rewrite alter_snoc.
  rewrite heap_of_snoc, heap_of_wrappers_length, heap_of_futures_length.
  done.
Qed.

(** ** The two waves of [get_players_for_clubs] *)

Section Waves.

Variable remote : Request -> Outcome.
Variable BeautifulSoup : string -> Markup.

(** The body of the loop over the completed roster wrappers. *)
Local Abbreviation request_players :=
  (fun (f : nat) (futures2 : list nat) =>
     ClubPlayersFuture_result remote BeautifulSoup f
       (fun url futures2 =>
          do r <- PlayerDataFuture_init url;
          do club <- get_club f;
          do _ <- set_club r club;
          ret (futures2 ++ [r])) futures2).

(** The body of the loop over the completed player wrappers. *)
Local Abbreviation collect_player :=
  (fun (f : nat) (result : gmap string (list Player)) =>
     do p <- PlayerDataFuture_result remote BeautifulSoup f;
     do club <- get_club f;
     ret (append_to club p result)).

(** What [_as_completed] does around the body of its caller. *)
Local Abbreviation yielding body :=
  (fun (f : nat) acc =>
     do o <- get_future f;
     match f_wrapper o with
     | Some w => body w acc
     | None => raise (AttributeError "wrapper")
     end).

(** In a fresh session the wrapper of the future at [f] is at [f]. *)
Lemma for__yielding_cons {S} (body : nat -> S -> M S) ds f d order (acc : S) :
  ds !! f = Some d ->
  for_ (f :: order) (yielding body) acc (heap_of ds) =
    match body f acc (heap_of ds) with
    | (inr acc', h') => for_ order (yielding body) acc' h'
    | (inl e, h') => (inl e, h')
    end.
Proof.
  intros Hd. rewrite for__cons. cbv beta. unfold bind at 1, get_future.
  by rewrite (heap_of_future ds f d Hd).
Qed.

Lemma ParsedFuture_result_heap_of ds w url club :
  ds !! w = Some (mkRequest url None, club) ->
  ParsedFuture_result remote BeautifulSoup w (heap_of ds) =
    (match resolve remote url with
     | inl e => inl e
     | inr r => parse BeautifulSoup (content r)
     end, heap_of ds).
Proof.
  intros Hw. unfold ParsedFuture_result, bind.
  rewrite (FutBinFuture_result_eq remote w _ _ _
             (heap_of_wrapper ds w _ Hw) (heap_of_future ds w _ Hw)).
  unfold resolve. simpl.
  destruct (transport remote (mkRequest url None)) as [r|msg]; [|done].
  destruct (negb (status_code r =? 200)%Z); [done|].
  by destruct (parse BeautifulSoup (content r)).
Qed.

Lemma ClubPlayersFuture_result_heap_of {S} (body : string -> S -> M S)
    ds w url club (acc : S) :
  ds !! w = Some (mkRequest url None, club) ->
  ClubPlayersFuture_result remote BeautifulSoup w body acc (heap_of ds) =
    match resolve remote url with
    | inl e => (inl e, heap_of ds)
    | inr r =>
        match parse BeautifulSoup (content r) with
        | inl e => (inl e, heap_of ds)
        | inr soup =>
            for_ (Bs4.find_all href_filter soup)
                 (fun l acc => do url <- lift (player_url l); body url acc)
                 acc (heap_of ds)
        end
    end.
Proof.
  intros Hw. unfold ClubPlayersFuture_result. unfold bind at 1.
  rewrite (ParsedFuture_result_heap_of ds w url club Hw).
  destruct (resolve remote url) as [e|r]; [done|].
  by destruct (parse BeautifulSoup (content r)).
Qed.

Lemma collect_player_heap_of ds f url club result :
  ds !! f = Some (mkRequest url None, Some club) ->
  collect_player f result (heap_of ds) =
    (match player_of remote BeautifulSoup url with
     | inl e => inl e
     | inr p => inr (append_to club p result)
     end, heap_of ds).
Proof.
  intros Hd. unfold bind.
  rewrite (PlayerDataFuture_result_eq remote BeautifulSoup f _ _ _
             (heap_of_wrapper ds f _ Hd) (heap_of_future ds f _ Hd)).
  unfold player_of, resolve. simpl.
  destruct (transport remote (mkRequest url None)) as [r|msg]; [|done].
  destruct (negb (status_code r =? 200)%Z); [done|].
  destruct (parse BeautifulSoup (content r)) as [e|soup]; [done|].
  destruct (PlayerM.from_url url _) as [e|p]; [done|].
  unfold get_club, bind, get_wrapper.
  by rewrite (heap_of_wrapper ds f _ Hd).
Qed.

(** In a fresh session the future of the wrapper at [w] is at [w]. *)
Lemma collect_futures_heap_of ds (ws : list nat) :
  (forall w, w ∈ ws -> w < length ds) ->
  for_ ws (fun f fs => do o <- get_wrapper f; ret (fs ++ [w_future o]))
       [] (heap_of ds) = (inr ws, heap_of ds).
Proof.
  intros Hws. rewrite (for__collect ws _ Datatypes.id [] (heap_of ds)).
  - by rewrite list_fmap_id.
  - intros w acc Hin.
    destruct (lookup_lt_is_Some_2 ds w (Hws w Hin)) as [d Hd].
    unfold bind, get_wrapper. by rewrite (heap_of_wrapper ds w d Hd).
Qed.

(** The loop over the links of one roster page. *)
Lemma submit_players f club req (links : list Node) ds (acc : list nat) :
  ds !! f = Some (req, Some club) ->
  let run :=
    for_ links
      (fun l acc =>
         do url <- lift (player_url l);
         (do r <- PlayerDataFuture_init url;
          do c <- get_club f;
          do _ <- set_club r c;
          ret (acc ++ [r])))
      acc (heap_of ds) in
  match traverse player_url links with
  | inl e => fst run = inl e
  | inr urls =>
      run = (inr (acc ++ seq (length ds) (length urls)),
             heap_of (ds ++ (player_entry <$> (pair club <$> urls))))
  end.
Proof.
  revert ds acc. induction links as [|l links IH]; intros ds acc Hf.
  - simpl. by rewrite !app_nil_r.
  - cbn zeta. rewrite for__cons. cbv beta. cbn [traverse].
    destruct (player_url l) as [e|url] eqn:Hl; [done|].
    cbn [lift]. rewrite bind_ret.
    rewrite (submit_player f club url req ds acc Hf).
    specialize (IH (ds ++ [player_entry (club, url)]) (acc ++ [length ds])
                   (lookup_app_l_Some _ _ _ _ Hf)).
    cbn zeta in IH.
    destruct (traverse player_url links) as [e|urls]; [done|].
    rewrite IH. rewrite length_app. simpl.
    rewrite <- !app_assoc. simpl.
    by replace (length ds + 1) with (S (length ds)) by lia.
Qed.

(** The loop over the roster wrappers, in their completion order. *)
Lemma first_wave (cs : list string) (order : list nat)
    (extra : list (string * string)) (acc : list nat) :
  (forall f, f ∈ order -> f < length cs) ->
  let ds := (club_entry <$> cs) ++ (player_entry <$> extra) in
  let run := for_ order (yielding request_players) acc (heap_of ds) in
  match traverse (roster_tagged remote BeautifulSoup)
                 ((fun f => cs !!! f) <$> order) with
  | inl e => fst run = inl e
  | inr tss =>
      run = (inr (acc ++ seq (length ds) (length (concat tss))),
             heap_of ((club_entry <$> cs)
                        ++ (player_entry <$> (extra ++ concat tss))))
  end.
Proof.
  cbv beta zeta. revert extra acc.
  induction order as [|f order IH]; intros extra acc Hord.
  - simpl. by rewrite !app_nil_r.
  - assert (f < length cs) as Hf by (apply Hord; left).
    assert (forall g, g ∈ order -> g < length cs) as Hord'
      by (intros; apply Hord; by right).
    set (ds := (club_entry <$> cs) ++ (player_entry <$> extra)).
    assert (ds !! f = Some (club_entry (cs !!! f))) as Hd.
    { unfold ds. rewrite lookup_app_l by (by rewrite length_fmap).
      rewrite list_lookup_fmap.
      by rewrite (list_lookup_lookup_total_lt cs f Hf). }
    rewrite fmap_cons. cbn [traverse].
    pose proof (for__yielding_cons request_players ds f _ order acc Hd)
      as Hstep.
    cbv beta in Hstep. rewrite Hstep. clear Hstep.
    rewrite (ClubPlayersFuture_result_heap_of _ ds f _ _ acc Hd).
    unfold roster_tagged at 1. unfold roster, roster_url.
    destruct (resolve remote (FIFA18_URL +:+ "/clubs/" +:+ cs !!! f))
      as [e|r]; [done|].
    destruct (parse BeautifulSoup (content r)) as [e|soup]; [done|].
    pose proof (submit_players f (cs !!! f) _
                  (Bs4.find_all href_filter soup) ds acc Hd) as Hin.
    cbn zeta in Hin.
    destruct (traverse player_url (Bs4.find_all href_filter soup))
      as [e|urls].
    { by destruct (for_ _ _ acc (heap_of ds)) as [[?|?] ?]. }
    rewrite Hin.
    specialize (IH (extra ++ (pair (cs !!! f) <$> urls))
                   (acc ++ seq (length ds) (length urls)) Hord').
    unfold ds in *.
    rewrite fmap_app, app_assoc in IH.
    destruct (traverse (roster_tagged remote BeautifulSoup)
                ((fun f => cs !!! f) <$> order)) as [e|tss]; [done|].
    rewrite IH. f_equal.
    + f_equal. rewrite <- !app_assoc. f_equal. cbn [concat].
      rewrite !length_app, !length_fmap, seq_app.
      f_equal. f_equal. lia.
    + by rewrite <- !app_assoc.
Qed.

(** The loop over the player wrappers, in their completion order. *)
Lemma second_wave ds (order : list nat) (result : gmap string (list Player)) :
  (forall f, f ∈ order ->
     exists club url, ds !! f = Some (mkRequest url None, Some club)) ->
  for_ order (yielding collect_player) result (heap_of ds) =
    (accumulate remote BeautifulSoup (tag_of ds <$> order) result, heap_of ds).
Proof.
  cbv beta. revert result.
  induction order as [|f order IH]; intros result Hord.
  - done.
  - destruct (Hord f) as (club & url & Hd); [left|].
    rewrite fmap_cons. cbn [accumulate].
    unfold tag_of at 1. rewrite Hd. cbn [req_url].
    pose proof (for__yielding_cons collect_player ds f _ order result Hd)
      as Hstep.
    cbv beta in Hstep. rewrite Hstep. clear Hstep.
    rewrite (collect_player_heap_of ds f url club result Hd).
    destruct (player_of remote BeautifulSoup url) as [e|p]; [done|].
    apply IH. intros; apply Hord; by right.
Qed.

End Waves.

(** ** [get_players_for_clubs] without the store *)

Lemma lookup_total_seq {A} `{Inhabited A} (l : list A) :
  (fun i => l !!! i) <$> seq 0 (length l) = l.
Proof.
  apply list_eq. intros i. rewrite list_lookup_fmap.
  destruct (decide (i < length l)) as [Hi|Hi].
  - rewrite lookup_seq_lt by done. simpl.
    by rewrite (list_lookup_lookup_total_lt l i Hi).
  - rewrite lookup_seq_ge by lia. simpl. symmetry. apply lookup_ge_None. lia.
Qed.

Lemma tag_of_player_entries ds (ts : list (string * string)) :
  tag_of (ds ++ (player_entry <$> ts)) <$> seq (length ds) (length ts) = ts.
Proof.
  apply list_eq. intros i. rewrite list_lookup_fmap.
  destruct (ts !! i) as [[club url]|] eqn:Hi.
  - rewrite lookup_seq_lt by (by eapply lookup_lt_Some). simpl.
    unfold tag_of. rewrite lookup_app_r by lia.
    replace (length ds + i - length ds) with i by lia.
    by rewrite list_lookup_fmap, Hi.
  - apply lookup_ge_None in Hi. by rewrite lookup_seq_ge by lia.
Qed.

Lemma bind_eq {A B} (m : M A) (k : A -> M B) h :
  bind m k h = match m h with
               | (inr x, h') => k x h'
               | (inl e, h') => (inl e, h')
               end.
Proof. reflexivity. Qed.

Section Pipeline.

Variable remote : Request -> Outcome.
Variable BeautifulSoup : string -> Markup.

(** In a fresh session [_as_completed] walks the wrappers themselves, in
    the completion order of their futures. *)
Lemma as_completed_heap_of {S} sched (ws : list nat)
    (body : nat -> S -> M S) (acc : S) ds :
  (forall w, w ∈ ws -> w < length ds) ->
  _as_completed sched ws body acc (heap_of ds) =
    for_ (as_completed sched ws)
         (fun f acc =>
            do o <- get_future f;
            match f_wrapper o with
            | Some w => body w acc
            | None => raise (AttributeError "wrapper")
            end) acc (heap_of ds).
Proof.
  intros Hws. unfold _as_completed. rewrite bind_eq.
  by rewrite (collect_futures_heap_of ds ws Hws).
Qed.

(** [get_players_for_clubs] resolves the rosters of the clubs in some
    order; the first roster that raises ends the call with its
    exception. Otherwise it resolves the player URLs of all rosters in
    some order, and returns what [accumulate] builds from them or the
    first exception among them. *)
Lemma get_players_for_clubs_unfolded (sched1 sched2 : Schedule)
    (clubs : list string) :
  exists clubs', clubs' ≡ₚ clubs /\
    match traverse (roster_tagged remote BeautifulSoup) clubs' with
    | inl e =>
        get_players_for_clubs remote BeautifulSoup sched1 sched2 clubs = inl e
    | inr tss =>
        exists tagged, tagged ≡ₚ concat tss /\
          get_players_for_clubs remote BeautifulSoup sched1 sched2 clubs
            = accumulate remote BeautifulSoup tagged ∅
    end.
Proof.
  set (n := length clubs).
  set (order1 := as_completed sched1 (seq 0 n)).
  assert (order1 ≡ₚ seq 0 n) as Hp1
    by apply as_completed_Permutation, NoDup_seq.
  assert (forall f, f ∈ order1 -> f < length clubs) as Hb1.
  { intros f Hf. rewrite Hp1 in Hf. apply elem_of_seq in Hf. unfold n in Hf. lia. }
  exists ((fun f => clubs !!! f) <$> order1). split.
  { rewrite Hp1. unfold n. by rewrite lookup_total_seq. }
  unfold get_players_for_clubs, run, get_players_for_clubs_body.
  rewrite bind_eq. change empty_heap with (heap_of []).
  rewrite submit_clubs. cbn [app length]. fold n.
  rewrite bind_eq.
  rewrite as_completed_heap_of
    by (intros w Hw; apply elem_of_seq in Hw; rewrite length_fmap; unfold n in Hw; lia).
  fold order1.
  pose proof (first_wave remote BeautifulSoup clubs order1 [] [] Hb1) as H1.
  cbv beta zeta in H1. rewrite fmap_nil, app_nil_r in H1.
  cbv beta.
  destruct (traverse (roster_tagged remote BeautifulSoup)
              ((fun f => clubs !!! f) <$> order1)) as [e|tss].
  { destruct (for_ order1 _ [] (heap_of (club_entry <$> clubs)))
      as [[e'|x] h']; simpl in H1; [|done]. by injection H1 as ->. }
  rewrite H1. cbn [app]. rewrite length_fmap. fold n.
  set (ts := concat tss).
  set (order2 := as_completed sched2 (seq n (length ts))).
  assert (order2 ≡ₚ seq n (length ts)) as Hp2
    by apply as_completed_Permutation, NoDup_seq.
  set (ds := (club_entry <$> clubs) ++ (player_entry <$> ts)).
  rewrite as_completed_heap_of.
  2:{ intros w Hw. apply elem_of_seq in Hw. unfold ds.
      rewrite length_app, !length_fmap. fold n. lia. }
  fold order2.
  pose proof (second_wave remote BeautifulSoup ds order2 ∅) as H2.
  cbv beta in H2. rewrite H2.
  2:{ intros f Hf. rewrite Hp2 in Hf. apply elem_of_seq in Hf.
      assert (is_Some (ts !! (f - n))) as [[club url] Ht]
        by (apply lookup_lt_is_Some; lia).
      exists club, url. unfold ds.
      rewrite lookup_app_r by (rewrite length_fmap; fold n; lia).
      rewrite length_fmap. fold n. by rewrite list_lookup_fmap, Ht. }
  exists (tag_of ds <$> order2). split; [|done].
  rewrite Hp2. unfold ds.
  replace n with (length (club_entry <$> clubs))
    by (by rewrite length_fmap).
  by rewrite tag_of_player_entries.
Qed.

End Pipeline.

(** ** What [get_players_for_clubs] returns *)


Lemma player_url_mounted l u : player_url l = inr u -> mounted u = true.
Proof.
  unfold player_url. destruct (Bs4.attr "href" l) as [[s|?]|]; [|done..].
  by intros [= <-].
Qed.

Lemma traverse_first_failure {A B} `{EqDecision A}
    (f : A -> Exn + B) (l : list A) (bad : A) (e : Exn) :
  bad ∈ l ->
  f bad = inl e ->
  (forall x, x ∈ l -> x <> bad -> exists y, f x = inr y) ->
  traverse f l = inl e.
Proof.
  induction l as [|x l IH]; intros Hin Hbad Hothers; [by apply elem_of_nil in Hin|].
  simpl. destruct (decide (x = bad)) as [->|Hne]; [by rewrite Hbad|].
  destruct (Hothers x) as [y Hy]; [by left|done|]. rewrite Hy.
  rewrite IH; [done| |done|].
  - apply elem_of_cons in Hin as [->|Hin]; done.
  - intros z Hz. apply Hothers. by right.
Qed.

Lemma traverse_all_inr {A B} (f : A -> Exn + B) (l : list A) :
  (forall x, x ∈ l -> exists y, f x = inr y) ->
  exists ys, traverse f l = inr ys.
Proof.
  induction l as [|x l IH]; intros Hall; simpl; [by eexists|].
  destruct (Hall x) as [y Hy]; [by left|]. rewrite Hy.
  destruct IH as [ys Hys]; [intros z Hz; apply Hall; by right|].
  rewrite Hys. by eexists.
Qed.

Section Returned.

Variable remote : Request -> Outcome.
Variable BeautifulSoup : string -> Markup.


Lemma roster_tagged_inr club urls :
  roster remote BeautifulSoup club = inr urls ->
  roster_tagged remote BeautifulSoup club = inr (pair club <$> urls).
Proof. intros Hr. unfold roster_tagged. by rewrite Hr. Qed.

(** The (club, URL) pairs of the second wave are the URLs on the roster
    pages of the clubs. *)
Lemma traverse_roster_tagged (cl : list string) tss c u :
  traverse (roster_tagged remote BeautifulSoup) cl = inr tss ->
  (c, u) ∈ concat tss <->
  c ∈ cl /\ exists urls, roster remote BeautifulSoup c = inr urls /\ u ∈ urls.
Proof.
  revert tss. induction cl as [|x cl IH]; intros tss; simpl.
  - intros [= <-]. simpl. split; [by intros ?%elem_of_nil|].
    by intros [?%elem_of_nil _].
  - unfold roster_tagged at 1.
    destruct (roster remote BeautifulSoup x) as [e|urls] eqn:Hx; [done|].
    destruct (traverse (roster_tagged remote BeautifulSoup) cl)
      as [e|tss'] eqn:Ht; [done|].
    intros [= <-]. simpl. rewrite elem_of_app, (IH tss' eq_refl).
    rewrite list_elem_of_fmap, elem_of_cons. split.
    + intros [(u' & [= -> ->] & Hu) | (Hc & urls' & Hr & Hu)].
      * split; [by left|]. by exists urls.
      * split; [by right|]. by exists urls'.
    + intros ([-> | Hc] & urls' & Hr & Hu).
      * left. exists u. split; [done|]. congruence.
      * right. split; [done|]. by exists urls'.
Qed.

(** The keys of the dict [accumulate] builds. *)
Lemma accumulate_keys tagged result m :
  accumulate remote BeautifulSoup tagged result = inr m ->
  (forall c, is_Some (m !! c) <->
             is_Some (result !! c) \/ exists u, (c, u) ∈ tagged)
  /\ (forall c u, (c, u) ∈ tagged ->
        exists p, player_of remote BeautifulSoup u = inr p)
  /\ ((forall c, result !! c <> Some []) -> forall c, m !! c <> Some []).
Proof.
  revert result. induction tagged as [|[club url] tagged IH]; intros result.
  - simpl. intros [= <-]. repeat split.
    + by left.
    + intros [?|[u ?%elem_of_nil]]; done.
    + by intros c u ?%elem_of_nil.
    + done.
  - simpl. destruct (player_of remote BeautifulSoup url) as [e|p] eqn:Hp;
      [done|].
    intros Hacc. destruct (IH _ Hacc) as (Hk & Hr & Hn). repeat split.
    + intros Hm. apply Hk in Hm as [Hm|[u Hu]].
      * unfold append_to in Hm.
        destruct (decide (club = c)) as [->|Hne].
        -- right. exists url. left.
        -- left. by rewrite lookup_insert_ne in Hm.
      * right. exists u. by right.
    + intros [Hres|[u Hu]]; apply Hk.
      * left. unfold append_to.
        destruct (decide (club = c)) as [->|Hne].
        -- by rewrite lookup_insert_eq.
        -- by rewrite lookup_insert_ne.
      * apply elem_of_cons in Hu as [[= -> ->]|Hu].
        -- left. unfold append_to. by rewrite lookup_insert_eq.
        -- right. by exists u.
    + intros c u [[= -> ->]|Hu]%elem_of_cons; [by exists p|by eapply Hr].
    + intros Hres. apply Hn. intros c. unfold append_to.
      destruct (decide (club = c)) as [->|Hne].
      * rewrite lookup_insert_eq. intros [= Heq].
        by destruct (default [] (result !! c)).
      * rewrite lookup_insert_ne by done. apply Hres.
Qed.

Lemma accumulate_total tagged result :
  (forall c u, (c, u) ∈ tagged ->
     exists p, player_of remote BeautifulSoup u = inr p) ->
  exists m, accumulate remote BeautifulSoup tagged result = inr m.
Proof.
  revert result. induction tagged as [|[club u] tagged IH]; intros result Hall.
  - by eexists.
  - simpl. destruct (Hall club u) as [p Hp]; [by left|]. rewrite Hp.
    apply IH. intros c' u' Hin. apply (Hall c' u'). by right.
Qed.

End Returned.


Section PlayersForClubs.

Variable remote : Request -> Outcome.
Variable BeautifulSoup : string -> Markup.


(** When every roster and every player URL on the rosters resolves,
    [get_players_for_clubs] returns a dict, in every completion order. *)
Lemma get_players_for_clubs_returns
    (sched1 sched2 : Schedule) (clubs : list string) :
  (forall c, c ∈ clubs ->
     exists urls, roster remote BeautifulSoup c = inr urls
                  /\ forall u, u ∈ urls ->
                       exists p, player_of remote BeautifulSoup u = inr p) ->
  exists m,
    get_players_for_clubs remote BeautifulSoup sched1 sched2 clubs = inr m.
Proof.
  intros Hall.
  destruct (get_players_for_clubs_unfolded remote BeautifulSoup
              sched1 sched2 clubs) as (clubs' & Hp & Hspec).
  destruct (traverse_all_inr (roster_tagged remote BeautifulSoup) clubs')
    as [tss Ht].
  { intros c Hc. rewrite Hp in Hc. destruct (Hall c Hc) as (urls & Hr & _).
    eexists. by apply roster_tagged_inr. }
  rewrite Ht in Hspec. destruct Hspec as (tagged & Hpt & Hacc).
  rewrite Hacc. apply accumulate_total. intros c u Hin. rewrite Hpt in Hin.
  apply (traverse_roster_tagged remote BeautifulSoup clubs' tss c u Ht)
    in Hin as (Hc & urls & Hr & Hu).
  rewrite Hp in Hc. destruct (Hall c Hc) as (urls' & Hr' & Hplayers).
  rewrite Hr in Hr'. injection Hr' as <-. by apply Hplayers.
Qed.

(** C8. In the dict [get_players_for_clubs] returns, a club is a key
    exactly when it is one of the clubs asked for and a Player was
    resolved from a URL of its roster page; no key maps to the empty
    list, and a club whose roster page has no player URL is not a key. *)
Theorem clubs_without_players_are_omitted
    (sched1 sched2 : Schedule) (clubs : list string)
    (m : gmap string (list Player)) :
  get_players_for_clubs remote BeautifulSoup sched1 sched2 clubs = inr m ->
  forall c : string,
    (is_Some (m !! c) <->
       c ∈ clubs /\
       exists urls u p,
         roster remote BeautifulSoup c = inr urls /\ u ∈ urls
         /\ player_of remote BeautifulSoup u = inr p)
    /\ m !! c <> Some []
    /\ (roster remote BeautifulSoup c = inr [] -> m !! c = None).
Proof.
  intros Hm c.
  destruct (get_players_for_clubs_unfolded remote BeautifulSoup
              sched1 sched2 clubs) as (clubs' & Hp & Hspec).
  destruct (traverse (roster_tagged remote BeautifulSoup) clubs')
    as [e|tss] eqn:Ht; [congruence|].
  destruct Hspec as (tagged & Hpt & Hacc). rewrite Hm in Hacc.
  symmetry in Hacc.
  destruct (accumulate_keys remote BeautifulSoup tagged ∅ m Hacc)
    as (Hk & Hr & Hn).
  assert (is_Some (m !! c) <->
            c ∈ clubs /\
            exists urls u p,
              roster remote BeautifulSoup c = inr urls /\ u ∈ urls
              /\ player_of remote BeautifulSoup u = inr p) as Hiff.
  { rewrite (Hk c). split.
    - intros [[x Hx]|[u Hu]]; [by rewrite lookup_empty in Hx|].
      destruct (Hr c u Hu) as [p Hpl]. rewrite Hpt in Hu.
      apply (traverse_roster_tagged remote BeautifulSoup clubs' tss c u Ht)
        in Hu as (Hc & urls & Hro & Hu).
      split; [by rewrite <- Hp|]. by exists urls, u, p.
    - intros (Hc & urls & u & p & Hro & Hu & _). right. exists u.
      rewrite Hpt.
      apply (traverse_roster_tagged remote BeautifulSoup clubs' tss c u Ht).
      split; [by rewrite Hp|]. by exists urls. }
  split; [done|]. split.
  - apply Hn. intros c'. by rewrite lookup_empty.
  - intros Hro. apply eq_None_not_Some. rewrite Hiff.
    intros (_ & urls & u & p & Hro' & Hu & _).
    rewrite Hro in Hro'. injection Hro' as <-. by apply elem_of_nil in Hu.
Qed.

End PlayersForClubs.

(** ** Which requests are in the store *)

Section Kept.

(** A property of the store that every step of a computation keeps. *)
Variable I : Heap -> Prop.

Lemma bind_keeps {A B} (m : M A) (k : A -> M B) h :
  I (snd (m h)) ->
  (forall x h', I h' -> I (snd (k x h'))) ->
  I (snd (bind m k h)).
Proof.
  intros Hm Hk. rewrite bind_eq.
  destruct (m h) as [[e|x] h']; simpl in *; [done|by apply Hk].
Qed.

Lemma for__keeps {A S} (xs : list A) (body : A -> S -> M S) :
  (forall x acc h, x ∈ xs -> I h -> I (snd (body x acc h))) ->
  forall acc h, I h -> I (snd (for_ xs body acc h)).
Proof.
  induction xs as [|x xs IH]; intros Hb acc h Hh; [done|].
  rewrite for__cons.
  pose proof (Hb x acc h ltac:(left) Hh) as Hx.
  destruct (body x acc h) as [[e|acc'] h']; simpl in Hx; [done|].
  apply IH; [|done]. intros y acc'' h'' Hy. apply Hb. by right.
Qed.

Lemma get_wrapper_keeps w h : I h -> I (snd (get_wrapper w h)).
Proof. unfold get_wrapper. by destruct (wrappers h !! w). Qed.

Lemma get_future_keeps f h : I h -> I (snd (get_future f h)).
Proof. unfold get_future. by destruct (futures h !! f). Qed.

Lemma get_club_keeps w h : I h -> I (snd (get_club w h)).
Proof.
  intros Hh. unfold get_club. apply bind_keeps; [by apply get_wrapper_keeps|].
  intros o h' Hh'. by destruct (w_club o).
Qed.

Lemma lift_keeps {A} (r : Exn + A) h : I h -> I (snd (lift r h)).
Proof. by destruct r. Qed.

Lemma as_completed_keeps {S} sched (ws : list nat)
    (body : nat -> S -> M S) (acc : S) h :
  (forall w acc h, I h -> I (snd (body w acc h))) ->
  I h -> I (snd (_as_completed sched ws body acc h)).
Proof.
  intros Hb Hh. unfold _as_completed. apply bind_keeps.
  - apply for__keeps; [|done]. intros w fs h' _ Hh'.
    apply bind_keeps; [by apply get_wrapper_keeps|]. by intros o h''.
  - intros fs h' Hh'. apply for__keeps; [|done]. intros f acc' h'' _ Hh''.
    apply bind_keeps; [by apply get_future_keeps|].
    intros o h3 Hh3. destruct (f_wrapper o) as [w|]; [by apply Hb|done].
Qed.

End Kept.

Section Requests.

Variable remote : Request -> Outcome.
Variable BeautifulSoup : string -> Markup.

Variable P : Request -> Prop.

Lemma requests_all_empty : requests_all P empty_heap.
Proof. intros fo Hfo. by apply elem_of_nil in Hfo. Qed.

Lemma FutBinFuture_init_request url params h :
  P (mkRequest url params) ->
  requests_all P h ->
  requests_all P (snd (FutBinFuture_init url params h)).
Proof.
  intros Hreq Hh fo. rewrite FutBinFuture_init_eq. cbn [snd futures].
  intros Hfo. apply elem_of_app in Hfo as [Hfo|Hfo]; [by apply Hh|].
  apply list_elem_of_singleton in Hfo as ->. exact Hreq.
Qed.

Lemma FutBinFuture_result_requests self h :
  requests_all P h -> requests_all P (snd (FutBinFuture_result remote self h)).
Proof.
  intros Hh. unfold FutBinFuture_result.
  apply bind_keeps; [by apply get_wrapper_keeps|]. intros o h1 Hh1.
  apply bind_keeps.
  - unfold Future_result. apply bind_keeps; [by apply get_future_keeps|].
    intros fo h2 Hh2. by destruct (transport remote (f_request fo)).
  - intros r h2 Hh2. by destruct (negb (status_code r =? 200)%Z).
Qed.

Lemma ParsedFuture_result_requests self h :
  requests_all P h ->
  requests_all P (snd (ParsedFuture_result remote BeautifulSoup self h)).
Proof.
  intros Hh. unfold ParsedFuture_result.
  apply bind_keeps; [by apply FutBinFuture_result_requests|].
  intros r h1 Hh1. by apply lift_keeps.
Qed.

End Requests.

(** A link that [href_filter] found gives a player-detail URL. *)
Lemma player_url_of_a_link (soup : Soup) (l : Node) (u : string) :
  l ∈ Bs4.find_all href_filter soup ->
  player_url l = inr u ->
  player_detail_request (mkRequest u None).
Proof.
  intros Hl Hu. unfold Bs4.find_all in Hl.
  apply list_elem_of_In, filter_In in Hl as [_ Hf].
  apply andb_prop in Hf as [_ Hf]. unfold href_filter in Hf.
  apply andb_prop in Hf as [_ Hf]. unfold player_url in Hu.
  destruct (Bs4.attr "href" l) as [[href|?]|]; [|done..].
  injection Hu as <-. exists href. by split.
Qed.

Section RequestsOfTheCalls.

Variable remote : Request -> Outcome.
Variable BeautifulSoup : string -> Markup.

(** Every request [get_players_for_clubs] has submitted, when it returns
    or raises, is the roster request of one of the clubs or a
    player-detail request. *)
Lemma get_players_for_clubs_requests (sched1 sched2 : Schedule)
    (clubs : list string) :
  requests_all
    (fun req =>
       (exists club, club ∈ clubs /\ req = mkRequest (roster_url club) None)
       \/ player_detail_request req)
    (snd (get_players_for_clubs_body remote BeautifulSoup sched1 sched2 clubs
            empty_heap)).
Proof.
  set (P := fun req : Request =>
              (exists club, club ∈ clubs
                            /\ req = mkRequest (roster_url club) None)
              \/ player_detail_request req).
  unfold get_players_for_clubs_body.
  apply (bind_keeps (requests_all P)).
  { apply (for__keeps (requests_all P)); [|apply requests_all_empty].
    intros club fs h Hclub Hh. apply (bind_keeps (requests_all P)).
    - intros fo. rewrite ClubPlayersFuture_init_eq. cbn [snd futures].
      intros Hfo. apply elem_of_app in Hfo as [Hfo|Hfo]; [by apply Hh|].
      apply list_elem_of_singleton in Hfo as ->. left. by exists club.
    - by intros f h'. }
  intros futures h Hh. apply (bind_keeps (requests_all P)).
  { apply (as_completed_keeps (requests_all P)); [|done].
    intros f futures2 h1 Hh1. unfold ClubPlayersFuture_result.
    apply (bind_keeps (requests_all P));
      [by apply ParsedFuture_result_requests|].
    intros soup h2 Hh2. apply (for__keeps (requests_all P)); [|done].
    intros l acc h3 Hl Hh3.
    destruct (player_url l) as [e|u] eqn:Hu; [done|].
    cbn [lift]. rewrite bind_ret.
    apply (bind_keeps (requests_all P)).
    - unfold PlayerDataFuture_init. apply FutBinFuture_init_request; [|done].
      right. by apply (player_url_of_a_link soup l u).
    - intros r h4 Hh4. apply (bind_keeps (requests_all P));
        [by apply get_club_keeps|].
      intros c h5 Hh5. by apply (bind_keeps (requests_all P)). }
  intros futures2 h1 Hh1.
  apply (as_completed_keeps (requests_all P)); [|done].
  intros f result h2 Hh2. apply (bind_keeps (requests_all P)).
  - unfold PlayerDataFuture_result. apply (bind_keeps (requests_all P));
      [by apply ParsedFuture_result_requests|].
    intros soup h3 Hh3. apply (bind_keeps (requests_all P));
      [by apply get_wrapper_keeps|].
    intros o h4 Hh4. by apply lift_keeps.
  - intros p h3 Hh3. apply (bind_keeps (requests_all P));
      [by apply get_club_keeps|]. by intros c h4.
Qed.

(** Every request [get_clubs] has submitted is the listing request of a
    page of the range. *)
Lemma get_clubs_requests (sched : Schedule) (start_page end_page : Z) :
  requests_all
    (fun req =>
       exists page, page ∈ range start_page (end_page + 1)
                    /\ req = page_request page)
    (snd (get_clubs_body remote BeautifulSoup sched start_page end_page
            empty_heap)).
Proof.
  set (P := fun req : Request =>
              exists page, page ∈ range start_page (end_page + 1)
                           /\ req = page_request page).
  unfold get_clubs_body. apply (bind_keeps (requests_all P)).
  { apply (for__keeps (requests_all P)); [|apply requests_all_empty].
    intros page fs h Hpage Hh. apply (bind_keeps (requests_all P)).
    - intros fo. rewrite ClubsPageFuture_init_eq. cbn [snd futures].
      intros Hfo. apply elem_of_app in Hfo as [Hfo|Hfo]; [by apply Hh|].
      apply list_elem_of_singleton in Hfo as ->. by exists page.
    - by intros f h'. }
  intros futures h Hh.
  apply (as_completed_keeps (requests_all P)); [|done].
  intros f result h1 Hh1. apply (bind_keeps (requests_all P)).
  - unfold ClubsPageFuture_result. apply (bind_keeps (requests_all P));
      [by apply ParsedFuture_result_requests|].
    intros soup h2 Hh2. by apply lift_keeps.
  - by intros l h2.
Qed.

(** Every request the submissions of [get_player_prices] leave in the
    store is the price-graph request of one of the players, built with
    its [price_id]. *)
Lemma get_player_prices_requests (players : list Player)
    (type year : option string) (clock : nat -> Z) :
  requests_all
    (fun req =>
       exists i player pid,
         players !! i = Some player
         /\ PlayerM.price_id player = inr pid
         /\ req = price_request type year pid (clock i))
    (snd (for_ (imap pair players)
            (fun ip futures =>
               do f <- PlayerPriceFuture_init (snd ip) type year
                         (clock (fst ip));
               ret (futures ++ [f])) [] empty_heap)).
Proof.
  set (P := fun req : Request =>
              exists i player pid,
                players !! i = Some player
                /\ PlayerM.price_id player = inr pid
                /\ req = price_request type year pid (clock i)).
  apply (for__keeps (requests_all P)); [|apply requests_all_empty].
  intros [i player] fs h Hip Hh.
  apply elem_of_lookup_imap in Hip as (i' & player' & [= -> ->] & Hi).
  cbn [fst snd]. apply (bind_keeps (requests_all P)); [|by intros f h'].
  destruct (PlayerM.price_id player') as [e|pid] eqn:Hpid.
  - by rewrite (PlayerPriceFuture_init_raises _ _ _ _ e h Hpid).
  - unfold PlayerPriceFuture_init. rewrite Hpid. cbn [lift].
    rewrite bind_ret. apply (bind_keeps (requests_all P)).
    + apply FutBinFuture_init_request; [|done]. by exists i', player', pid.
    + intros self h1 Hh1. by apply (bind_keeps (requests_all P)).
Qed.

(** C9, amended. Each constructor submits exactly one request: a clubs
    listing request to [https://www.futbin.com/18/clubs] with [page]; a
    club roster request to [https://www.futbin.com/18/clubs/<club>]
    without parameters; a price-graph request to
    [https://www.futbin.com/<year>/playerGraph] with [type] (default
    [today]), [year] (default [18]), [player], the [price_id] of the
    Player, and [_], the clock in seconds; a player-detail request to
    the URL it is given, without parameters. And whether they return or
    raise, all requests of [get_clubs] are listing requests of pages of
    the range, all requests of [get_players_for_clubs] are roster
    requests of the clubs or player-detail requests to
    [https://www.futbin.com] followed by a scraped [href] with [player/]
    in it, and all requests of [get_player_prices] are price-graph
    requests of the players. *)
Theorem requests_are_endpoints_or_scraped_links :
  (forall h : Heap,
      (forall page : Z,
          futures (snd (ClubsPageFuture_init page h)) =
            futures h ++
            [mkFuture (mkRequest "https://www.futbin.com/18/clubs"
                         (Some [("page", PInt page)]))
                      (Some (length (wrappers h)))])
      /\ (forall club : string,
          futures (snd (ClubPlayersFuture_init club h)) =
            futures h ++
            [mkFuture
               (mkRequest ("https://www.futbin.com/18/clubs/" +:+ club) None)
               (Some (length (wrappers h)))])
      /\ (forall (player : Player) (type year : option string) (clock : Z)
                 (pid : AttrValue),
          PlayerM.price_id player = inr pid ->
          futures (snd (PlayerPriceFuture_init player type year clock h)) =
            futures h ++
            [mkFuture
               (mkRequest
                  ("https://www.futbin.com/" +:+ default "18" year
                     +:+ "/playerGraph")
                  (Some [("type", PStr (default "today" type));
                         ("year", PStr (default "18" year));
                         ("player", PVal pid);
                         ("_", PInt clock)]))
               (Some (length (wrappers h)))])
      /\ (forall url : string,
          futures (snd (PlayerDataFuture_init url h)) =
            futures h ++
            [mkFuture (mkRequest url None) (Some (length (wrappers h)))]))
  /\ (forall (sched : Schedule) (start_page end_page : Z) (fo : FutureObj),
      fo ∈ futures (snd (get_clubs_body remote BeautifulSoup sched
                           start_page end_page empty_heap)) ->
      exists page : Z,
        (start_page <= page <= end_page)%Z
        /\ f_request fo = mkRequest "https://www.futbin.com/18/clubs"
                            (Some [("page", PInt page)]))
  /\ (forall (sched1 sched2 : Schedule) (clubs : list string)
             (fo : FutureObj),
      fo ∈ futures (snd (get_players_for_clubs_body remote BeautifulSoup
                           sched1 sched2 clubs empty_heap)) ->
      (exists club : string,
          club ∈ clubs
          /\ f_request fo
             = mkRequest ("https://www.futbin.com/18/clubs/" +:+ club) None)
      \/ player_detail_request (f_request fo))
  /\ (forall (players : list Player) (type year : option string)
             (clock : nat -> Z) (fo : FutureObj),
      fo ∈ futures
             (snd (for_ (imap pair players)
                     (fun ip futures =>
                        do f <- PlayerPriceFuture_init (snd ip) type year
                                  (clock (fst ip));
                        ret (futures ++ [f])) [] empty_heap)) ->
      exists (i : nat) (player : Player) (pid : AttrValue),
        players !! i = Some player
        /\ PlayerM.price_id player = inr pid
        /\ f_request fo
           = mkRequest
               ("https://www.futbin.com/" +:+ default "18" year
                  +:+ "/playerGraph")
               (Some [("type", PStr (default "today" type));
                      ("year", PStr (default "18" year));
                      ("player", PVal pid);
                      ("_", PInt (clock i))])).
Proof.
  split; [|split; [|split]].
  - intros h. destruct (constructors_submit_one_request h)
      as (Hpage & Hclub & Hprice).
    split; [exact Hpage|]. split; [exact Hclub|]. split; [exact Hprice|].
    intros url. unfold PlayerDataFuture_init. by rewrite FutBinFuture_init_eq.
  - intros sched start_page end_page fo Hfo.
    destruct (get_clubs_requests sched start_page end_page fo Hfo)
      as (page & Hpage & Hreq).
    exists page. split; [|exact Hreq].
    unfold range in Hpage. apply elem_of_seqZ in Hpage. lia.
  - intros sched1 sched2 clubs fo Hfo.
    exact (get_players_for_clubs_requests sched1 sched2 clubs fo Hfo).
  - intros players type year clock fo Hfo.
    exact (get_player_prices_requests players type year clock fo Hfo).
Qed.

End RequestsOfTheCalls.

(** ** The statements on the examples *)


Lemma clubs_without_players_are_omitted_arsenal :
  get_players_for_clubs Example.arsenal_empty Example.parser
    [] [] ["Arsenal"; "Chelsea"]
  = inr {[ "Chelsea" := [Example.hazard; Example.kante] ]}
  /\ ({[ "Chelsea" := [Example.hazard; Example.kante] ]}
        : gmap string (list Player)) !! "Arsenal" = None.
Proof.
  assert (get_players_for_clubs Example.arsenal_empty Example.parser
            [] [] ["Arsenal"; "Chelsea"]
          = inr {[ "Chelsea" := [Example.hazard; Example.kante] ]}) as Hm
    by (vm_compute; reflexivity).
  split; [exact Hm|].
  apply (clubs_without_players_are_omitted Example.arsenal_empty
           Example.parser [] [] ["Arsenal"; "Chelsea"] _ Hm "Arsenal").
  reflexivity.
Defined.

Lemma as_completed_yields_each_wrapper_once_two_rosters :
  wf Example.two_rosters = true
  /\ NoDup [0; 1]
  /\ exists ys : list nat,
       _as_completed_list [1] [0; 1] Example.two_rosters
         = (inr ys, Example.two_rosters)
       /\ ys ≡ₚ [0; 1] /\ NoDup ys /\ length ys = 2.
Proof.
  assert (NoDup [0; 1]) as Hn.
  { apply NoDup_cons. split; [|apply NoDup_singleton].
    intros H. apply list_elem_of_singleton in H. discriminate. }
  split; [reflexivity|]. split; [exact Hn|].
  apply (proj1 (as_completed_yields_each_wrapper_once Example.two_rosters
                  [0; 1] eq_refl
                  ltac:(intros w Hw;
                        apply elem_of_cons in Hw as [->|Hw]; [simpl; lia|];
                        apply list_elem_of_singleton in Hw as ->; simpl; lia)
                  Hn) [1]).
Defined.

Lemma FutBinFuture_result_checks_the_status_404_and_200 :
  fst (FutBinFuture_result Example.arsenal_missing 0 Example.two_rosters)
    = inl (FailedRequestException "https://www.futbin.com/18/clubs/Arsenal")
  /\ FutBinFuture_result Example.arsenal_missing 1
       (snd (FutBinFuture_result Example.arsenal_missing 0 Example.two_rosters))
     = (inr (mkResponse 200 "chelsea"),
        snd (FutBinFuture_result Example.arsenal_missing 0 Example.two_rosters)).
Proof.
  destruct (FutBinFuture_result_checks_the_status Example.arsenal_missing
              Example.two_rosters 0
              (mkWrapper Example.arsenal_url 0 (Some "Arsenal") None None)
              (mkFuture (mkRequest Example.arsenal_url None) (Some 0))
              (mkResponse 404 "") eq_refl eq_refl eq_refl)
    as (Hiff & _ & Hsibling).
  split.
  - apply Hiff. simpl. lia.
  - apply (Hsibling 1
             (mkWrapper Example.chelsea_url 1 (Some "Chelsea") None None)
             (mkFuture (mkRequest Example.chelsea_url None) (Some 1))
             (mkResponse 200 "chelsea")); reflexivity.
Defined.

(** C6, as the specification states it, fails: a player page that
    completes with status 200 and with markup the parser rejects does
    not resolve to a Player; the exception of the parser leaves
    [result()]. *)
Lemma rejected_player_page_raises :
  transport Example.rejected_players (mkRequest Example.hazard_url None)
    = Completed (mkResponse 200 "<![1>")
  /\ fst (PlayerDataFuture_result Example.rejected_players Example.parser 0
            Example.one_player)
     = inl (ParserRejectedMarkup "expected name token")
  /\ ~ (exists (p : Player) (h : Heap),
          PlayerDataFuture_result Example.rejected_players Example.parser 0
            Example.one_player = (inr p, h)).
Proof.
  split; [reflexivity|]. split; [reflexivity|].
  intros (p & h & H). vm_compute in H. discriminate.
Qed.

Lemma PlayerDataFuture_result_defers_missing_page_info_hazard :
  Example.parser "bare" = Accepted Example.bare_player_page
  /\ exists p : Player,
       PlayerDataFuture_result Example.bare_players Example.parser 0
         Example.one_player = (inr p, Example.one_player)
       /\ url p = Example.hazard_url
       /\ data p = None
       /\ PlayerM.price_id p = inl TypeError.
Proof.
  split; [reflexivity|].
  destruct (proj1 (PlayerDataFuture_result_defers_missing_page_info
                     Example.bare_players Example.parser Example.one_player 0
                     (mkWrapper Example.hazard_url 0 (Some "Chelsea") None None)
                     (mkFuture (mkRequest Example.hazard_url None) (Some 0))
                     eq_refl eq_refl eq_refl)
                  (mkResponse 200 "bare") Example.bare_player_page
                  eq_refl eq_refl eq_refl)
    as (p & Hres & Hurl & Hdata & Hprice).
  exists p. split; [exact Hres|]. split; [exact Hurl|].
  split; [exact Hdata|]. apply Hprice. reflexivity.
Defined.

(** C9, as the specification states it, fails: a player-detail request
    goes to [FUTBIN_URL] followed by whatever [href] was scraped, which
    is none of the three shapes. *)
Lemma scraped_link_is_no_fixed_endpoint :
  exists fo : FutureObj,
    fo ∈ futures (snd (get_players_for_clubs_body MoreExamples.foreign_links
                         MoreExamples.foreign_parser [] [] ["Chelsea"]
                         empty_heap))
    /\ f_request fo
       = mkRequest "https://www.futbin.comhttps://other.example/player/5/z"
           None
    /\ ~ fixed_endpoint (f_request fo).
Proof.
  exists (mkFuture
            (mkRequest "https://www.futbin.comhttps://other.example/player/5/z"
               None) (Some 1)).
  split; [|split; [reflexivity|]].
  - vm_compute. right. left.
  - cbn [f_request]. intros [(page & H)|[(club & H)|(t & y & pid & now & H)]];
      simpl in H; discriminate.
Qed.

Lemma requests_are_endpoints_or_scraped_links_chelsea :
  futures (snd (ClubsPageFuture_init 3 empty_heap))
    = [mkFuture (mkRequest "https://www.futbin.com/18/clubs"
                   (Some [("page", PInt 3)])) (Some 0)]
  /\ futures (snd (PlayerPriceFuture_init Example.hazard None None
                     1514764800 empty_heap))
     = [mkFuture
          (mkRequest "https://www.futbin.com/18/playerGraph"
             (Some [("type", PStr "today"); ("year", PStr "18");
                    ("player", PVal (AStr "158023"));
                    ("_", PInt 1514764800)]))
          (Some 0)]
  /\ mkFuture (mkRequest Example.hazard_url None) (Some 2)
       ∈ futures (snd (get_players_for_clubs_body Example.arsenal_empty
                         Example.parser [] [] ["Arsenal"; "Chelsea"]
                         empty_heap))
  /\ player_detail_request (mkRequest Example.hazard_url None).
Proof.
  destruct (requests_are_endpoints_or_scraped_links Example.arsenal_empty
              Example.parser) as (Hinit & _ & Hplayers & _).
  destruct (Hinit empty_heap) as (Hpage & _ & Hprice & _).
  split; [exact (Hpage 3%Z)|].
  split; [exact (Hprice Example.hazard None None 1514764800%Z
                   (AStr "158023") eq_refl)|].
  assert (mkFuture (mkRequest Example.hazard_url None) (Some 2)
            ∈ futures (snd (get_players_for_clubs_body Example.arsenal_empty
                              Example.parser [] [] ["Arsenal"; "Chelsea"]
                              empty_heap))) as Hin
    by (vm_compute; right; right; left).
  split; [exact Hin|].
  destruct (Hplayers [] [] ["Arsenal"; "Chelsea"] _ Hin)
    as [(club & _ & Hreq)|Hdetail]; [|exact Hdetail].
  exfalso. simpl in Hreq. discriminate.
Defined.

(** * Further properties *)

(** ** The store of a fresh session, with all attributes *)

Lemma store_of_snoc ds d :
  store_of (ds ++ [d]) =
    mkHeap (futures (store_of ds) ++ [mkFuture (fst d) (Some (length ds))])
           (wrappers (store_of ds)
              ++ [mkWrapper (req_url (fst d)) (length ds)
                    (fst (fst (snd d))) (snd (fst (snd d))) (snd (snd d))]).
Proof.
  unfold store_of. rewrite !imap_app. simpl.
  by replace (length ds + 0) with (length ds) by lia.
Qed.

Lemma store_of_futures_length ds : length (futures (store_of ds)) = length ds.
Proof. apply length_imap. Qed.

Lemma store_of_wrappers_length ds : length (wrappers (store_of ds)) = length ds.
Proof. apply length_imap. Qed.

Lemma store_of_wrapper ds w d :
  ds !! w = Some d ->
  wrappers (store_of ds) !! w
    = Some (mkWrapper (req_url (fst d)) w
              (fst (fst (snd d))) (snd (fst (snd d))) (snd (snd d))).
Proof. intros Hd. unfold store_of. simpl. by rewrite list_lookup_imap, Hd. Qed.

Lemma store_of_future ds f d :
  ds !! f = Some d ->
  futures (store_of ds) !! f = Some (mkFuture (fst d) (Some f)).
Proof. intros Hd. unfold store_of. simpl. by rewrite list_lookup_imap, Hd. Qed.

Lemma get_future_store_of ds f d :
  ds !! f = Some d ->
  get_future f (store_of ds) = (inr (mkFuture (fst d) (Some f)), store_of ds).
Proof. intros Hd. unfold get_future. by rewrite (store_of_future ds f d Hd). Qed.

Lemma collect_futures_store_of ds (ws : list nat) :
  (forall w, w ∈ ws -> w < length ds) ->
  for_ ws (fun f fs => do o <- get_wrapper f; ret (fs ++ [w_future o]))
       [] (store_of ds) = (inr ws, store_of ds).
Proof.
  intros Hws. rewrite (for__collect ws _ Datatypes.id [] (store_of ds)).
  - by rewrite list_fmap_id.
  - intros w acc Hin.
    destruct (lookup_lt_is_Some_2 ds w (Hws w Hin)) as [d Hd].
    unfold bind, get_wrapper. by rewrite (store_of_wrapper ds w d Hd).
Qed.

(** A loop over completed futures whose body only reads the store. *)
Lemma for__yielding_store_of {S} (body : nat -> S -> M S) ds
    (order : list nat) (acc : S) :
  (forall f, f ∈ order -> f < length ds) ->
  (forall f acc, snd (body f acc (store_of ds)) = store_of ds) ->
  for_ order
    (fun f acc =>
       do o <- get_future f;
       match f_wrapper o with
       | Some w => body w acc
       | None => raise (AttributeError "wrapper")
       end) acc (store_of ds)
  = for_ order body acc (store_of ds).
Proof.
  intros Hord Hread. revert acc.
  induction order as [|f order IH]; intros acc; [done|].
  destruct (lookup_lt_is_Some_2 ds f (Hord f ltac:(left))) as [d Hd].
  rewrite !for__cons. cbv beta.
  rewrite bind_eq, (get_future_store_of ds f d Hd). cbn [f_wrapper].
  pose proof (Hread f acc) as Hh.
  destruct (body f acc (store_of ds)) as [[e|acc'] h']; [done|].
  simpl in Hh. subst h'. apply IH. intros g Hg. apply Hord. by right.
Qed.

Lemma as_completed_store_of {S} sched (ws : list nat)
    (body : nat -> S -> M S) (acc : S) ds :
  (forall w, w ∈ ws -> w < length ds) ->
  (forall f acc, snd (body f acc (store_of ds)) = store_of ds) ->
  _as_completed sched ws body acc (store_of ds) =
    for_ (as_completed sched ws) body acc (store_of ds).
Proof.
  intros Hws Hread. unfold _as_completed. rewrite bind_eq.
  rewrite (collect_futures_store_of ds ws Hws).
  apply for__yielding_store_of; [|done].
  intros f Hf. apply Hws. unfold as_completed in Hf.
  by rewrite complete_Permutation, elem_of_remove_dups in Hf.
Qed.

Lemma drain_cons {A B} (x : A) (xs : list A) (step : A -> M B) h :
  drain (x :: xs) step h =
    match step x h with
    | (inr y, h') => let '(ys, e) := drain xs step h' in (y :: ys, e)
    | (inl e, _) => ([], Some e)
    end.
Proof. reflexivity. Qed.

(** Resolving a wrapper leaves the store as it is. *)
Lemma FutBinFuture_result_reads remote self h :
  snd (FutBinFuture_result remote self h) = h.
Proof.
  unfold FutBinFuture_result, Future_result, bind, get_wrapper, get_future,
    ret, raise.
  destruct (wrappers h !! self) as [o|]; [|done].
  destruct (futures h !! w_future o) as [fo|]; [|done].
  destruct (transport remote (f_request fo)) as [r|msg]; [|done].
  by destruct (negb (status_code r =? 200)%Z).
Qed.

Lemma ClubsPageFuture_result_reads remote BeautifulSoup self h :
  snd (ClubsPageFuture_result remote BeautifulSoup self h) = h.
Proof.
  unfold ClubsPageFuture_result, ParsedFuture_result. rewrite !bind_eq.
  pose proof (FutBinFuture_result_reads remote self h) as Hh.
  destruct (FutBinFuture_result remote self h) as [[e|r] h']; simpl in Hh;
    subst h'; [done|].
  unfold lift. destruct (parse BeautifulSoup (content r)) as [e|soup]; [done|].
  unfold ret. by destruct (clubs_of_page soup).
Qed.

(** The same for a consumer that keeps what it was given. *)
Lemma drain_yielding_store_of {B} (use : nat -> M B) ds (order : list nat) :
  (forall f, f ∈ order -> f < length ds) ->
  (forall f, snd (use f (store_of ds)) = store_of ds) ->
  drain order
    (fun f =>
       do o <- get_future f;
       match f_wrapper o with
       | Some w => use w
       | None => raise (AttributeError "wrapper")
       end) (store_of ds)
  = drain order use (store_of ds).
Proof.
  intros Hord Hread.
  induction order as [|f order IH]; [done|].
  destruct (lookup_lt_is_Some_2 ds f (Hord f ltac:(left))) as [d Hd].
  rewrite !drain_cons. cbv beta.
  rewrite bind_eq, (get_future_store_of ds f d Hd). cbn [f_wrapper].
  pose proof (Hread f) as Hh.
  destruct (use f (store_of ds)) as [[e|y] h']; [done|].
  simpl in Hh. subst h'. rewrite IH; [done|].
  intros g Hg. apply Hord. by right.
Qed.

(** ** get_clubs *)

Lemma ClubsPageFuture_init_store_of page ds :
  ClubsPageFuture_init page (store_of ds) =
    (inr (length ds),
     store_of (ds ++ [(page_request page, (None, Some page, None))])).
Proof.
  rewrite ClubsPageFuture_init_eq, store_of_snoc.
  by rewrite store_of_futures_length, store_of_wrappers_length.
Qed.

Lemma submit_pages (pages : list Z) ds (acc : list nat) :
  for_ pages
    (fun i futures => do f <- ClubsPageFuture_init i; ret (futures ++ [f]))
    acc (store_of ds) =
  (inr (acc ++ seq (length ds) (length pages)),
   store_of (ds ++ ((fun p => (page_request p, (None, Some p, None)))
                      <$> pages))).
Proof.
  revert ds acc. induction pages as [|p pages IH]; intros ds acc.
  - simpl. by rewrite !app_nil_r.
  - rewrite for__cons. cbv beta. rewrite bind_eq.
    rewrite ClubsPageFuture_init_store_of. unfold ret at 1.
    rewrite IH. rewrite length_app. simpl.
    rewrite <- !app_assoc. simpl.
    by replace (length ds + 1) with (S (length ds)) by lia.
Qed.

Section Listing.

Variable remote : Request -> Outcome.
Variable BeautifulSoup : string -> Markup.

Lemma ClubsPageFuture_result_store_of ds f page attrs :
  ds !! f = Some (page_request page, attrs) ->
  ClubsPageFuture_result remote BeautifulSoup f (store_of ds) =
    (page_clubs remote BeautifulSoup page, store_of ds).
Proof.
  intros Hd. unfold ClubsPageFuture_result, ParsedFuture_result.
  rewrite !bind_eq.
  rewrite (FutBinFuture_result_eq remote f _ _ _
             (store_of_wrapper ds f _ Hd) (store_of_future ds f _ Hd)).
  unfold page_clubs, fetch. simpl.
  destruct (transport remote (page_request page)) as [r|msg]; [|done].
  destruct (negb (status_code r =? 200)%Z); [done|].
  unfold lift. destruct (parse BeautifulSoup (content r)) as [e|soup]; [done|].
  unfold ret. by destruct (clubs_of_page soup).
Qed.

(** The loop of [get_clubs] over the completed pages. *)
Lemma collect_clubs ds (order : list nat) (pages : list Z)
    (acc : list string) :
  Forall2 (fun f p => exists attrs, ds !! f = Some (page_request p, attrs))
          order pages ->
  for_ order
    (fun f result =>
       do clubs <- ClubsPageFuture_result remote BeautifulSoup f;
       ret (result ++ clubs)) acc (store_of ds)
  = (match traverse (page_clubs remote BeautifulSoup) pages with
     | inl e => inl e
     | inr ls => inr (acc ++ concat ls)
     end, store_of ds).
Proof.
  intros Hop. revert acc.
  induction Hop as [|f p order pages [attrs Hd] _ IH]; intros acc.
  - simpl. by rewrite app_nil_r.
  - rewrite for__cons. cbv beta. rewrite bind_eq.
    rewrite (ClubsPageFuture_result_store_of ds f p attrs Hd).
    cbn [traverse].
    destruct (page_clubs remote BeautifulSoup p) as [e|l]; [done|].
    unfold ret at 1. rewrite IH.
    destruct (traverse (page_clubs remote BeautifulSoup) pages)
      as [e|ls]; [done|].
    simpl. by rewrite app_assoc.
Qed.

(** [get_clubs] resolves the pages of the range in some order and
    concatenates their clubs in that order; the first page that raises
    ends the call with its exception. *)
Lemma get_clubs_unfolded (sched : Schedule) (start_page end_page : option Z) :
  exists pages,
    pages ≡ₚ range (default 1%Z start_page) (default 25%Z end_page + 1) /\
    get_clubs remote BeautifulSoup sched start_page end_page =
      match traverse (page_clubs remote BeautifulSoup) pages with
      | inl e => inl e
      | inr ls => inr (concat ls)
      end.
Proof.
  set (all := range (default 1%Z start_page) (default 25%Z end_page + 1)).
  set (n := length all).
  set (order := as_completed sched (seq 0 n)).
  assert (order ≡ₚ seq 0 n) as Hp
    by apply as_completed_Permutation, NoDup_seq.
  exists ((fun f => all !!! f) <$> order). split.
  { rewrite Hp. unfold n. by rewrite lookup_total_seq. }
  unfold get_clubs, run, get_clubs_body. fold all.
  rewrite bind_eq. change empty_heap with (store_of []).
  rewrite submit_pages. cbn [app length]. fold n.
  set (ds := (fun p => (page_request p, (None, Some p, None))) <$> all).
  assert (length ds = n) as Hlen by (unfold ds; by rewrite length_fmap).
  rewrite as_completed_store_of.
  - fold order. rewrite (collect_clubs ds order ((fun f => all !!! f) <$> order)).
    + cbn [fst]. by destruct (traverse _ _).
    + apply Forall2_fmap_r, Forall_Forall2_diag, Forall_forall.
      intros f Hf. rewrite Hp in Hf. apply elem_of_seq in Hf.
      exists (None, Some (all !!! f), None). unfold ds.
      rewrite list_lookup_fmap.
      rewrite (list_lookup_lookup_total_lt all f) by (fold n; lia). done.
  - intros w Hw. apply elem_of_seq in Hw. lia.
  - intros f acc. rewrite bind_eq.
    pose proof (ClubsPageFuture_result_reads remote BeautifulSoup f
                  (store_of ds)) as Hh.
    by destruct (ClubsPageFuture_result remote BeautifulSoup f (store_of ds))
      as [[e|l] h'].
Qed.

End Listing.

Lemma traverse_inr_Forall2 {A B} (f : A -> Exn + B) (l : list A) (ys : list B) :
  traverse f l = inr ys <-> Forall2 (fun x y => f x = inr y) l ys.
Proof.
  revert ys. induction l as [|x l IH]; intros ys; simpl.
  - split; [intros [= <-]; constructor | by inversion 1].
  - destruct (f x) as [e|y] eqn:Hx.
    + split; [done|]. inversion 1; congruence.
    + destruct (traverse f l) as [e|ys'] eqn:Hl.
      * split; [done|]. inversion 1 as [|? y' ? ys'' _ Hrest]; subst.
        by apply IH in Hrest.
      * split.
        -- intros [= <-]. constructor; [done|]. by apply IH.
        -- inversion 1 as [|? y' ? ys'' Hy Hrest]; subst.
           apply IH in Hrest. congruence.
Qed.

Lemma elem_of_concat {A} (x : A) (ls : list (list A)) :
  x ∈ concat ls <-> exists l, x ∈ l /\ l ∈ ls.
Proof.
  rewrite list_elem_of_In, in_concat. split.
  - intros (l & Hl & Hx). exists l. by rewrite !list_elem_of_In.
  - intros (l & Hx & Hl). exists l. by rewrite <- !list_elem_of_In.
Qed.

Lemma concat_Permutation {A} (ls ls' : list (list A)) :
  ls ≡ₚ ls' -> concat ls ≡ₚ concat ls'.
Proof.
  induction 1 as [|l ls1 ls2 _ IH|l1 l2 ls1|ls1 ls2 ls3 _ IH1 _ IH2]; simpl.
  - done.
  - by rewrite IH.
  - rewrite !app_assoc. f_equiv. apply Permutation_app_comm.
  - by rewrite IH1.
Qed.

Lemma range_empty a b : (b <= a)%Z -> range a b = [].
Proof. intros. unfold range. apply seqZ_nil. lia. Qed.

Lemma elem_of_range a b p : p ∈ range a b <-> (a <= p < b)%Z.
Proof. unfold range. rewrite elem_of_seqZ. lia. Qed.

Section ListingProperties.

Variable remote : Request -> Outcome.
Variable BeautifulSoup : string -> Markup.

(** X1. When every page of the range resolves, [get_clubs] returns the
    clubs of the pages, page after page in some order of the pages (the
    order in which they completed), each page's clubs in the order of the
    page: a club is returned as often as the pages list it. *)
Theorem get_clubs_concatenates_the_pages
    (sched : Schedule) (start_page end_page : option Z) :
  (forall p, p ∈ range (default 1%Z start_page) (default 25%Z end_page + 1) ->
     exists l, page_clubs remote BeautifulSoup p = inr l) ->
  exists pages ls,
    pages ≡ₚ range (default 1%Z start_page) (default 25%Z end_page + 1)
    /\ Forall2 (fun p l => page_clubs remote BeautifulSoup p = inr l) pages ls
    /\ get_clubs remote BeautifulSoup sched start_page end_page
         = inr (concat ls)
    /\ forall c, c ∈ concat ls <->
         exists p l,
           p ∈ range (default 1%Z start_page) (default 25%Z end_page + 1)
           /\ page_clubs remote BeautifulSoup p = inr l /\ c ∈ l.
Proof.
  intros Hall.
  destruct (get_clubs_unfolded remote BeautifulSoup sched start_page end_page)
    as (pages & Hp & Hget).
  destruct (traverse_all_inr (page_clubs remote BeautifulSoup) pages)
    as [ls Hls].
  { intros p Hin. apply Hall. by rewrite <- Hp. }
  rewrite Hls in Hget. exists pages, ls.
  pose proof (proj1 (traverse_inr_Forall2 _ _ _) Hls) as HF.
  split; [done|]. split; [done|]. split; [done|].
  intros c. rewrite elem_of_concat. split.
  - intros (l & Hc & Hl).
    apply list_elem_of_lookup in Hl as [i Hi].
    destruct (Forall2_lookup_r _ _ _ _ _ HF Hi) as (p & Hpi & Hpl).
    exists p, l. split; [|done]. rewrite <- Hp.
    by eapply list_elem_of_lookup_2.
  - intros (p & l & Hin & Hpl & Hc). rewrite <- Hp in Hin.
    apply list_elem_of_lookup in Hin as [i Hi].
    destruct (Forall2_lookup_l _ _ _ _ _ HF Hi) as (l' & Hli & Hpl').
    exists l. split; [done|]. rewrite Hpl in Hpl'. injection Hpl' as <-.
    by eapply list_elem_of_lookup_2.
Qed.

(** X2. When one page of the range completes with another status than
    200 and the other pages resolve, [get_clubs] raises
    [FailedRequestException] with the URL of the listing, which is the
    same for all pages: the exception does not tell which page failed,
    and no club of the other pages is returned. *)
Theorem get_clubs_fails_with_the_listing_url
    (sched : Schedule) (start_page end_page : option Z) (bad : Z)
    (r : Response) :
  bad ∈ range (default 1%Z start_page) (default 25%Z end_page + 1) ->
  remote (page_request bad) = Completed r ->
  status_code r <> 200%Z ->
  (forall p, p ∈ range (default 1%Z start_page) (default 25%Z end_page + 1) ->
     p <> bad -> exists l, page_clubs remote BeautifulSoup p = inr l) ->
  get_clubs remote BeautifulSoup sched start_page end_page
    = inl (FailedRequestException "https://www.futbin.com/18/clubs").
Proof.
  intros Hin Hr Hs Hothers.
  destruct (get_clubs_unfolded remote BeautifulSoup sched start_page end_page)
    as (pages & Hp & Hget).
  rewrite (traverse_first_failure _ pages bad
             (FailedRequestException "https://www.futbin.com/18/clubs"))
    in Hget; [done|by rewrite Hp| |].
  - unfold page_clubs, fetch, transport. cbn [req_url page_request].
    change (mounted clubs_url) with true. cbv iota. rewrite Hr.
    by destruct (Z.eqb_spec (status_code r) 200).
  - intros p Hpin Hne. rewrite Hp in Hpin. by apply Hothers.
Qed.

(** X3. With an end page below the start page [get_clubs] returns the
    empty list and raises nothing, whatever the service would answer: no
    page is asked for. *)
Theorem get_clubs_of_an_empty_range
    (sched : Schedule) (start_page end_page : Z) :
  (end_page < start_page)%Z ->
  get_clubs remote BeautifulSoup sched (Some start_page) (Some end_page)
    = inr [].
Proof.
  intros Hlt.
  destruct (get_clubs_unfolded remote BeautifulSoup sched
              (Some start_page) (Some end_page)) as (pages & Hp & Hget).
  simpl in Hp. rewrite range_empty in Hp by lia.
  apply Permutation_nil_r in Hp. subst pages. done.
Qed.

End ListingProperties.

(** ** More on [get_players_for_clubs] *)

Lemma traverse_inl {A B} (f : A -> Exn + B) (l : list A) (e : Exn) :
  traverse f l = inl e -> exists x, x ∈ l /\ f x = inl e.
Proof.
  induction l as [|x l IH]; simpl; [done|].
  destruct (f x) as [e'|y] eqn:Hx.
  - intros [= ->]. exists x. split; [left|done].
  - destruct (traverse f l) as [e'|ys]; [|done].
    intros [= ->]. destruct IH as (z & Hz & Hfz); [done|].
    exists z. split; [by right|done].
Qed.

Section MorePlayersForClubs.

Variable remote : Request -> Outcome.
Variable BeautifulSoup : string -> Markup.

Lemma accumulate_inl tagged result e :
  accumulate remote BeautifulSoup tagged result = inl e ->
  exists c u, (c, u) ∈ tagged /\ player_of remote BeautifulSoup u = inl e.
Proof.
  revert result. induction tagged as [|[c u] tagged IH]; intros result; simpl;
    [done|].
  destruct (player_of remote BeautifulSoup u) as [e'|p] eqn:Hp.
  - intros [= ->]. exists c, u. split; [left|done].
  - intros Hacc. destruct (IH _ Hacc) as (c' & u' & Hin & Hu').
    exists c', u'. split; [by right|done].
Qed.

(** What the list of a club holds: the Players of its pairs, in the
    order of the pairs. *)
Lemma accumulate_values tagged result m c :
  accumulate remote BeautifulSoup tagged result = inr m ->
  default [] (m !! c) =
    default [] (result !! c)
      ++ omap (player_for remote BeautifulSoup c) tagged.
Proof.
  revert result. induction tagged as [|[club u] tagged IH]; intros result; simpl.
  - intros [= <-]. by rewrite app_nil_r.
  - unfold player_for at 1, resolved_player. cbn [fst snd].
    destruct (player_of remote BeautifulSoup u) as [e|p] eqn:Hp; [done|].
    intros Hacc. rewrite (IH _ Hacc). unfold append_to.
    destruct (decide (club = c)) as [->|Hne].
    + rewrite lookup_insert_eq. simpl. by rewrite <- app_assoc.
    + by rewrite lookup_insert_ne.
Qed.

(** Every URL of a roster is [FUTBIN_URL] followed by the [href] of a
    link, and the [href] has [player/] in it. *)
Lemma roster_urls club urls u :
  roster remote BeautifulSoup club = inr urls -> u ∈ urls ->
  exists href,
    u = FUTBIN_URL +:+ href /\ Str.search player_slash_here href = true.
Proof.
  unfold roster.
  destruct (resolve remote (roster_url club)) as [e|r]; [done|].
  destruct (parse BeautifulSoup (content r)) as [e|soup]; [done|].
  intros Ht Hu. apply traverse_inr_Forall2 in Ht.
  apply list_elem_of_lookup in Hu as [i Hi].
  destruct (Forall2_lookup_r _ _ _ _ _ Ht Hi) as (l & Hl & Hlu).
  apply list_elem_of_lookup_2 in Hl.
  unfold Bs4.find_all in Hl. apply list_elem_of_In, filter_In in Hl as [_ Hf].
  apply andb_prop in Hf as [_ Hf]. unfold href_filter in Hf.
  apply andb_prop in Hf as [_ Hf]. unfold player_url in Hlu.
  destruct (Bs4.attr "href" l) as [[href|?]|]; [|done..].
  injection Hlu as <-. exists href. by split.
Qed.

Lemma roster_url_splits club urls u :
  roster remote BeautifulSoup club = inr urls -> u ∈ urls ->
  3 <= length (Str.split "/" u).
Proof.
  intros Hr Hu. destruct (roster_urls club urls u Hr Hu) as (href & -> & _).
  by apply mounted_split.
Qed.

(** What the parser lets out is its own exception. *)
Lemma parse_inl html e :
  parse BeautifulSoup html = inl e ->
  exists msg, BeautifulSoup html = Rejected msg /\ e = ParserRejectedMarkup msg.
Proof.
  unfold parse. destruct (BeautifulSoup html) as [soup|msg]; [done|].
  intros [= <-]. by exists msg.
Qed.

(** X4. Whatever [get_players_for_clubs] raises is an exception of a
    fetch, the exception of the parser on a page that was fetched, or
    the TypeError of a link whose [href] is not a string. A
    [FailedRequestException] names the roster URL of one of the clubs or
    a player URL found on the roster of one of them, and a page the
    parser rejects is the roster of one of the clubs or the page of such
    a player URL. In particular the ValueError of [Player.from_url]
    never leaves the call. *)
Theorem get_players_for_clubs_raises_only_page_errors
    (sched1 sched2 : Schedule) (clubs : list string) (e : Exn) :
  get_players_for_clubs remote BeautifulSoup sched1 sched2 clubs = inl e ->
  let requested (u : string) :=
    (exists c, c ∈ clubs /\ u = roster_url c)
    \/ (exists c urls,
          c ∈ clubs /\ roster remote BeautifulSoup c = inr urls /\ u ∈ urls) in
  (exists u, requested u /\ e = FailedRequestException u)
  \/ (exists msg, e = RequestException msg)
  \/ (exists u r msg,
        requested u /\ resolve remote u = inr r
        /\ BeautifulSoup (content r) = Rejected msg
        /\ e = ParserRejectedMarkup msg)
  \/ e = TypeError.
Proof.
  intros He requested.
  destruct (get_players_for_clubs_unfolded remote BeautifulSoup
              sched1 sched2 clubs) as (clubs' & Hp & Hspec).
  destruct (traverse (roster_tagged remote BeautifulSoup) clubs')
    as [e'|tss] eqn:Ht.
  - rewrite Hspec in He. injection He as ->.
    apply traverse_inl in Ht as (c & Hc & Hrc). rewrite Hp in Hc.
    assert (requested (roster_url c)) as Hreq by (left; by exists c).
    unfold roster_tagged, roster in Hrc.
    destruct (resolve remote (roster_url c)) as [e'|r] eqn:Hres.
    + injection Hrc as ->. unfold resolve in Hres.
      destruct (transport remote (mkRequest (roster_url c) None)) as [r|msg].
      * destruct (negb (status_code r =? 200)%Z); [|done].
        injection Hres as <-. left. by exists (roster_url c).
      * injection Hres as <-. right. left. by exists msg.
    + destruct (parse BeautifulSoup (content r)) as [e'|soup] eqn:Hparse.
      * injection Hrc as ->. apply parse_inl in Hparse as (msg & Hmsg & ->).
        right. right. left. by exists (roster_url c), r, msg.
      * destruct (traverse player_url _) as [e'|urls] eqn:Hl; [|done].
        injection Hrc as ->. apply traverse_inl in Hl as (l & Hl & Hlu).
        unfold Bs4.find_all in Hl.
        apply list_elem_of_In, filter_In in Hl as [_ Hf].
        apply andb_prop in Hf as [_ Hf]. unfold href_filter in Hf.
        apply andb_prop in Hf as [_ Hf]. unfold player_url in Hlu.
        destruct (Bs4.attr "href" l) as [[href|?]|]; [done| |done].
        injection Hlu as <-. by do 3 right.
  - destruct Hspec as (tagged & Hpt & Hacc). rewrite He in Hacc.
    symmetry in Hacc. apply accumulate_inl in Hacc as (c & u & Hin & Hu).
    rewrite Hpt in Hin.
    destruct (proj1 (traverse_roster_tagged remote BeautifulSoup clubs' tss
                       c u Ht) Hin) as (Hc & urls & Hr & Hin').
    rewrite Hp in Hc.
    assert (requested u) as Hreq by (right; by exists c, urls).
    unfold player_of in Hu.
    destruct (resolve remote u) as [e'|r] eqn:Hres.
    + injection Hu as ->. unfold resolve in Hres.
      destruct (transport remote (mkRequest u None)) as [r|msg].
      * destruct (negb (status_code r =? 200)%Z); [|done].
        injection Hres as <-. left. by exists u.
      * injection Hres as <-. right. left. by exists msg.
    + destruct (parse BeautifulSoup (content r)) as [e'|soup] eqn:Hparse.
      * injection Hu as ->. apply parse_inl in Hparse as (msg & Hmsg & ->).
        right. right. left. by exists u, r, msg.
      * pose proof (roster_url_splits c urls u Hr Hin') as Hs.
        rewrite from_url_unpacks in Hu by lia. done.
Qed.

Lemma omap_player_for_same c (urls : list string) :
  omap (player_for remote BeautifulSoup c) (map (pair c) urls)
    = omap (resolved_player remote BeautifulSoup) urls.
Proof.
  induction urls as [|u urls IH]; [done|].
  change (omap (player_for remote BeautifulSoup c) (map (pair c) (u :: urls)))
    with (match player_for remote BeautifulSoup c (c, u) with
          | Some p =>
              p :: omap (player_for remote BeautifulSoup c) (map (pair c) urls)
          | None => omap (player_for remote BeautifulSoup c) (map (pair c) urls)
          end).
  rewrite IH. unfold player_for. cbn [fst snd].
  by destruct (decide (c = c)).
Qed.

Lemma omap_player_for_other c x (urls : list string) :
  x <> c ->
  omap (player_for remote BeautifulSoup c) (map (pair x) urls) = [].
Proof.
  intros Hne. induction urls as [|u urls IH]; [done|].
  change (omap (player_for remote BeautifulSoup c) (map (pair x) (u :: urls)))
    with (match player_for remote BeautifulSoup c (x, u) with
          | Some p =>
              p :: omap (player_for remote BeautifulSoup c) (map (pair x) urls)
          | None => omap (player_for remote BeautifulSoup c) (map (pair x) urls)
          end).
  rewrite IH. unfold player_for. cbn [fst snd].
  by destruct (decide (x = c)).
Qed.

(** The Players of the pairs of [club] among the pairs of the rosters of
    pairwise distinct clubs. *)
Lemma players_of_distinct_clubs (cl : list string) tss c :
  NoDup cl ->
  traverse (roster_tagged remote BeautifulSoup) cl = inr tss ->
  omap (player_for remote BeautifulSoup c) (concat tss) =
    if decide (c ∈ cl)
    then match roster remote BeautifulSoup c with
         | inr urls => omap (resolved_player remote BeautifulSoup) urls
         | inl _ => []
         end
    else [].
Proof.
  intros Hn. revert tss. induction Hn as [|x cl Hx Hn IH]; intros tss.
  - intros [= <-]. cbn [concat omap].
    by destruct (decide (c ∈ [])) as [?%elem_of_nil|].
  - cbn [traverse]. unfold roster_tagged at 1.
    destruct (roster remote BeautifulSoup x) as [e|urls] eqn:Hrx; [done|].
    destruct (traverse (roster_tagged remote BeautifulSoup) cl)
      as [e|tss'] eqn:Ht; [done|].
    intros [= <-]. cbn [concat]. rewrite omap_app, (IH tss' eq_refl).
    destruct (decide (x = c)) as [->|Hne].
    + destruct (decide (c ∈ cl)) as [|_]; [done|].
      destruct (decide (c ∈ c :: cl)) as [_|Hnin]; [|by destruct Hnin; left].
      rewrite Hrx, app_nil_r. apply omap_player_for_same.
    + rewrite (omap_player_for_other c x urls Hne).
      cbn [app]. destruct (decide (c ∈ cl)) as [Hc|Hc].
      * destruct (decide (c ∈ x :: cl)) as [_|Hnin]; [done|].
        destruct Hnin. by right.
      * destruct (decide (c ∈ x :: cl)) as [Hin|_]; [|done].
        apply elem_of_cons in Hin as [->|Hin]; done.
Qed.

(** X5. When the clubs asked for are pairwise distinct, the dict
    [get_players_for_clubs] returns maps each of them to the Players of
    the URLs on its roster page, one Player per URL, in the order in which
    their pages completed: a permutation of the Players in page order. A
    club with no URL on its roster has no list. *)
Theorem get_players_for_clubs_maps_a_club_to_its_players
    (sched1 sched2 : Schedule) (clubs : list string)
    (m : gmap string (list Player)) (c : string) (urls : list string) :
  NoDup clubs ->
  get_players_for_clubs remote BeautifulSoup sched1 sched2 clubs = inr m ->
  c ∈ clubs ->
  roster remote BeautifulSoup c = inr urls ->
  exists ps,
    Forall2 (fun u p => player_of remote BeautifulSoup u = inr p) urls ps
    /\ default [] (m !! c) ≡ₚ ps.
Proof.
  intros Hn Hm Hc Hr.
  destruct (get_players_for_clubs_unfolded remote BeautifulSoup
              sched1 sched2 clubs) as (clubs' & Hp & Hspec).
  destruct (traverse (roster_tagged remote BeautifulSoup) clubs')
    as [e|tss] eqn:Ht; [congruence|].
  destruct Hspec as (tagged & Hpt & Hacc). rewrite Hm in Hacc.
  symmetry in Hacc.
  pose proof (accumulate_values tagged ∅ m c Hacc) as Hv.
  rewrite lookup_empty in Hv. simpl in Hv.
  destruct (accumulate_keys remote BeautifulSoup tagged ∅ m Hacc)
    as (_ & Hall & _).
  assert (omap (player_for remote BeautifulSoup c) tagged
            ≡ₚ omap (resolved_player remote BeautifulSoup) urls) as Hperm.
  { rewrite Hpt.
    rewrite (players_of_distinct_clubs clubs' tss c) by (by rewrite ?Hp).
    destruct (decide (c ∈ clubs')) as [_|Hnin]; [by rewrite Hr|].
    destruct Hnin. by rewrite Hp. }
  assert (forall u, u ∈ urls ->
            exists p, player_of remote BeautifulSoup u = inr p) as Hres.
  { intros u Hu. apply (Hall c u). rewrite Hpt.
    apply (traverse_roster_tagged remote BeautifulSoup clubs' tss c u Ht).
    split; [by rewrite Hp|]. by exists urls. }
  exists (omap (resolved_player remote BeautifulSoup) urls). split.
  - clear -Hres. induction urls as [|u urls IH]; simpl; [constructor|].
    destruct (Hres u) as [p Hp]; [left|].
    unfold resolved_player at 1. rewrite Hp. constructor; [done|].
    apply IH. intros u' Hu'. apply Hres. by right.
  - by rewrite Hv, Hperm.
Qed.

(** X6. When every club asked for has a roster that resolves and lists
    no player, and in particular when no club is asked for,
    [get_players_for_clubs] returns the empty dict. *)
Theorem get_players_for_clubs_without_players
    (sched1 sched2 : Schedule) (clubs : list string) :
  (forall c, c ∈ clubs -> roster remote BeautifulSoup c = inr []) ->
  get_players_for_clubs remote BeautifulSoup sched1 sched2 clubs = inr ∅.
Proof.
  intros Hall.
  destruct (get_players_for_clubs_unfolded remote BeautifulSoup
              sched1 sched2 clubs) as (clubs' & Hp & Hspec).
  destruct (traverse_all_inr (roster_tagged remote BeautifulSoup) clubs')
    as [tss Ht].
  { intros c Hc. rewrite Hp in Hc. eexists.
    apply roster_tagged_inr. by apply Hall. }
  rewrite Ht in Hspec. destruct Hspec as (tagged & Hpt & Hacc).
  assert (concat tss = []) as Hnil.
  { destruct (concat tss) as [|[c u] rest] eqn:Hc; [done|].
    assert ((c, u) ∈ concat tss) as Hin by (rewrite Hc; left).
    apply (traverse_roster_tagged remote BeautifulSoup clubs' tss c u Ht)
      in Hin as (Hcl & urls & Hr & Hu).
    rewrite Hp in Hcl. rewrite (Hall c Hcl) in Hr. injection Hr as <-.
    by apply elem_of_nil in Hu. }
  rewrite Hnil in Hpt. apply Permutation_nil_r in Hpt. subst tagged. done.
Qed.

Lemma get_players_for_clubs_keys (sched1 sched2 : Schedule)
    (clubs : list string) (m : gmap string (list Player)) (c : string) :
  get_players_for_clubs remote BeautifulSoup sched1 sched2 clubs = inr m ->
  is_Some (m !! c) -> c ∈ clubs.
Proof.
  intros Hm Hc.
  destruct (get_players_for_clubs_unfolded remote BeautifulSoup
              sched1 sched2 clubs) as (clubs' & Hp & Hspec).
  destruct (traverse (roster_tagged remote BeautifulSoup) clubs')
    as [e|tss] eqn:Ht; [congruence|].
  destruct Hspec as (tagged & Hpt & Hacc). rewrite Hm in Hacc.
  symmetry in Hacc.
  destruct (accumulate_keys remote BeautifulSoup tagged ∅ m Hacc)
    as (Hk & _ & _).
  apply Hk in Hc as [[x Hx]|[u Hu]]; [by rewrite lookup_empty in Hx|].
  rewrite Hpt in Hu.
  destruct (proj1 (traverse_roster_tagged remote BeautifulSoup
                     clubs' tss c u Ht) Hu) as (Hcl & _).
  by rewrite <- Hp.
Qed.

(** X7. Every key of the dict [get_all_players] returns is a club listed
    on one of the listing pages 1 to 25. *)
Theorem get_all_players_keys_are_listed_clubs
    (sched0 sched1 sched2 : Schedule) (m : gmap string (list Player))
    (c : string) :
  get_all_players remote BeautifulSoup sched0 sched1 sched2 = inr m ->
  is_Some (m !! c) ->
  exists (page : Z) (l : list string),
    (1 <= page <= 25)%Z
    /\ page_clubs remote BeautifulSoup page = inr l /\ c ∈ l.
Proof.
  unfold get_all_players. intros Hm Hc.
  destruct (get_clubs remote BeautifulSoup sched0 None None)
    as [e|clubs] eqn:Hclubs; [done|].
  apply (get_players_for_clubs_keys sched1 sched2 clubs m c Hm) in Hc.
  destruct (get_clubs_unfolded remote BeautifulSoup sched0 None None)
    as (pages & Hp & Hget).
  rewrite Hclubs in Hget.
  destruct (traverse (page_clubs remote BeautifulSoup) pages)
    as [e|ls] eqn:Ht; [done|].
  injection Hget as ->. apply elem_of_concat in Hc as (l & Hcl & Hl).
  apply traverse_inr_Forall2 in Ht.
  apply list_elem_of_lookup in Hl as [i Hi].
  destruct (Forall2_lookup_r _ _ _ _ _ Ht Hi) as (p & Hpi & Hpl).
  apply list_elem_of_lookup_2 in Hpi. rewrite Hp in Hpi.
  apply elem_of_range in Hpi. simpl in Hpi.
  exists p, l. split; [lia|]. split; [exact Hpl|exact Hcl].
Qed.

End MorePlayersForClubs.

(** ** More on wrappers, futures and completion *)

(** X8. In a well-formed store [_as_completed] yields every wrapper it
    is given, and none twice: a wrapper that is in the list several times
    is yielded once, because [as_completed] makes a set of the futures. *)
Theorem as_completed_yields_a_repeated_wrapper_once
    (h : Heap) (ws : list nat) (sched : Schedule) :
  wf h = true ->
  (forall w, w ∈ ws -> w < length (wrappers h)) ->
  exists ys : list nat,
    _as_completed_list sched ws h = (inr ys, h)
    /\ NoDup ys
    /\ (forall w, w ∈ ys <-> w ∈ ws)
    /\ length ys <= length ws.
Proof.
  intros Hwf Hws. eexists. split; [by apply as_completed_list_eq|].
  set (fs := future_of h <$> ws).
  assert (forall f, f ∈ as_completed sched fs <-> f ∈ fs) as Hin.
  { intros f. unfold as_completed.
    by rewrite complete_Permutation, elem_of_remove_dups. }
  assert (NoDup (as_completed sched fs)) as Hn.
  { unfold as_completed. rewrite complete_Permutation.
    apply NoDup_remove_dups. }
  assert (NoDup (wrapper_of h <$> as_completed sched fs)) as Hny.
  { apply NoDup_fmap_2_strong; [|done].
    intros f1 f2 H1 H2 Heq. apply Hin in H1, H2. unfold fs in H1, H2.
    apply list_elem_of_fmap in H1 as (w1 & -> & Hw1).
    apply list_elem_of_fmap in H2 as (w2 & -> & Hw2).
    rewrite !wrapper_of_future_of in Heq by auto. by subst. }
  assert (forall w, w ∈ wrapper_of h <$> as_completed sched fs <-> w ∈ ws)
    as Hiff.
  { intros w. rewrite list_elem_of_fmap. split.
    - intros (f & -> & Hf). apply Hin in Hf. unfold fs in Hf.
      apply list_elem_of_fmap in Hf as (w' & -> & Hw').
      by rewrite wrapper_of_future_of by auto.
    - intros Hw. exists (future_of h w). split.
      + by rewrite wrapper_of_future_of by auto.
      + apply Hin. unfold fs. apply list_elem_of_fmap. by exists w. }
  split; [done|]. split; [done|].
  apply submseteq_length, NoDup_submseteq; [done|].
  intros w Hw. by apply Hiff.
Qed.

(** X9. [FutBinFuture.__init__] keeps the store well formed and changes
    no object that was there: it adds one wrapper holding the URL and one
    future submitted for the URL and the parameters, each pointing at the
    other. *)
Theorem FutBinFuture_init_links_wrapper_and_future
    (url : string) (params : option (list (string * Param))) (h : Heap) :
  wf h = true ->
  exists (self : nat) (h' : Heap) (o : WrapperObj) (fo : FutureObj),
    FutBinFuture_init url params h = (inr self, h')
    /\ wf h' = true
    /\ wrappers h' !! self = Some o /\ w_url o = url
    /\ futures h' !! w_future o = Some fo
    /\ f_wrapper fo = Some self /\ f_request fo = mkRequest url params
    /\ wrappers h !! self = None
    /\ (forall w o', wrappers h !! w = Some o' -> wrappers h' !! w = Some o')
    /\ (forall f fo', futures h !! f = Some fo' -> futures h' !! f = Some fo').
Proof.
  intros Hwf. pose proof (wf_FutBinFuture_init url params h Hwf) as Hwf'.
  rewrite FutBinFuture_init_eq in Hwf'. cbn [snd] in Hwf'.
  rewrite FutBinFuture_init_eq. do 4 eexists.
  split; [reflexivity|]. split; [exact Hwf'|]. cbn [wrappers futures].
  split; [apply list_lookup_middle; reflexivity|].
  split; [reflexivity|]. cbn [w_future].
  split; [apply list_lookup_middle; reflexivity|].
  split; [reflexivity|]. split; [reflexivity|].
  split; [by apply lookup_ge_None|].
  split; intros ? ? Hl; by apply lookup_app_l_Some.
Qed.

(** ** More on [Player.from_url] *)

(** X10. [Player.from_url] raises ValueError exactly on the URLs without
    a ['/']; on every other URL it returns a Player with the URL and the
    data it was given, whose id and name have no ['/'] in them. *)
Theorem from_url_needs_a_slash (u : string) (d : option Node) :
  (Str.count "/" u = 0 -> PlayerM.from_url u d = inl ValueError)
  /\ (0 < Str.count "/" u ->
      exists i n,
        PlayerM.from_url u d = inr (mkPlayer i n u d)
        /\ Str.count "/" i = 0 /\ Str.count "/" n = 0).
Proof.
  split; [apply from_url_one_segment|].
  intros Hc. pose proof (split_length "/" u) as Hl.
  rewrite from_url_unpacks by lia. do 2 eexists. split; [reflexivity|].
  pose proof (split_pieces "/" u) as Hp. rewrite Forall_forall in Hp.
  split; apply Hp, list_elem_of_lookup_total_2; lia.
Qed.

(** ** More on the clubs-page extraction *)

Lemma clubs_rows_inr (rows : list Node) (acc result : list string) :
  clubs_rows rows acc = inr result ->
  exists pre rest names,
    rows = pre ++ rest /\ result = acc ++ names
    /\ (first_cell <$> pre) = (Some <$> names)
    /\ ("No Results" ∉ names)
    /\ (rest = [] \/ (head rest ≫= first_cell) = Some "No Results").
Proof.
  revert acc. induction rows as [|row rows IH]; intros acc; simpl.
  - intros [= <-]. exists [], [], [].
    split; [done|]. split; [by rewrite app_nil_r|]. split; [done|].
    split; [apply not_elem_of_nil|by left].
  - destruct (Bs4.find (Bs4.name_is "td") row) as [td|] eqn:Htd; [|done].
    destruct (String.eqb_spec (Str.strip (Bs4.text td)) "No Results")
      as [Heq|Hne].
    + intros [= <-]. exists [], (row :: rows), [].
      split; [done|]. split; [by rewrite app_nil_r|]. split; [done|].
      split; [apply not_elem_of_nil|]. right. simpl.
      unfold first_cell. rewrite Htd. simpl. by rewrite Heq.
    + intros Hres.
      destruct (IH _ Hres) as (pre & rest & names & -> & -> & Hpre & Hn & Hr).
      exists (row :: pre), rest, (Str.strip (Bs4.text td) :: names).
      split; [done|]. split; [by rewrite <- app_assoc|].
      split; [|split; [|done]].
      * rewrite !fmap_cons, Hpre. unfold first_cell. by rewrite Htd.
      * intros [?|?]%elem_of_cons; done.
Qed.

Lemma clubs_rows_inl (rows : list Node) (acc : list string) (e : Exn) :
  clubs_rows rows acc = inl e ->
  e = AttributeError "text"
  /\ exists row, row ∈ rows /\ first_cell row = None.
Proof.
  revert acc. induction rows as [|row rows IH]; intros acc; simpl; [done|].
  destruct (Bs4.find (Bs4.name_is "td") row) as [td|] eqn:Htd.
  - destruct (String.eqb (Str.strip (Bs4.text td)) "No Results"); [done|].
    intros Hres. destruct (IH _ Hres) as (-> & row' & Hin & Hrow).
    split; [done|]. exists row'. split; [by right|done].
  - intros [= <-]. split; [done|]. exists row. split; [left|].
    unfold first_cell. by rewrite Htd.
Qed.

(** X11. Whenever the clubs-page extraction returns, it returns the
    trimmed first-cell texts of the rows of the class up to the first
    sentinel, the sentinel never among them, and never more names than
    there are rows; and the only exception it raises by itself is the
    AttributeError of a row of the class without a cell. *)
Theorem clubs_of_page_returns_the_cells_before_the_sentinel (soup : Soup) :
  (forall names,
      clubs_of_page soup = inr names ->
      exists pre rest,
        Bs4.find_all clubs_filter soup = pre ++ rest
        /\ (first_cell <$> pre) = (Some <$> names)
        /\ ("No Results" ∉ names)
        /\ (rest = [] \/ (head rest ≫= first_cell) = Some "No Results")
        /\ length names <= length (Bs4.find_all clubs_filter soup))
  /\ (forall e,
      clubs_of_page soup = inl e ->
      e = AttributeError "text"
      /\ exists row,
           row ∈ Bs4.find_all clubs_filter soup /\ first_cell row = None).
Proof.
  unfold clubs_of_page. split.
  - intros names Hres.
    destruct (clubs_rows_inr _ _ _ Hres)
      as (pre & rest & names' & Hrows & Hn & Hpre & Hs & Hr).
    simpl in Hn. subst names'. exists pre, rest.
    repeat split; [done..|].
    rewrite Hrows, length_app.
    assert (length (first_cell <$> pre) = length (Some <$> names)) as Hl
      by (by rewrite Hpre).
    rewrite !length_fmap in Hl. lia.
  - intros e. apply clubs_rows_inl.
Qed.

(** [str.strip] is idempotent. *)
Lemma rstrip_rstrip s : Str.rstrip (Str.rstrip s) = Str.rstrip s.
Proof.
  induction s as [|c r IH]; simpl; [done|].
  destruct (Str.rstrip r) as [|c' r'] eqn:Hr.
  - destruct (Str.is_space c) eqn:Hc; simpl; [done|]. by rewrite Hc.
  - simpl in *. by rewrite IH.
Qed.

Lemma rstrip_keeps_the_head c r :
  Str.is_space c = false ->
  exists r', Str.rstrip (String c r) = String c r'.
Proof.
  intros Hc. simpl. destruct (Str.rstrip r); [|by eexists].
  rewrite Hc. by eexists.
Qed.

Lemma lstrip_head s :
  Str.lstrip s = EmptyString
  \/ exists c r, Str.lstrip s = String c r /\ Str.is_space c = false.
Proof.
  induction s as [|c r IH]; simpl; [by left|].
  destruct (Str.is_space c) eqn:Hc; [done|]. right. by exists c, r.
Qed.

Lemma strip_strip s : Str.strip (Str.strip s) = Str.strip s.
Proof.
  unfold Str.strip. destruct (lstrip_head s) as [->|(c & r & -> & Hc)].
  - done.
  - destruct (rstrip_keeps_the_head c r Hc) as [r' Hr]. rewrite Hr.
    simpl Str.lstrip. rewrite Hc. rewrite <- Hr. apply rstrip_rstrip.
Qed.

(** X12. Every name the clubs-page extraction returns is trimmed:
    stripping it again changes nothing. *)
Theorem clubs_of_page_names_are_trimmed (soup : Soup) (names : list string)
    (n : string) :
  clubs_of_page soup = inr names -> n ∈ names -> Str.strip n = n.
Proof.
  unfold clubs_of_page. intros Hres Hn.
  destruct (clubs_rows_inr _ _ _ Hres)
    as (pre & rest & names' & _ & Heq & Hpre & _).
  simpl in Heq. subst names'.
  apply list_elem_of_lookup in Hn as [i Hi].
  assert ((Some <$> names) !! i = Some (Some n)) as Hi'
    by (by rewrite list_lookup_fmap, Hi).
  rewrite <- Hpre, list_lookup_fmap in Hi'.
  destruct (pre !! i) as [row|]; [|done]. simpl in Hi'.
  injection Hi' as Hrow. unfold first_cell in Hrow.
  destruct (Bs4.find (Bs4.name_is "td") row) as [td|]; [|done].
  simpl in Hrow. injection Hrow as <-. apply strip_strip.
Qed.

Section RosterUrls.

Variable remote : Request -> Outcome.
Variable BeautifulSoup : string -> Markup.

(** X13. Every URL the roster generator of a club yields is
    [FUTBIN_URL] followed by an [href] with [player/] in it, and
    [Player.from_url] accepts it: it never raises on a URL of the second
    wave. *)
Theorem roster_urls_are_player_urls
    (club : string) (urls : list string) (u : string) (d : option Node) :
  roster remote BeautifulSoup club = inr urls ->
  u ∈ urls ->
  (exists href,
      u = "https://www.futbin.com" +:+ href
      /\ Str.search player_slash_here href = true)
  /\ exists i n, PlayerM.from_url u d = inr (mkPlayer i n u d).
Proof.
  intros Hr Hu. split; [by apply (roster_urls remote BeautifulSoup club urls)|].
  pose proof (roster_url_splits remote BeautifulSoup club urls u Hr Hu) as Hs.
  rewrite from_url_unpacks by lia. by do 2 eexists.
Qed.

End RosterUrls.

(** ** get_player_prices *)

Lemma get_wrapper_store_of ds w d :
  ds !! w = Some d ->
  get_wrapper w (store_of ds) =
    (inr (mkWrapper (req_url (fst d)) w
            (fst (fst (snd d))) (snd (fst (snd d))) (snd (snd d))),
     store_of ds).
Proof. intros Hd. unfold get_wrapper. by rewrite (store_of_wrapper ds w d Hd). Qed.

Lemma ret_eq {A} (x : A) h : ret x h = (inr x, h).
Proof. reflexivity. Qed.

Lemma get_player_reads w h : snd (get_player w h) = h.
Proof.
  unfold get_player, bind, get_wrapper, ret, raise.
  destruct (wrappers h !! w) as [o|]; [|done]. by destruct (w_player o).
Qed.

Lemma PlayerPriceFuture_init_store_of player type year now pid ds :
  PlayerM.price_id player = inr pid ->
  PlayerPriceFuture_init player type year now (store_of ds) =
    (inr (length ds),
     store_of (ds ++ [price_entry (player, price_request type year pid now)])).
Proof.
  intros Hpid. unfold PlayerPriceFuture_init. rewrite bind_eq.
  rewrite Hpid. cbn [lift]. unfold ret at 1. rewrite bind_eq.
  rewrite FutBinFuture_init_eq. rewrite bind_eq.
  unfold set_player, ret. cbn [wrappers futures].
  rewrite alter_snoc.
  rewrite store_of_snoc, store_of_wrappers_length, store_of_futures_length.
  done.
Qed.

Lemma price_entries_players k players type year clock es :
  price_entries k players type year clock = inr es -> es.*1 = players.
Proof.
  revert k es. induction players as [|p players IH]; intros k es; simpl.
  - by intros [= <-].
  - destruct (PlayerM.price_id p) as [e|pid]; [done|].
    destruct (price_entries (S k) players type year clock) as [e|es'] eqn:Hes;
      [done|].
    intros [= <-]. rewrite fmap_cons. cbn [fst]. by rewrite (IH _ _ Hes).
Qed.

Lemma price_entries_inl k players type year clock :
  (exists p, p ∈ players /\ exists e, PlayerM.price_id p = inl e) ->
  exists e p,
    price_entries k players type year clock = inl e
    /\ p ∈ players /\ PlayerM.price_id p = inl e.
Proof.
  revert k. induction players as [|q players IH]; intros k (p & Hin & e & He).
  - by apply elem_of_nil in Hin.
  - simpl. destruct (PlayerM.price_id q) as [e'|pid] eqn:Hq.
    + exists e', q. split; [done|]. split; [left|done].
    + apply elem_of_cons in Hin as [->|Hin]; [congruence|].
      destruct (IH (S k)) as (e' & p' & Hes & Hin' & Hp').
      { exists p. split; [done|]. by exists e. }
      rewrite Hes. exists e', p'. split; [done|]. split; [by right|done].
Qed.

(** The loop of [get_player_prices] over the players. *)
Lemma submit_prices (players : list Player) type year clock k ds
    (acc : list nat) :
  let run :=
    for_ (imap (fun i p => (k + i, p)) players)
      (fun ip futures =>
         do f <- PlayerPriceFuture_init (snd ip) type year (clock (fst ip));
         ret (futures ++ [f])) acc (store_of ds) in
  match price_entries k players type year clock with
  | inl e => fst run = inl e
  | inr es =>
      run = (inr (acc ++ seq (length ds) (length es)),
             store_of (ds ++ (price_entry <$> es)))
  end.
Proof.
  cbv zeta. revert k ds acc.
  induction players as [|p players IH]; intros k ds acc.
  - simpl. by rewrite !app_nil_r.
  - rewrite imap_cons. rewrite for__cons. cbv beta. cbn [fst snd price_entries].
    rewrite bind_eq.
    destruct (PlayerM.price_id p) as [e|pid] eqn:Hpid.
    + by rewrite (PlayerPriceFuture_init_raises p type year _ e _ Hpid).
    + rewrite (PlayerPriceFuture_init_store_of p type year _ pid ds Hpid).
      rewrite ret_eq.
      specialize (IH (S k)
                     (ds ++ [price_entry
                               (p, price_request type year pid (clock (k + 0)))])
                     (acc ++ [length ds])).
      rewrite (imap_ext _ (fun i q => (S k + i, q)))
        by (intros i q _; unfold compose; f_equal; lia).
      replace (k + 0) with k in * by lia.
      destruct (price_entries (S k) players type year clock) as [e|es];
        [done|].
      rewrite IH. rewrite length_app. simpl.
      rewrite <- !app_assoc. simpl.
      by replace (length ds + 1) with (S (length ds)) by lia.
Qed.

Section Prices.

Variable remote : Request -> Outcome.
Variable Json : Type.
Variable json : string -> option Json.

Lemma PlayerPriceFuture_result_reads self h :
  snd (PlayerPriceFuture_result remote Json json self h) = h.
Proof.
  unfold PlayerPriceFuture_result. rewrite bind_eq.
  pose proof (FutBinFuture_result_reads remote self h) as Hh.
  destruct (FutBinFuture_result remote self h) as [[e|r] h']; simpl in Hh;
    subst h'; [done|].
  unfold ret, raise. by destruct (json (content r)).
Qed.

(** What the consumer is given for one completed wrapper. *)
Lemma price_pair_store_of ds f p req :
  ds !! f = Some (price_entry (p, req)) ->
  (do player <- get_player f;
   do prices <- PlayerPriceFuture_result remote Json json f;
   ret (player, prices)) (store_of ds)
  = (match price_of remote Json json req with
     | inl e => inl e
     | inr v => inr (p, v)
     end, store_of ds).
Proof.
  intros Hd. rewrite bind_eq. unfold get_player at 1. rewrite bind_eq.
  rewrite (get_wrapper_store_of ds f _ Hd). cbn [w_player price_entry snd fst].
  unfold ret at 1. rewrite bind_eq.
  unfold PlayerPriceFuture_result. rewrite bind_eq.
  rewrite (FutBinFuture_result_eq remote f _ _ _
             (store_of_wrapper ds f _ Hd) (store_of_future ds f _ Hd)).
  unfold price_of, fetch. cbn [price_entry fst snd f_request w_url].
  destruct (transport remote req) as [r|msg]; [|done].
  destruct (negb (status_code r =? 200)%Z); [done|].
  unfold ret, raise. by destruct (json (content r)).
Qed.

Lemma drain_prices ds (order : list nat) (es : list (Player * Request)) :
  Forall2 (fun f e => ds !! f = Some (price_entry e)) order es ->
  drain order
    (fun f =>
       do player <- get_player f;
       do prices <- PlayerPriceFuture_result remote Json json f;
       ret (player, prices)) (store_of ds)
  = price_stream remote Json json es.
Proof.
  induction 1 as [|f [p req] order es Hd _ IH]; [done|].
  rewrite drain_cons. cbv beta.
  rewrite (price_pair_store_of ds f p req Hd). cbn [price_stream].
  destruct (price_of remote Json json req) as [e|v]; [done|].
  by rewrite IH.
Qed.

(** [get_player_prices] first builds the requests in the order of the
    players; a player without [price_id] ends it there, before anything
    is yielded. Otherwise it resolves the requests in some order and
    yields a pair for each, up to the first that raises. *)
Lemma get_player_prices_unfolded (sched : Schedule) (players : list Player)
    (type year : option string) (clock : nat -> Z) :
  match price_entries 0 players type year clock with
  | inl e =>
      get_player_prices remote Json json sched players type year clock
        = ([], Some e)
  | inr es =>
      exists order, order ≡ₚ es /\
        get_player_prices remote Json json sched players type year clock
          = price_stream remote Json json order
  end.
Proof.
  unfold get_player_prices.
  pose proof (submit_prices players type year clock 0 [] []) as Hs.
  cbv zeta in Hs. change empty_heap with (store_of []).
  change (imap pair players) with (imap (fun i p => (0 + i, p)) players).
  destruct (price_entries 0 players type year clock) as [e|es] eqn:Hes.
  - destruct (for_ _ _ [] (store_of [])) as [[e'|x] h']; simpl in Hs; [|done].
    by injection Hs as ->.
  - rewrite Hs. cbn [app length]. unfold _as_completed_drain.
    set (n := length es).
    set (ds := price_entry <$> es).
    assert (length ds = n) as Hlen by (unfold ds; by rewrite length_fmap).
    rewrite collect_futures_store_of
      by (intros w Hw; apply elem_of_seq in Hw; lia).
    set (order := as_completed sched (seq 0 n)).
    assert (order ≡ₚ seq 0 n) as Hp
      by apply as_completed_Permutation, NoDup_seq.
    assert (forall f, f ∈ order -> f < length ds) as Hb.
    { intros f Hf. rewrite Hp in Hf. apply elem_of_seq in Hf. lia. }
    exists ((fun f => es !!! f) <$> order). split.
    { rewrite Hp. unfold n. by rewrite lookup_total_seq. }
    rewrite drain_yielding_store_of; [|done|].
    + apply drain_prices.
      apply Forall2_fmap_r, Forall_Forall2_diag, Forall_forall.
      intros f Hf. unfold ds. rewrite list_lookup_fmap.
      rewrite (list_lookup_lookup_total_lt es f); [done|].
      specialize (Hb f Hf). lia.
    + intros f. rewrite bind_eq.
      pose proof (get_player_reads f (store_of ds)) as Hg.
      destruct (get_player f (store_of ds)) as [[e|p] h']; simpl in Hg;
        subst h'; [done|].
      rewrite bind_eq.
      pose proof (PlayerPriceFuture_result_reads f (store_of ds)) as Hr.
      by destruct (PlayerPriceFuture_result remote Json json f (store_of ds))
        as [[e|v] h'].
Qed.

Lemma price_stream_all es :
  (forall p req, (p, req) ∈ es ->
     exists v, price_of remote Json json req = inr v) ->
  exists ys,
    price_stream remote Json json es = (ys, None)
    /\ Forall2 (fun e y => fst y = fst e
                           /\ price_of remote Json json (snd e) = inr (snd y))
               es ys.
Proof.
  induction es as [|[p req] es IH]; intros Hall; simpl.
  - exists []. split; [done|constructor].
  - destruct (Hall p req) as [v Hv]; [left|]. rewrite Hv.
    destruct IH as (ys & Hys & HF); [intros ? ? ?; eapply Hall; by right|].
    rewrite Hys. exists ((p, v) :: ys). split; [done|]. by constructor.
Qed.

Lemma price_stream_pairs es ys oe :
  price_stream remote Json json es = (ys, oe) ->
  (forall p v, (p, v) ∈ ys ->
     exists req, (p, req) ∈ es /\ price_of remote Json json req = inr v)
  /\ length ys <= length es
  /\ (forall e, oe = Some e ->
        length ys < length es
        /\ exists p req,
             (p, req) ∈ es /\ price_of remote Json json req = inl e)
  /\ (oe = None -> length ys = length es).
Proof.
  revert ys oe. induction es as [|[p req] es IH]; intros ys oe; simpl.
  - intros [= <- <-]. split; [by intros p v ?%elem_of_nil|].
    split; [done|]. split; done.
  - destruct (price_of remote Json json req) as [e|v] eqn:Hv.
    + intros [= <- <-]. split; [by intros p' v' ?%elem_of_nil|].
      split; [simpl; lia|]. split; [|done].
      intros e' [= <-]. split; [simpl; lia|].
      exists p, req. split; [left|done].
    + destruct (price_stream remote Json json es) as [ys' oe'] eqn:Hes.
      intros [= <- <-].
      destruct (IH ys' oe' eq_refl) as (Hpairs & Hlen & Hexn & Hnone).
      split; [|split; [simpl; lia|split]].
      * intros p' v' [[= -> ->]|Hin]%elem_of_cons.
        -- exists req. split; [left|done].
        -- destruct (Hpairs p' v' Hin) as (req' & Hin' & Hv').
           exists req'. split; [by right|done].
      * intros e He. destruct (Hexn e He) as (Hlt & p' & req' & Hin' & He').
        split; [simpl; lia|]. exists p', req'. split; [by right|done].
      * intros Hn. simpl. by rewrite (Hnone Hn).
Qed.

(** X14. When a player has no [price_id], [get_player_prices] yields
    nothing, whatever the other players are and whatever the service
    answers: the exception of [price_id] ends the generator before its
    first pair. *)
Theorem get_player_prices_needs_every_price_id
    (sched : Schedule) (players : list Player) (type year : option string)
    (clock : nat -> Z) :
  (exists p, p ∈ players /\ exists e, PlayerM.price_id p = inl e) ->
  exists e p,
    get_player_prices remote Json json sched players type year clock
      = ([], Some e)
    /\ p ∈ players /\ PlayerM.price_id p = inl e.
Proof.
  intros Hbad.
  destruct (price_entries_inl 0 players type year clock Hbad)
    as (e & p & Hes & Hin & Hp).
  pose proof (get_player_prices_unfolded sched players type year clock) as Hu.
  rewrite Hes in Hu. by exists e, p.
Qed.

(** X15. When every player has a [price_id] and every price-graph
    request resolves to JSON, [get_player_prices] ends without an
    exception after one pair per player: the players it yields are a
    permutation of the players given, each with the prices its own
    request resolved to. *)
Theorem get_player_prices_yields_a_pair_per_player
    (sched : Schedule) (players : list Player) (type year : option string)
    (clock : nat -> Z) (es : list (Player * Request)) :
  price_entries 0 players type year clock = inr es ->
  (forall p req, (p, req) ∈ es ->
     exists v, price_of remote Json json req = inr v) ->
  exists ys,
    get_player_prices remote Json json sched players type year clock
      = (ys, None)
    /\ ys.*1 ≡ₚ players
    /\ forall p v, (p, v) ∈ ys ->
         exists req, (p, req) ∈ es /\ price_of remote Json json req = inr v.
Proof.
  intros Hes Hall.
  pose proof (get_player_prices_unfolded sched players type year clock) as Hu.
  rewrite Hes in Hu. destruct Hu as (order & Hp & Hget).
  destruct (price_stream_all order) as (ys & Hys & HF).
  { intros p req Hin. apply (Hall p req). by rewrite <- Hp. }
  exists ys. rewrite Hget. split; [done|]. split.
  - rewrite <- (price_entries_players 0 players type year clock es Hes).
    rewrite <- Hp. clear -HF.
    induction HF as [|e y order ys [Hfst _] _ IH]; [done|].
    simpl. by rewrite Hfst, IH.
  - destruct (price_stream_pairs order ys None Hys) as (Hpairs & _).
    intros p v Hin. destruct (Hpairs p v Hin) as (req & Hin' & Hv).
    exists req. split; [by rewrite <- Hp|done].
Qed.

(** X16. When a price-graph request raises, [get_player_prices] ends
    with the exception of a request that raised, after fewer pairs than
    there are players; every pair it yielded before is a player with the
    prices of its own request. *)
Theorem get_player_prices_stops_at_a_failed_request
    (sched : Schedule) (players : list Player) (type year : option string)
    (clock : nat -> Z) (es : list (Player * Request)) :
  price_entries 0 players type year clock = inr es ->
  (exists p req e, (p, req) ∈ es /\ price_of remote Json json req = inl e) ->
  exists ys e,
    get_player_prices remote Json json sched players type year clock
      = (ys, Some e)
    /\ length ys < length players
    /\ (exists p req,
          (p, req) ∈ es /\ price_of remote Json json req = inl e)
    /\ forall p v, (p, v) ∈ ys ->
         exists req, (p, req) ∈ es /\ price_of remote Json json req = inr v.
Proof.
  intros Hes (pb & reqb & eb & Hinb & Hb).
  pose proof (get_player_prices_unfolded sched players type year clock) as Hu.
  rewrite Hes in Hu. destruct Hu as (order & Hp & Hget).
  destruct (price_stream remote Json json order) as [ys oe] eqn:Hs.
  destruct (price_stream_pairs order ys oe Hs) as (Hpairs & Hlen & Hexn & Hnone).
  assert (length es = length players) as Hl.
  { rewrite <- (price_entries_players 0 players type year clock es Hes).
    by rewrite length_fmap. }
  destruct oe as [e|].
  - destruct (Hexn e eq_refl) as (Hlt & p & req & Hin & He).
    exists ys, e. rewrite Hget. split; [done|].
    split; [rewrite <- Hl, <- Hp; lia|].
    split; [exists p, req; by rewrite <- Hp|].
    intros p' v Hin'. destruct (Hpairs p' v Hin') as (req' & Hin'' & Hv).
    exists req'. split; [by rewrite <- Hp|done].
  - exfalso. specialize (Hnone eq_refl).
    rewrite <- Hp in Hinb. clear -Hs Hinb Hb.
    revert ys Hs. induction order as [|[p req] order IH]; intros ys Hs.
    + by apply elem_of_nil in Hinb.
    + simpl in Hs.
      destruct (price_of remote Json json req) as [e|v] eqn:Hv; [done|].
      destruct (price_stream remote Json json order) as [ys' oe'] eqn:Hes.
      injection Hs as <- ->.
      apply elem_of_cons in Hinb as [[= -> ->]|Hin]; [congruence|].
      by apply (IH Hin ys').
Qed.

End Prices.

(** ** The width of a session *)

(** X18. [FutBinSession] builds no pool of width 0 or less:
    [max_workers=0] is falsy and gives the default width 4, and a
    negative [max_workers] raises the ValueError of the pool, the only
    exception of the constructor. A session that is built has the width
    it was asked for, unless that was 0 or nothing. *)
Theorem FutBinSession_width_is_positive (w : option Z) :
  (forall s : Session,
      FutBinSession w = inr s ->
      (1 <= max_workers s)%Z
      /\ (w = Some (max_workers s)
          \/ ((w = None \/ w = Some 0%Z) /\ max_workers s = 4%Z)))
  /\ (forall e : Exn,
      FutBinSession w = inl e ->
      e = ValueError /\ exists n : Z, w = Some n /\ (n < 0)%Z)
  /\ (w = Some 0%Z -> FutBinSession w = inr (mkSession 4))
  /\ (forall n : Z, w = Some n -> (n < 0)%Z -> FutBinSession w = inl ValueError).
Proof.
  unfold FutBinSession, ThreadPoolExecutor, py_or, DEFAULT_WORKERS.
  destruct w as [n|].
  - destruct (Z.eqb_spec n 0) as [->|Hn]; simpl.
    + split; [|split; [done|split; [done|]]].
      * intros s [= <-]. simpl. split; [lia|]. right. split; [by right|done].
      * intros m [= <-]. lia.
    + destruct (Z.leb_spec n 0) as [Hle|Hgt].
      * split; [done|]. split; [|split; [by intros [= ->]|done]].
        intros e [= <-]. split; [done|]. exists n. split; [done|lia].
      * split; [|split; [done|split; [by intros [= ->]|]]].
        -- intros s [= <-]. simpl. split; [lia|by left].
        -- intros m [= <-]. lia.
  - simpl. split; [|done].
    intros s [= <-]. simpl. split; [lia|]. right. split; [by left|done].
Qed.

(** ** Printing a player made from a URL *)

Lemma count_append (c : ascii) (s t : string) :
  Str.count c (s +:+ t) = Str.count c s + Str.count c t.
Proof. induction s as [|a r IH]; simpl; [done|]. rewrite IH. lia. Qed.

(** X17. For a URL with a ['/'], the player [Player.from_url] makes prints
    ([Player.__str__]) as the URL's last segment followed by its
    second-to-last segment in parentheses, and the printed text has no
    ['/']. *)
Theorem Player_str_of_a_url (u : string) (d : option Node) :
  0 < Str.count "/" u ->
  exists p,
    PlayerM.from_url u d = inr p
    /\ Player_str p
       = (Str.split "/" u !!! (length (Str.split "/" u) - 1))
         +:+ "(" +:+ (Str.split "/" u !!! (length (Str.split "/" u) - 2))
         +:+ ")"
    /\ Str.count "/" (Player_str p) = 0.
Proof.
  intros Hc. pose proof (split_length "/" u) as Hl.
  rewrite from_url_unpacks by lia. eexists. split; [reflexivity|].
  split; [reflexivity|].
  pose proof (split_pieces "/" u) as Hp. rewrite Forall_forall in Hp.
  unfold Player_str. cbn [name id]. rewrite !count_append.
  rewrite (Hp (Str.split "/" u !!! (length (Str.split "/" u) - 1)))
    by (apply list_elem_of_lookup_total_2; lia).
  rewrite (Hp (Str.split "/" u !!! (length (Str.split "/" u) - 2)))
    by (apply list_elem_of_lookup_total_2; lia).
  reflexivity.
Qed.

(** ** The further statements on the examples *)

Lemma listing_pages_resolve (p : Z) :
  p ∈ range 1 4 ->
  exists l, page_clubs MoreExamples.listing MoreExamples.parser p = inr l.
Proof.
  intros Hp. apply elem_of_range in Hp.
  assert (p = 1 \/ p = 2 \/ p = 3)%Z as [->|[->| ->]] by lia;
    eexists; reflexivity.
Qed.

Lemma get_clubs_concatenates_the_pages_three_pages :
  exists pages ls,
    pages ≡ₚ range 1 4
    /\ Forall2 (fun p l => page_clubs MoreExamples.listing MoreExamples.parser p
                           = inr l) pages ls
    /\ get_clubs MoreExamples.listing MoreExamples.parser [2; 0]
         (Some 1%Z) (Some 3%Z) = inr (concat ls)
    /\ forall c, c ∈ concat ls <->
         exists p l,
           p ∈ range 1 4
           /\ page_clubs MoreExamples.listing MoreExamples.parser p = inr l
           /\ c ∈ l.
Proof.
  exact (get_clubs_concatenates_the_pages MoreExamples.listing
           MoreExamples.parser [2; 0] (Some 1%Z) (Some 3%Z)
           listing_pages_resolve).
Defined.

Lemma get_clubs_fails_with_the_listing_url_page_2 :
  MoreExamples.broken_listing (page_request 2) = Completed (mkResponse 404 "")
  /\ get_clubs MoreExamples.broken_listing MoreExamples.parser [2; 0]
       (Some 1%Z) (Some 3%Z)
     = inl (FailedRequestException "https://www.futbin.com/18/clubs").
Proof.
  split; [reflexivity|].
  apply (get_clubs_fails_with_the_listing_url MoreExamples.broken_listing
           MoreExamples.parser [2; 0] (Some 1%Z) (Some 3%Z) 2%Z
           (mkResponse 404 "")).
  - apply elem_of_range. simpl. lia.
  - reflexivity.
  - simpl. lia.
  - intros p Hp Hne. apply elem_of_range in Hp. simpl in Hp.
    assert (p = 1 \/ p = 3)%Z as [->| ->] by lia; eexists; reflexivity.
Defined.

Lemma get_clubs_of_an_empty_range_5_to_2 :
  (2 < 5)%Z
  /\ get_clubs MoreExamples.broken_listing MoreExamples.parser [1]
       (Some 5%Z) (Some 2%Z) = inr [].
Proof.
  split; [lia|].
  apply (get_clubs_of_an_empty_range MoreExamples.broken_listing
           MoreExamples.parser [1] 5%Z 2%Z). lia.
Defined.

Lemma get_players_for_clubs_raises_only_page_errors_rejected :
  get_players_for_clubs Example.rejected_players Example.parser [1] [0]
    ["Arsenal"; "Chelsea"]
  = inl (ParserRejectedMarkup "expected name token")
  /\ exists u r msg,
       ((exists c, c ∈ ["Arsenal"; "Chelsea"] /\ u = roster_url c)
        \/ (exists c urls,
              c ∈ ["Arsenal"; "Chelsea"]
              /\ roster Example.rejected_players Example.parser c = inr urls
              /\ u ∈ urls))
       /\ resolve Example.rejected_players u = inr r
       /\ Example.parser (content r) = Rejected msg
       /\ ParserRejectedMarkup "expected name token" = ParserRejectedMarkup msg.
Proof.
  split; [reflexivity|].
  destruct (get_players_for_clubs_raises_only_page_errors
              Example.rejected_players Example.parser [1] [0]
              ["Arsenal"; "Chelsea"]
              (ParserRejectedMarkup "expected name token") eq_refl)
    as [H|[H|[H|H]]].
  - exfalso. destruct H as (u & _ & H). discriminate.
  - exfalso. destruct H as (msg & H). discriminate.
  - exact H.
  - discriminate.
Defined.

Lemma get_players_for_clubs_maps_a_club_to_its_players_chelsea :
  get_players_for_clubs Example.arsenal_empty Example.parser
    [] [] ["Arsenal"; "Chelsea"]
  = inr {[ "Chelsea" := [Example.hazard; Example.kante] ]}
  /\ exists ps,
       Forall2 (fun u p => player_of Example.arsenal_empty Example.parser u
                           = inr p)
               [Example.hazard_url; Example.kante_url] ps
       /\ default [] (({[ "Chelsea" := [Example.hazard; Example.kante] ]}
                         : gmap string (list Player)) !! "Chelsea") ≡ₚ ps.
Proof.
  assert (NoDup ["Arsenal"; "Chelsea"]) as Hn.
  { apply NoDup_cons. split; [|apply NoDup_singleton].
    intros H. apply list_elem_of_singleton in H. discriminate. }
  assert (get_players_for_clubs Example.arsenal_empty Example.parser
            [] [] ["Arsenal"; "Chelsea"]
          = inr {[ "Chelsea" := [Example.hazard; Example.kante] ]}) as Hm
    by (vm_compute; reflexivity).
  split; [exact Hm|].
  apply (get_players_for_clubs_maps_a_club_to_its_players
           Example.arsenal_empty Example.parser [] [] ["Arsenal"; "Chelsea"]
           _ "Chelsea" [Example.hazard_url; Example.kante_url] Hn Hm).
  - right. left.
  - reflexivity.
Defined.

Lemma get_players_for_clubs_without_players_arsenal :
  roster Example.arsenal_empty Example.parser "Arsenal" = inr []
  /\ get_players_for_clubs Example.arsenal_empty Example.parser [0] [0]
       ["Arsenal"] = inr ∅.
Proof.
  split; [reflexivity|].
  apply (get_players_for_clubs_without_players Example.arsenal_empty
           Example.parser [0] [0] ["Arsenal"]).
  intros c Hc. apply list_elem_of_singleton in Hc as ->. reflexivity.
Defined.

Lemma get_all_players_keys_are_listed_clubs_chelsea :
  get_all_players MoreExamples.site MoreExamples.parser [] [] []
  = inr {[ "Chelsea" := [Example.hazard; Example.kante] ]}
  /\ exists (page : Z) (l : list string),
       (1 <= page <= 25)%Z
       /\ page_clubs MoreExamples.site MoreExamples.parser page = inr l
       /\ "Chelsea" ∈ l.
Proof.
  assert (get_all_players MoreExamples.site MoreExamples.parser [] [] []
          = inr {[ "Chelsea" := [Example.hazard; Example.kante] ]}) as Hm
    by (vm_compute; reflexivity).
  split; [exact Hm|].
  apply (get_all_players_keys_are_listed_clubs MoreExamples.site
           MoreExamples.parser [] [] [] _ "Chelsea" Hm).
  eexists. reflexivity.
Defined.

Lemma as_completed_yields_a_repeated_wrapper_once_two_rosters :
  exists ys : list nat,
    _as_completed_list [1] [0; 1; 0] Example.two_rosters
      = (inr ys, Example.two_rosters)
    /\ NoDup ys
    /\ (forall w, w ∈ ys <-> w ∈ [0; 1; 0])
    /\ length ys <= 3.
Proof.
  apply (as_completed_yields_a_repeated_wrapper_once Example.two_rosters
           [0; 1; 0] [1] eq_refl).
  intros w Hw. repeat (apply elem_of_cons in Hw as [->|Hw]; [simpl; lia|]).
  by apply elem_of_nil in Hw.
Defined.

Lemma FutBinFuture_init_links_wrapper_and_future_third :
  exists (self : nat) (h' : Heap) (o : WrapperObj) (fo : FutureObj),
    FutBinFuture_init Example.hazard_url None Example.two_rosters
      = (inr self, h')
    /\ wf h' = true
    /\ wrappers h' !! self = Some o /\ w_url o = Example.hazard_url
    /\ futures h' !! w_future o = Some fo
    /\ f_wrapper fo = Some self
    /\ f_request fo = mkRequest Example.hazard_url None
    /\ wrappers Example.two_rosters !! self = None
    /\ (forall w o', wrappers Example.two_rosters !! w = Some o' ->
                     wrappers h' !! w = Some o')
    /\ (forall f fo', futures Example.two_rosters !! f = Some fo' ->
                      futures h' !! f = Some fo').
Proof.
  exact (FutBinFuture_init_links_wrapper_and_future Example.hazard_url None
           Example.two_rosters eq_refl).
Defined.

Lemma from_url_needs_a_slash_examples :
  PlayerM.from_url "l-messi" None = inl ValueError
  /\ exists i n,
       PlayerM.from_url "158023/l-messi" None
         = inr (mkPlayer i n "158023/l-messi" None)
       /\ Str.count "/" i = 0 /\ Str.count "/" n = 0.
Proof.
  split.
  - apply (proj1 (from_url_needs_a_slash "l-messi" None)). reflexivity.
  - apply (proj2 (from_url_needs_a_slash "158023/l-messi" None)). simpl. lia.
Defined.

Lemma clubs_of_page_returns_the_cells_before_the_sentinel_example :
  exists pre rest,
    Bs4.find_all clubs_filter Example.clubs_page = pre ++ rest
    /\ (first_cell <$> pre) = (Some <$> ["Arsenal"; "Chelsea"])
    /\ ("No Results" ∉ ["Arsenal"; "Chelsea"])
    /\ (rest = [] \/ (head rest ≫= first_cell) = Some "No Results")
    /\ length ["Arsenal"; "Chelsea"]
       <= length (Bs4.find_all clubs_filter Example.clubs_page).
Proof.
  exact (proj1 (clubs_of_page_returns_the_cells_before_the_sentinel
                  Example.clubs_page) ["Arsenal"; "Chelsea"] eq_refl).
Defined.

Lemma clubs_of_page_names_are_trimmed_arsenal :
  clubs_of_page Example.clubs_page = inr ["Arsenal"; "Chelsea"]
  /\ Str.strip "Arsenal" = "Arsenal".
Proof.
  split; [reflexivity|].
  apply (clubs_of_page_names_are_trimmed Example.clubs_page
           ["Arsenal"; "Chelsea"] "Arsenal" eq_refl). left.
Defined.

Lemma roster_urls_are_player_urls_hazard :
  (exists href,
      Example.hazard_url = "https://www.futbin.com" +:+ href
      /\ Str.search player_slash_here href = true)
  /\ exists i n,
       PlayerM.from_url Example.hazard_url None
         = inr (mkPlayer i n Example.hazard_url None).
Proof.
  apply (roster_urls_are_player_urls Example.arsenal_empty Example.parser
           "Chelsea" [Example.hazard_url; Example.kante_url]
           Example.hazard_url None eq_refl). left.
Defined.

Lemma get_player_prices_needs_every_price_id_nobody :
  exists e p,
    get_player_prices MoreExamples.prices string MoreExamples.decode [1]
      [Example.hazard; MoreExamples.nobody] None None MoreExamples.clock
      = ([], Some e)
    /\ p ∈ [Example.hazard; MoreExamples.nobody]
    /\ PlayerM.price_id p = inl e.
Proof.
  apply (get_player_prices_needs_every_price_id MoreExamples.prices string
           MoreExamples.decode [1] [Example.hazard; MoreExamples.nobody]
           None None MoreExamples.clock).
  exists MoreExamples.nobody. split; [right; left|].
  exists TypeError. reflexivity.
Defined.

Lemma get_player_prices_yields_a_pair_per_player_two_players :
  exists ys,
    get_player_prices MoreExamples.prices string MoreExamples.decode [1]
      [Example.hazard; MoreExamples.salah] None None MoreExamples.clock
      = (ys, None)
    /\ ys.*1 ≡ₚ [Example.hazard; MoreExamples.salah]
    /\ forall p v, (p, v) ∈ ys ->
         exists req,
           (p, req) ∈ [(Example.hazard,
                         price_request None None (AStr "158023") 1514764800);
                        (MoreExamples.salah,
                         price_request None None (AStr "209331") 1514764801)]
           /\ price_of MoreExamples.prices string MoreExamples.decode req
              = inr v.
Proof.
  apply (get_player_prices_yields_a_pair_per_player MoreExamples.prices string
           MoreExamples.decode [1] [Example.hazard; MoreExamples.salah]
           None None MoreExamples.clock _ eq_refl).
  intros p req Hin.
  apply elem_of_cons in Hin as [[= -> ->]|Hin]; [eexists; reflexivity|].
  apply elem_of_cons in Hin as [[= -> ->]|Hin]; [eexists; reflexivity|].
  by apply elem_of_nil in Hin.
Defined.

Lemma get_player_prices_stops_at_a_failed_request_salah :
  exists ys e,
    get_player_prices MoreExamples.broken_prices string MoreExamples.decode [0]
      [Example.hazard; MoreExamples.salah] None None MoreExamples.clock
      = (ys, Some e)
    /\ length ys < 2
    /\ (exists p req,
          (p, req) ∈ [(Example.hazard,
                        price_request None None (AStr "158023") 1514764800);
                       (MoreExamples.salah,
                        price_request None None (AStr "209331") 1514764801)]
          /\ price_of MoreExamples.broken_prices string MoreExamples.decode req
             = inl e)
    /\ forall p v, (p, v) ∈ ys ->
         exists req,
           (p, req) ∈ [(Example.hazard,
                         price_request None None (AStr "158023") 1514764800);
                        (MoreExamples.salah,
                         price_request None None (AStr "209331") 1514764801)]
           /\ price_of MoreExamples.broken_prices string MoreExamples.decode req
              = inr v.
Proof.
  apply (get_player_prices_stops_at_a_failed_request
           MoreExamples.broken_prices string MoreExamples.decode [0]
           [Example.hazard; MoreExamples.salah] None None MoreExamples.clock
           _ eq_refl).
  exists MoreExamples.salah,
    (price_request None None (AStr "209331") 1514764801),
    (FailedRequestException "https://www.futbin.com/18/playerGraph").
  split; [right; left|reflexivity].
Defined.

Lemma Player_str_of_a_url_messi :
  exists p,
    PlayerM.from_url "https://www.futbin.com/18/player/158023/l-messi" None
      = inr p
    /\ Player_str p = "l-messi(158023)"
    /\ Str.count "/" (Player_str p) = 0.
Proof.
  destruct (Player_str_of_a_url
              "https://www.futbin.com/18/player/158023/l-messi" None)
    as (p & Hp & Hs & Hc); [simpl; lia|].
  exists p. split; [exact Hp|]. split; [|exact Hc].
  rewrite Hs. reflexivity.
Defined.

Lemma FutBinSession_width_is_positive_examples :
  FutBinSession (Some 0%Z) = inr (mkSession 4)
  /\ FutBinSession (Some (-2)%Z) = inl ValueError.
Proof.
  split.
  - apply (proj1 (proj2 (proj2 (FutBinSession_width_is_positive (Some 0%Z))))).
    reflexivity.
  - apply (proj2 (proj2 (proj2 (FutBinSession_width_is_positive
                                  (Some (-2)%Z)))) (-2)%Z);
      [reflexivity|lia].
Defined.
